(** * Voice-command photo editor: history, adjustments and command interpretation

    A shallow embedding of the editing core of [main.py]: the session state of
    [MainWindow] (current / original frame, undo and redo stacks, cached
    adjustment baselines, slider positions), the undo/redo discipline, the
    four slider adjustments and the two-phase voice-command interpreter.

    External collaborators (the JPEG codec, the OpenCV kernels, the fuzzy
    string score, floating-point scaling) are the fields of a record that
    the editor takes as a parameter; everything the source itself computes
    is written out. *)

From Stdlib Require Import ZArith String Ascii List Bool Lia Arith.
From Stdlib Require Strings.Byte.
From Stdlib Require DecimalString.
Import ListNotations.
Open Scope Z_scope.

(* ------------------------------------------------------------------ *)
(** ** Utilities *)

(** [clamp(val, lo, hi) = max(lo, min(hi, val))]. *)
Definition clamp (val lo hi : Z) : Z := Z.max lo (Z.min hi val).

(** Python's [list.pop()] : the last element and the list without it. *)
Fixpoint list_pop {A : Type} (l : list A) : option (list A * A) :=
  match l with
  | [] => None
  | x :: t =>
      match list_pop t with
      | None => Some ([], x)
      | Some (t', y) => Some (x :: t', y)
      end
  end.

(** Python's [list.pop(0)] on a non-empty list: the list without its head. *)
Definition list_pop0 {A : Type} (l : list A) : list A := tl l.

(** [iter_n n f x] applies [f] to [x], [n] times. *)
Fixpoint iter_n {A : Type} (n : nat) (f : A -> A) (x : A) : A :=
  match n with
  | O => x
  | S k => iter_n k f (f x)
  end.

(* ------------------------------------------------------------------ *)
(** ** Frames

    A frame is a NumPy array of 8-bit samples: two-dimensional (rows of
    samples, grayscale) or three-dimensional (rows of pixels, each pixel a
    list of channel samples).  Samples are integers; a well-formed frame has
    all of them in [0,255]. *)

Inductive Frame : Type :=
| Gray (rows : list (list Z))
| Color (rows : list (list (list Z))).

Definition ndim (img : Frame) : Z :=
  match img with Gray _ => 2 | Color _ => 3 end.

(** Apply [f] to every sample of every channel. *)
Definition map_samples (f : Z -> Z) (img : Frame) : Frame :=
  match img with
  | Gray rows => Gray (map (map f) rows)
  | Color rows => Color (map (map (map f)) rows)
  end.

(** All samples of a frame, in row-major order. *)
Definition samples (img : Frame) : list Z :=
  match img with
  | Gray rows => concat rows
  | Color rows => concat (concat rows)
  end.

Definition is_uint8 (x : Z) : Prop := 0 <= x <= 255.

Definition wf_frame (img : Frame) : Prop := Forall is_uint8 (samples img).

(** [arr[:, :, c] = f(arr[:, :, c])] on a three-dimensional array. *)
Fixpoint update_nth (c : nat) (f : Z -> Z) (px : list Z) : list Z :=
  match px, c with
  | [], _ => []
  | x :: t, O => f x :: t
  | x :: t, S c' => x :: update_nth c' f t
  end.

Definition map_channel (c : nat) (f : Z -> Z) (img : Frame) : Frame :=
  match img with
  | Gray rows => Gray rows
  | Color rows => Color (map (map (update_nth c f)) rows)
  end.

(** [arr[:, :, c]] as a two-dimensional array (absent channel read as 0). *)
Definition channel (c : nat) (img : Frame) : list (list Z) :=
  match img with
  | Gray rows => rows
  | Color rows => map (map (fun px => nth c px 0)) rows
  end.

(** Fixed-width conversions used by [astype]. *)
Definition wrap_int16 (x : Z) : Z := (x + 32768) mod 65536 - 32768.
Definition wrap_uint8 (x : Z) : Z := x mod 256.

(** OpenCV's [saturate_cast<uchar>]. *)
Definition saturate_uint8 (x : Z) : Z := Z.max 0 (Z.min 255 x).

(** [cv2.convertScaleAbs(src, alpha, beta)]: per sample
    [saturate_cast<uchar>(|src * alpha + beta|)].  The product with [alpha]
    is passed as [mul_alpha] (the identity for [alpha = 1]); both callers
    have either [alpha = 1] or [beta = 0], so rounding the product before
    adding [beta] is exact. *)
Definition convertScaleAbs (mul_alpha : Z -> Z) (beta : Z) (src : Frame) : Frame :=
  map_samples (fun x => saturate_uint8 (Z.abs (mul_alpha x + beta))) src.

(** [cv2.bitwise_not] on 8-bit samples. *)
Definition bitwise_not (img : Frame) : Frame := map_samples (fun x => 255 - x) img.

(** [cv2.flip(img, code)]: [0] reverses the rows, a positive code each row,
    a negative code both. *)
Definition flip_rows {A : Type} (code : Z) (rows : list (list A)) : list (list A) :=
  if code =? 0 then rev rows
  else if 0 <? code then map (@rev _) rows
  else rev (map (@rev _) rows).

Definition flip (code : Z) (img : Frame) : Frame :=
  match img with
  | Gray rows => Gray (flip_rows code rows)
  | Color rows => Color (flip_rows code rows)
  end.

Fixpoint transpose {A : Type} (rows : list (list A)) : list (list A) :=
  match rows with
  | [] => []
  | [r] => map (fun x => [x]) r
  | r :: rs => map (fun p => fst p :: snd p) (combine r (transpose rs))
  end.

Inductive RotateCode := ROTATE_90_CLOCKWISE | ROTATE_90_COUNTERCLOCKWISE.

Definition rotate_rows {A : Type} (code : RotateCode) (rows : list (list A)) :=
  match code with
  | ROTATE_90_CLOCKWISE => map (@rev _) (transpose rows)
  | ROTATE_90_COUNTERCLOCKWISE => rev (transpose rows)
  end.

Definition rotate (code : RotateCode) (img : Frame) : Frame :=
  match img with
  | Gray rows => Gray (rotate_rows code rows)
  | Color rows => Color (rotate_rows code rows)
  end.

(* ------------------------------------------------------------------ *)
(** ** Session state *)

(** A snapshot is the byte string of a JPEG-encoded frame. *)
Definition bytes := list Byte.byte.

(** The fields of [MainWindow] that the editing core reads or writes.  The
    attributes [_brightness_base] and [_contrast_base] exist only after the
    first adjustment: an absent attribute is [None]. *)
Record MainWindow : Type := mkMainWindow {
  current_image : option Frame;
  original_image : option Frame;
  undo_stack : list bytes;
  redo_stack : list bytes;
  has_unsaved_changes : bool;
  brightness_base : option Frame;
  contrast_base : option Frame;
  brightness_slider : Z;
  contrast_slider : Z;
  saturation_slider : Z;
  hue_slider : Z;
  command_history : list string
}.

Definition max_stack_size : nat := 20.
Definition max_history_size : nat := 15.

(** The state built by [MainWindow.__init__]. *)
Definition init_window : MainWindow :=
  {| current_image := None; original_image := None;
     undo_stack := []; redo_stack := [];
     has_unsaved_changes := false;
     brightness_base := None; contrast_base := None;
     brightness_slider := 0; contrast_slider := 100;
     saturation_slider := 100; hue_slider := 0;
     command_history := [] |}.

Definition set_current_image (v : option Frame) (s : MainWindow) : MainWindow :=
  mkMainWindow v (original_image s) (undo_stack s) (redo_stack s)
    (has_unsaved_changes s) (brightness_base s) (contrast_base s)
    (brightness_slider s) (contrast_slider s) (saturation_slider s)
    (hue_slider s) (command_history s).

Definition set_original_image (v : option Frame) (s : MainWindow) : MainWindow :=
  mkMainWindow (current_image s) v (undo_stack s) (redo_stack s)
    (has_unsaved_changes s) (brightness_base s) (contrast_base s)
    (brightness_slider s) (contrast_slider s) (saturation_slider s)
    (hue_slider s) (command_history s).

Definition set_undo_stack (v : list bytes) (s : MainWindow) : MainWindow :=
  mkMainWindow (current_image s) (original_image s) v (redo_stack s)
    (has_unsaved_changes s) (brightness_base s) (contrast_base s)
    (brightness_slider s) (contrast_slider s) (saturation_slider s)
    (hue_slider s) (command_history s).

Definition set_redo_stack (v : list bytes) (s : MainWindow) : MainWindow :=
  mkMainWindow (current_image s) (original_image s) (undo_stack s) v
    (has_unsaved_changes s) (brightness_base s) (contrast_base s)
    (brightness_slider s) (contrast_slider s) (saturation_slider s)
    (hue_slider s) (command_history s).

Definition set_has_unsaved_changes (v : bool) (s : MainWindow) : MainWindow :=
  mkMainWindow (current_image s) (original_image s) (undo_stack s) (redo_stack s)
    v (brightness_base s) (contrast_base s)
    (brightness_slider s) (contrast_slider s) (saturation_slider s)
    (hue_slider s) (command_history s).

Definition set_brightness_base (v : option Frame) (s : MainWindow) : MainWindow :=
  mkMainWindow (current_image s) (original_image s) (undo_stack s) (redo_stack s)
    (has_unsaved_changes s) v (contrast_base s)
    (brightness_slider s) (contrast_slider s) (saturation_slider s)
    (hue_slider s) (command_history s).

Definition set_contrast_base (v : option Frame) (s : MainWindow) : MainWindow :=
  mkMainWindow (current_image s) (original_image s) (undo_stack s) (redo_stack s)
    (has_unsaved_changes s) (brightness_base s) v
    (brightness_slider s) (contrast_slider s) (saturation_slider s)
    (hue_slider s) (command_history s).

Definition set_brightness_slider (v : Z) (s : MainWindow) : MainWindow :=
  mkMainWindow (current_image s) (original_image s) (undo_stack s) (redo_stack s)
    (has_unsaved_changes s) (brightness_base s) (contrast_base s)
    v (contrast_slider s) (saturation_slider s)
    (hue_slider s) (command_history s).

Definition set_contrast_slider (v : Z) (s : MainWindow) : MainWindow :=
  mkMainWindow (current_image s) (original_image s) (undo_stack s) (redo_stack s)
    (has_unsaved_changes s) (brightness_base s) (contrast_base s)
    (brightness_slider s) v (saturation_slider s)
    (hue_slider s) (command_history s).

Definition set_saturation_slider (v : Z) (s : MainWindow) : MainWindow :=
  mkMainWindow (current_image s) (original_image s) (undo_stack s) (redo_stack s)
    (has_unsaved_changes s) (brightness_base s) (contrast_base s)
    (brightness_slider s) (contrast_slider s) v
    (hue_slider s) (command_history s).

Definition set_hue_slider (v : Z) (s : MainWindow) : MainWindow :=
  mkMainWindow (current_image s) (original_image s) (undo_stack s) (redo_stack s)
    (has_unsaved_changes s) (brightness_base s) (contrast_base s)
    (brightness_slider s) (contrast_slider s) (saturation_slider s)
    v (command_history s).

Definition set_command_history (v : list string) (s : MainWindow) : MainWindow :=
  mkMainWindow (current_image s) (original_image s) (undo_stack s) (redo_stack s)
    (has_unsaved_changes s) (brightness_base s) (contrast_base s)
    (brightness_slider s) (contrast_slider s) (saturation_slider s)
    (hue_slider s) v.


(* ------------------------------------------------------------------ *)
(** ** Text helpers (ASCII utterances) *)

Definition isspace (c : ascii) : bool :=
  let n := nat_of_ascii c in
  ((9 <=? n) && (n <=? 13) || (28 <=? n) && (n <=? 32))%nat.

Definition isdigit (c : ascii) : bool :=
  let n := nat_of_ascii c in ((48 <=? n) && (n <=? 57))%nat.

Definition lower_char (c : ascii) : ascii :=
  let n := nat_of_ascii c in
  if ((65 <=? n) && (n <=? 90))%nat then ascii_of_nat (n + 32) else c.

(** [str.lower()]. *)
Fixpoint lower (s : string) : string :=
  match s with
  | EmptyString => EmptyString
  | String c t => String (lower_char c) (lower t)
  end.

Fixpoint lstrip (s : string) : string :=
  match s with
  | String c t => if isspace c then lstrip t else s
  | EmptyString => EmptyString
  end.

Fixpoint string_rev_onto (s acc : string) : string :=
  match s with
  | EmptyString => acc
  | String c t => string_rev_onto t (String c acc)
  end.

Definition string_rev (s : string) : string := string_rev_onto s EmptyString.

(** [str.strip()]. *)
Definition strip (s : string) : string :=
  string_rev (lstrip (string_rev (lstrip s))).

(** [int(text)] for the texts [-?[0-9]+]; [None] stands for [ValueError]. *)
Fixpoint digits_value (s : string) (acc : Z) : option Z :=
  match s with
  | EmptyString => Some acc
  | String c t =>
      if isdigit c then digits_value t (10 * acc + Z.of_nat (nat_of_ascii c - 48))
      else None
  end.

Definition py_int (s : string) : option Z :=
  match s with
  | EmptyString => None
  | String c t =>
      if Ascii.eqb c "-" then
        match t with
        | EmptyString => None
        | String _ _ => option_map Z.opp (digits_value t 0)
        end
      else digits_value s 0
  end.

(* ------------------------------------------------------------------ *)
(** ** Regular expressions

    The fragment of Python's [re] that [_compile_patterns] uses, matched by
    backtracking with greedy quantifiers, with one capturing group. *)

Inductive regex : Type :=
| Chars (p : string)              (* a literal text *)
| Class (c : ascii -> bool)       (* one character of a class *)
| Alt (a b : regex)               (* a|b *)
| Cat (a b : regex)               (* ab *)
| Star (c : ascii -> bool)        (* c* over a class, greedy *)
| Opt (a : regex)                 (* a?, greedy *)
| Capture (a : regex).            (* ( a ), group 1 *)

(** The rest of [s] after the prefix [p], if [s] starts with [p]. *)
Fixpoint strip_prefix (p s : string) : option string :=
  match p, s with
  | EmptyString, _ => Some s
  | String a p', String b s' => if Ascii.eqb a b then strip_prefix p' s' else None
  | String _ _, EmptyString => None
  end.

(** The first [n] characters of [s]. *)
Fixpoint take (n : nat) (s : string) : string :=
  match n, s with
  | S k, String c t => String c (take k t)
  | _, _ => EmptyString
  end.

(** What was consumed between the text [s] and its suffix [rest]. *)
Definition consumed (s rest : string) : string :=
  take (String.length s - String.length rest) s.

Section Matcher.
Variable R : Type.

Fixpoint match_star (c : ascii -> bool) (s : string) (k : string -> option R)
    : option R :=
  match s with
  | String a t =>
      if c a then
        match match_star c t k with
        | Some r => Some r
        | None => k s
        end
      else k s
  | EmptyString => k s
  end.

(** [match_re r s g k]: match [r] at the start of [s] with group 1
    currently [g], then continue with [k] on the rest; [None] makes the
    matcher try its next alternative. *)
Fixpoint match_re (r : regex) (s : string) (g : option string)
    (k : string -> option string -> option R) : option R :=
  match r with
  | Chars p =>
      match strip_prefix p s with
      | Some rest => k rest g
      | None => None
      end
  | Class c =>
      match s with
      | String a t => if c a then k t g else None
      | EmptyString => None
      end
  | Alt a b =>
      match match_re a s g k with
      | Some x => Some x
      | None => match_re b s g k
      end
  | Cat a b => match_re a s g (fun s' g' => match_re b s' g' k)
  | Star c => match_star c s (fun s' => k s' g)
  | Opt a =>
      match match_re a s g k with
      | Some x => Some x
      | None => k s g
      end
  | Capture a => match_re a s g (fun s' _ => k s' (Some (consumed s s')))
  end.
End Matcher.

Arguments match_star {R} c s k.
Arguments match_re {R} r s g k.

(** [r.search(s)] then [m.group(1)]: the leftmost match wins. *)
Fixpoint re_search_group1 (r : regex) (s : string) : option string :=
  match match_re r s None (fun _ g => Some g) with
  | Some g => Some (match g with Some t => t | None => EmptyString end)
  | None =>
      match s with
      | EmptyString => None
      | String _ t => re_search_group1 r t
      end
  end.

(** [(?:w1|w2)\s*(?:by)?\s*(-?\d+)] and its one-keyword form. *)
Definition param_pattern (keywords : regex) : regex :=
  Cat keywords
    (Cat (Star isspace)
      (Cat (Opt (Chars "by"))
        (Cat (Star isspace)
          (Capture (Cat (Opt (Chars "-")) (Cat (Class isdigit) (Star isdigit))))))).

Definition re_brightness : regex :=
  param_pattern (Alt (Chars "brightness") (Chars "brighten")).
Definition re_contrast : regex := param_pattern (Chars "contrast").
Definition re_saturation : regex :=
  param_pattern (Alt (Chars "saturation") (Chars "saturate")).
Definition re_hue : regex := param_pattern (Chars "hue").

(** *** What a pattern matches

    [matches r s g rest g']: [r] matches a prefix of [s] and leaves [rest],
    taking group 1 from [g] to [g']. *)
Inductive matches : regex -> string -> option string -> string -> option string -> Prop :=
| matches_chars : forall p s rest g,
    strip_prefix p s = Some rest -> matches (Chars p) s g rest g
| matches_class : forall c a t g,
    c a = true -> matches (Class c) (String a t) g t g
| matches_alt_l : forall a b s g rest g',
    matches a s g rest g' -> matches (Alt a b) s g rest g'
| matches_alt_r : forall a b s g rest g',
    matches b s g rest g' -> matches (Alt a b) s g rest g'
| matches_cat : forall a b s g s1 g1 rest g',
    matches a s g s1 g1 -> matches b s1 g1 rest g' ->
    matches (Cat a b) s g rest g'
| matches_star_stop : forall c s g, matches (Star c) s g s g
| matches_star_step : forall c a t g rest,
    c a = true -> matches (Star c) t g rest g ->
    matches (Star c) (String a t) g rest g
| matches_opt_skip : forall a s g, matches (Opt a) s g s g
| matches_opt_take : forall a s g rest g',
    matches a s g rest g' -> matches (Opt a) s g rest g'
| matches_capture : forall a s g rest g',
    matches a s g rest g' ->
    matches (Capture a) s g rest (Some (consumed s rest)).

(** Every character of [w] is in the class [c]. *)
Definition all_chars (c : ascii -> bool) (w : string) : Prop :=
  forallb c (list_ascii_of_string w) = true.

(** [-?[0-9]+]. *)
Definition signed_integer (num : string) : Prop :=
  exists sign digits,
    num = (sign ++ digits)%string /\
    (sign = EmptyString \/ sign = "-"%string) /\
    digits <> EmptyString /\
    all_chars isdigit digits.

(** The text [cmd] contains [<keyword> [by] <signed integer>], with
    optional white space around [by], and [num] is the integer's text. *)
Definition names_parameter (keywords : list string) (cmd num : string) : Prop :=
  exists pre kw w1 by_ w2 post,
    cmd = (pre ++ kw ++ w1 ++ by_ ++ w2 ++ num ++ post)%string /\
    In kw keywords /\
    all_chars isspace w1 /\
    (by_ = EmptyString \/ by_ = "by"%string) /\
    all_chars isspace w2 /\
    signed_integer num.

(** [K] matches exactly the words of [keywords] and leaves group 1 alone. *)
Definition keyword_pattern (K : regex) (keywords : list string) : Prop :=
  forall s g rest g',
    matches K s g rest g' <->
    g' = g /\ exists kw, In kw keywords /\ s = (kw ++ rest)%string.

(* ------------------------------------------------------------------ *)
(** ** A reference fuzzy score

    [fuzz.ratio] is a collaborator of the interpreter.  With the
    python-Levenshtein backend it is [round(100 * 2 * M / T)], where [T] is
    the total length of both texts and [M] the length of their longest common
    subsequence; equal texts score 100 and an empty text scores 0.  The
    quotient is taken exactly here. *)

(** One row of the longest-common-subsequence table: [prev] is the row
    above, [diag] and [left] the neighbouring entries. *)
Fixpoint lcs_row (x : ascii) (b : list ascii) (prev : list nat) (diag left : nat)
    : list nat :=
  match b, prev with
  | y :: b', up :: prev' =>
      let cur := if Ascii.eqb x y then S diag else Nat.max up left in
      cur :: lcs_row x b' prev' up cur
  | _, _ => []
  end.

Definition lcs_length (a b : list ascii) : nat :=
  last (fold_left (fun row x => lcs_row x b row 0%nat 0%nat) a (repeat 0%nat (length b))) 0%nat.

(** Python's [round] of the quotient [n / d] ([d > 0]): ties go to even. *)
Definition round_half_even (n d : Z) : Z :=
  let q := n / d in
  let r := n mod d in
  if 2 * r <? d then q
  else if d <? 2 * r then q + 1
  else if Z.even q then q else q + 1.

Definition indel_ratio (s1 s2 : string) : Z :=
  if String.eqb s1 s2 then 100
  else if (String.length s1 =? 0)%nat || (String.length s2 =? 0)%nat then 0
  else
    let m := lcs_length (list_ascii_of_string s1) (list_ascii_of_string s2) in
    round_half_even (200 * Z.of_nat m)
                    (Z.of_nat (String.length s1 + String.length s2)).

(** Without python-Levenshtein, [fuzz.ratio] falls back on [difflib]:
    [M] is then the total size of the matching blocks that
    [SequenceMatcher] finds by taking the longest common block (the earliest
    in the first text, then the earliest in the second) and repeating on
    both sides of it.  No character is junk for texts shorter than 200. *)
Fixpoint common_prefix_length (a b : list ascii) : nat :=
  match a, b with
  | x :: a', y :: b' => if Ascii.eqb x y then S (common_prefix_length a' b') else 0%nat
  | _, _ => 0%nat
  end.

(** The longest block of [a] starting at its front, against every position
    of [b] from [j] on: [(j, size)], the earliest among the longest. *)
Fixpoint best_in_b (a b : list ascii) (j : nat) (best : nat * nat) : nat * nat :=
  match b with
  | [] => best
  | _ :: b' =>
      let k := common_prefix_length a b in
      best_in_b a b' (S j) (if (snd best <? k)%nat then (j, k) else best)
  end.

(** [find_longest_match]: [(i, j, size)]. *)
Fixpoint find_longest_match (a b : list ascii) (i : nat) (best : nat * nat * nat)
    : nat * nat * nat :=
  match a with
  | [] => best
  | _ :: a' =>
      let '(j, k) := best_in_b a b 0%nat (0%nat, snd best) in
      find_longest_match a' b (S i)
        (if (snd best <? k)%nat then (i, j, k) else best)
  end.

(** The total size of the matching blocks; [fuel] bounds the recursion
    depth and [length a + 1] is enough. *)
Fixpoint matching_size (fuel : nat) (a b : list ascii) : nat :=
  match fuel with
  | O => 0%nat
  | S fuel' =>
      let '(i, j, k) := find_longest_match a b 0%nat (0%nat, 0%nat, 0%nat) in
      if (k =? 0)%nat then 0%nat
      else (matching_size fuel' (firstn i a) (firstn j b) + k +
            matching_size fuel' (skipn (i + k) a) (skipn (j + k) b))%nat
  end.

Definition difflib_ratio (s1 s2 : string) : Z :=
  if String.eqb s1 s2 then 100
  else if (String.length s1 =? 0)%nat || (String.length s2 =? 0)%nat then 0
  else
    let a := list_ascii_of_string s1 in
    let b := list_ascii_of_string s2 in
    let m := matching_size (S (length a)) a b in
    round_half_even (200 * Z.of_nat m)
                    (Z.of_nat (String.length s1 + String.length s2)).

(* ------------------------------------------------------------------ *)
(** ** The command interpreter *)

(** The bound methods that the [commands] dictionary maps keywords to. *)
Inductive Method : Type :=
| M_apply_grayscale | M_apply_blur | M_apply_sharpen | M_apply_edge_detection
| M_apply_sepia | M_apply_invert | M_apply_histogram_equalization
| M_apply_adaptive_thresholding | M_apply_saturation_default
| M_rotate_left | M_rotate_right | M_flip_horizontal | M_flip_vertical
| M_zoom_in | M_zoom_out | M_reset_zoom | M_fit_to_window
| M_undo | M_redo | M_reset_image | M_show_help | M_close.

(** The [commands] dictionary, in insertion order. *)
Definition commands : list (string * Method) :=
  [ ("grayscale", M_apply_grayscale);
    ("blur", M_apply_blur);
    ("sharpen", M_apply_sharpen);
    ("edge", M_apply_edge_detection);
    ("sepia", M_apply_sepia);
    ("invert", M_apply_invert);
    ("histogram", M_apply_histogram_equalization);
    ("adaptive", M_apply_adaptive_thresholding);
    ("saturation", M_apply_saturation_default);
    ("rotate left", M_rotate_left);
    ("rotate right", M_rotate_right);
    ("flip horizontal", M_flip_horizontal);
    ("flip vertical", M_flip_vertical);
    ("zoom in", M_zoom_in);
    ("zoom out", M_zoom_out);
    ("reset zoom", M_reset_zoom);
    ("fit", M_fit_to_window);
    ("undo", M_undo);
    ("redo", M_redo);
    ("reset", M_reset_image);
    ("help", M_show_help);
    ("exit", M_close) ]%string.

(** [commands.keys()]. *)
Definition command_keys : list string := map fst commands.

(** The methods whose body calls [save_image_state]: eight of the nine
    methods under "Image Filters" (all but [apply_saturation_default]),
    the four transforms and [reset_image]. *)
Definition snapshots (m : Method) : bool :=
  match m with
  | M_apply_grayscale | M_apply_blur | M_apply_sharpen | M_apply_edge_detection
  | M_apply_sepia | M_apply_invert | M_apply_histogram_equalization
  | M_apply_adaptive_thresholding
  | M_rotate_left | M_rotate_right | M_flip_horizontal | M_flip_vertical
  | M_reset_image => true
  | _ => false
  end.

(** [commands[key]]. *)
Fixpoint commands_get (key : string) (table : list (string * Method)) : option Method :=
  match table with
  | [] => None
  | (k, m) :: rest => if String.eqb key k then Some m else commands_get key rest
  end.

(** What an utterance resolves to. *)
Inductive Action : Type :=
| Keyword (key : string)
| Brightness (n : Z)
| Contrast (n : Z)
| Saturation (n : Z)
| Hue (n : Z).

(** The integer of a parameterized pattern: [int(m.group(1))]. *)
Definition search_int (r : regex) (cmd : string) : option Z :=
  match re_search_group1 r cmd with
  | Some g => py_int g
  | None => None
  end.

(** The words each pattern accepts, and what it means for a pattern to find
    exactly the parameters named with them: a found integer is the value of
    a [<word> [by] <signed integer>] in the text, and nothing is found only
    when the text has no such part. *)
Definition brightness_words : list string := ["brightness"; "brighten"]%string.
Definition contrast_words : list string := ["contrast"]%string.
Definition saturation_words : list string := ["saturation"; "saturate"]%string.
Definition hue_words : list string := ["hue"]%string.

Definition pattern_finds (r : regex) (keywords : list string) : Prop :=
  forall cmd,
    (forall n, search_int r cmd = Some n ->
       exists num, names_parameter keywords cmd num /\ py_int num = Some n) /\
    (search_int r cmd = None <-> forall num, ~ names_parameter keywords cmd num).

(** The chain of [if m := pattern.search(cmd)] tests, each ending in
    [return]. *)
Definition extract_parameter (cmd : string) : option Action :=
  match search_int re_brightness cmd with
  | Some n => Some (Brightness n)
  | None =>
  match search_int re_contrast cmd with
  | Some n => Some (Contrast n)
  | None =>
  match search_int re_saturation cmd with
  | Some n => Some (Saturation n)
  | None =>
  match search_int re_hue cmd with
  | Some n => Some (Hue n)
  | None => None
  end end end end.

Section Interpreter.

(** [fuzz.ratio]. *)
Variable fuzz_ratio : string -> string -> Z.

(** The loop over [commands.keys()] with its two accumulators. *)
Fixpoint best_match_loop (cmd : string) (keys : list string)
    (best_match : option string) (best_score : Z) : option string * Z :=
  match keys with
  | [] => (best_match, best_score)
  | key :: rest =>
      let score := fuzz_ratio cmd key in
      if (75 <? score) && (best_score <? score)
      then best_match_loop cmd rest (Some key) score
      else best_match_loop cmd rest best_match best_score
  end.

(** [best_match] after the loop. *)
Definition fuzzy_match (cmd : string) : option string :=
  fst (best_match_loop cmd command_keys None 0).

(** The two phases of [handle_command] on the normalised text: the fuzzy
    keyword first, the parameterized patterns only without one. *)
Definition interpret (cmd : string) : option Action :=
  match fuzzy_match cmd with
  | Some key => Some (Keyword key)
  | None => extract_parameter cmd
  end.

End Interpreter.

(* ------------------------------------------------------------------ *)
(** ** Specification vocabulary *)

(** A bounded push: the new entry goes on top (the end of the list); when
    the stack then holds more than [limit] entries, the bottom one (the head
    of the list) is dropped. *)
Definition push_bounded {A : Type} (limit : nat) (stack : list A) (x : A) : list A :=
  if (limit <? length (stack ++ [x]))%nat then tl (stack ++ [x]) else stack ++ [x].

(** Every character of [s] is white space. *)
Fixpoint all_space (s : string) : bool :=
  match s with
  | EmptyString => true
  | String c t => isspace c && all_space t
  end.

(** The last character of [String c s]. *)
Fixpoint last_char (c : ascii) (s : string) : ascii :=
  match s with
  | EmptyString => c
  | String c' t => last_char c' t
  end.

(** [s] neither starts nor ends with white space. *)
Definition trimmed (s : string) : bool :=
  match s with
  | EmptyString => true
  | String c t => negb (isspace c) && negb (isspace (last_char c t))
  end.

(** The last element of a list, as a list of at most one element. *)
Definition last_only {A : Type} (l : list A) : list A :=
  match rev l with
  | [] => []
  | x :: _ => [x]
  end.

(* ------------------------------------------------------------------ *)
(** ** The editor

    The OpenCV and NumPy calls whose results the source only passes along,
    the fuzzy score and the floating-point products are collaborators: the
    editor takes them as one record. *)

Inductive ColorCode :=
| COLOR_BGR2GRAY | COLOR_GRAY2BGR | COLOR_BGR2HSV | COLOR_HSV2BGR
| COLOR_BGR2YCrCb | COLOR_YCrCb2BGR.

(** [arr[:, :, c] = plane]; the plane has the array's height and width. *)
Definition set_channel (c : nat) (plane : list (list Z)) (img : Frame) : Frame :=
  match img with
  | Gray rows => Gray rows
  | Color rows =>
      Color (map (fun pr => map (fun vp => update_nth c (fun _ => fst vp) (snd vp))
                                (combine (fst pr) (snd pr)))
                 (combine plane rows))
  end.

(** The external calls the editor relies on. *)
Record Collaborators : Type := {
  (** [cv2.imencode('.jpg', img, [IMWRITE_JPEG_QUALITY, q])] as bytes, and
      [cv2.imdecode] of such a buffer. *)
  ext_imencode_jpg : Z -> Frame -> bytes;
  ext_imdecode : bytes -> Frame;
  ext_cvtColor : ColorCode -> Frame -> Frame;
  (** [cv2.GaussianBlur(img, (15, 15), 0)]. *)
  ext_GaussianBlur : Frame -> Frame;
  (** [cv2.filter2D(img, -1, kernel)] with the sharpening kernel. *)
  ext_filter2D : Frame -> Frame;
  (** [cv2.Canny(gray, 100, 200)]. *)
  ext_Canny : Frame -> Frame;
  (** [cv2.transform(img, kernel)] with the sepia matrix. *)
  ext_transform : Frame -> Frame;
  (** [cv2.equalizeHist] of a single-channel plane. *)
  ext_equalizeHist : list (list Z) -> list (list Z);
  (** [cv2.adaptiveThreshold(gray, 255, GAUSSIAN_C, BINARY, 11, 2)]. *)
  ext_adaptiveThreshold : Frame -> Frame;
  (** [scale_round v x]: [x * (v / 100.0)] rounded to the nearest integer,
      as [convertScaleAbs] computes it in floating point. *)
  ext_scale_round : Z -> Z -> Z;
  (** [scale_trunc v x]: the integer part of the single-precision product
      [x * (v / 100.0)]. *)
  ext_scale_trunc : Z -> Z -> Z;
  (** [fuzz.ratio]. *)
  ext_fuzz_ratio : string -> string -> Z
}.

(* ------------------------------------------------------------------ *)
(** ** Stand-in collaborators

    Small executable stand-ins for the external calls, used to run the
    editor on concrete sessions: a lossy codec that drops the low bit of
    every sample and keeps one row, colour conversions that pass the array
    through, and exact integer scaling. *)

Definition byte_of_Z (x : Z) : Byte.byte :=
  match Byte.of_nat (Z.to_nat (x mod 256)) with
  | Some b => b
  | None => Byte.x00
  end.

Definition Z_of_byte (b : Byte.byte) : Z := Z.of_nat (Byte.to_nat b).

Definition demo_imencode (quality : Z) (img : Frame) : bytes :=
  map (fun x => byte_of_Z (x - x mod 2)) (samples img).

Definition demo_imdecode (buffer : bytes) : Frame := Gray [map Z_of_byte buffer].

Definition demo_cvtColor (code : ColorCode) (img : Frame) : Frame := img.

Definition demo_kernel (img : Frame) : Frame := img.

Definition demo_equalizeHist (plane : list (list Z)) : list (list Z) := plane.

Definition demo_scale_round (v x : Z) : Z := (2 * x * v + 100) / 200.

Definition demo_scale_trunc (v x : Z) : Z := x * v / 100.

(** The stand-ins as one set of collaborators, scoring with the reference
    fuzzy score. *)
Definition demo : Collaborators :=
  {| ext_imencode_jpg := demo_imencode;
     ext_imdecode := demo_imdecode;
     ext_cvtColor := demo_cvtColor;
     ext_GaussianBlur := demo_kernel;
     ext_filter2D := demo_kernel;
     ext_Canny := demo_kernel;
     ext_transform := demo_kernel;
     ext_equalizeHist := demo_equalizeHist;
     ext_adaptiveThreshold := demo_kernel;
     ext_scale_round := demo_scale_round;
     ext_scale_trunc := demo_scale_trunc;
     ext_fuzz_ratio := indel_ratio |}.

(** The stand-ins with another score in place of the reference one. *)
Definition scoring_with (score : string -> string -> Z) : Collaborators :=
  {| ext_imencode_jpg := demo_imencode;
     ext_imdecode := demo_imdecode;
     ext_cvtColor := demo_cvtColor;
     ext_GaussianBlur := demo_kernel;
     ext_filter2D := demo_kernel;
     ext_Canny := demo_kernel;
     ext_transform := demo_kernel;
     ext_equalizeHist := demo_equalizeHist;
     ext_adaptiveThreshold := demo_kernel;
     ext_scale_round := demo_scale_round;
     ext_scale_trunc := demo_scale_trunc;
     ext_fuzz_ratio := score |}.

(* ------------------------------------------------------------------ *)
(** ** Recent files and dropped files *)

Definition max_recent_files : nat := 10.

(** The update of [recent_files] at the end of a successful load:
    [if path not in recent_files: insert(0, path)] and then
    [recent_files = recent_files[:max_recent_files]]. *)
Definition remember_recent (recent_files : list string) (path : string)
    : list string :=
  if existsb (String.eqb path) recent_files then recent_files
  else firstn max_recent_files (path :: recent_files).

(** What writes to [recent_files]: a successful load and the menu entry
    "Clear Recent". *)
Inductive RecentEvent : Type :=
| Loaded (path : string)
| ClearRecent.

Definition recent_step (recent_files : list string) (e : RecentEvent)
    : list string :=
  match e with
  | Loaded path => remember_recent recent_files path
  | ClearRecent => []
  end.

Definition recent_run (events : list RecentEvent) (recent_files : list string)
    : list string :=
  fold_left recent_step events recent_files.

(** [str.endswith]. *)
Definition endswith (s suffix : string) : bool :=
  let n := String.length s in
  let m := String.length suffix in
  (m <=? n)%nat && String.eqb (substring (n - m) m s) suffix.

Definition image_suffixes : list string :=
  [".png"; ".jpg"; ".jpeg"; ".bmp"; ".webp"; ".tiff"; ".gif"]%string.

(** [path.lower().endswith((...))]. *)
Definition is_image_path (path : string) : bool :=
  existsb (endswith (lower path)) image_suffixes.

Record Url : Type := mkUrl {
  isLocalFile : bool;
  toLocalFile : string
}.

Definition droppable (url : Url) : bool :=
  isLocalFile url && is_image_path (toLocalFile url).

(** [dropEvent]: the path handed to [_load_image_from_path], if any; the
    loop returns after the first one. *)
Fixpoint dropEvent (urls : list Url) : option string :=
  match urls with
  | [] => None
  | url :: rest =>
      if droppable url then Some (toLocalFile url) else dropEvent rest
  end.

(* ------------------------------------------------------------------ *)
(** ** Spoken parameter phrases *)

(** The decimal numeral of an integer, as a transcript shows it. *)
Definition decimal (n : Z) : string :=
  DecimalString.NilZero.string_of_int (Z.to_int n).

(** [<word> by <n>] or [<word> <n>]. *)
Definition spoken (word : string) (with_by : bool) (n : Z) : string :=
  (word ++ (if with_by then " by " else " ") ++ decimal n)%string.

Fixpoint zrange (lo : Z) (len : nat) : list Z :=
  match len with
  | O => []
  | S k => lo :: zrange (lo + 1) k
  end.

Definition Action_eqb (a b : Action) : bool :=
  match a, b with
  | Keyword x, Keyword y => String.eqb x y
  | Brightness x, Brightness y => x =? y
  | Contrast x, Contrast y => x =? y
  | Saturation x, Saturation y => x =? y
  | Hue x, Hue y => x =? y
  | _, _ => false
  end.

(** Over the integers [lo], ..., [lo + len - 1], both [<word> by <n>] and
    [<word> <n>] are interpreted as [expected n]. *)
Definition phrases_give (score : string -> string -> Z) (word : string)
    (with_by : bool) (expected : Z -> Action) (lo : Z) (len : nat) : bool :=
  forallb (fun n =>
             match interpret score (lower (strip (spoken word with_by n))) with
             | Some a => Action_eqb a (expected n)
             | None => false
             end)
          (zrange lo len).

(* ------------------------------------------------------------------ *)
(** ** Shapes of frames *)

(** [h] rows of [w] pixels each. *)
Definition rectangular {A : Type} (h w : nat) (rows : list (list A)) : Prop :=
  length rows = h /\ Forall (fun r => length r = w) rows.

(** [img.shape[:2] == (h, w)]. *)
Definition has_shape (h w : nat) (img : Frame) : Prop :=
  match img with
  | Gray rows => rectangular h w rows
  | Color rows => rectangular h w rows
  end.

Definition zip_cons {A : Type} (r : list A) (cols : list (list A)) : list (list A) :=
  map (fun p => fst p :: snd p) (combine r cols).

Definition zip_snoc {A : Type} (cols : list (list A)) (r : list A) : list (list A) :=
  map (fun p => fst p ++ [snd p]) (combine cols r).

(** The columns of rows of width [w]: [transpose] with the width given, so
    that no rows at all have [w] empty columns. *)
Fixpoint columns {A : Type} (w : nat) (rows : list (list A)) : list (list A) :=
  match rows with
  | [] => repeat [] w
  | r :: rs => zip_cons r (columns w rs)
  end.

(** [score] gives 100 to every keyword against itself and less than 100
    to every other keyword. *)
Definition keys_separated (score : string -> string -> Z) : bool :=
  forallb (fun key =>
             (score key key =? 100) &&
             forallb (fun k => String.eqb k key || (score key k <? 100)) command_keys)
          command_keys.

Section Editor.

Variable ext : Collaborators.

Local Abbreviation imencode_jpg := (ext_imencode_jpg ext).
Local Abbreviation imdecode := (ext_imdecode ext).
Local Abbreviation cvtColor := (ext_cvtColor ext).
Local Abbreviation GaussianBlur := (ext_GaussianBlur ext).
Local Abbreviation filter2D := (ext_filter2D ext).
Local Abbreviation Canny := (ext_Canny ext).
Local Abbreviation transform := (ext_transform ext).
Local Abbreviation equalizeHist := (ext_equalizeHist ext).
Local Abbreviation adaptiveThreshold := (ext_adaptiveThreshold ext).
Local Abbreviation scale_round := (ext_scale_round ext).
Local Abbreviation scale_trunc := (ext_scale_trunc ext).
Local Abbreviation fuzz_ratio := (ext_fuzz_ratio ext).

Definition compress_image (img : Frame) : bytes := imencode_jpg 90 img.
Definition decompress_image (buffer : bytes) : Frame := imdecode buffer.

(** *** Undo / redo *)

Definition save_image_state (s : MainWindow) : MainWindow :=
  match current_image s with
  | None => s
  | Some img =>
      let compressed := compress_image img in
      let stack := undo_stack s ++ [compressed] in
      let stack :=
        if (max_stack_size <? length stack)%nat then list_pop0 stack else stack in
      set_has_unsaved_changes true (set_redo_stack [] (set_undo_stack stack s))
  end.

(** With an empty stack nothing happens.  [compress_image] of a missing
    image raises before any field is written, which leaves the state as it
    was. *)
Definition undo (s : MainWindow) : MainWindow :=
  match list_pop (undo_stack s) with
  | None => s
  | Some (rest, top) =>
      match current_image s with
      | None => s
      | Some img =>
          let s1 := set_redo_stack (redo_stack s ++ [compress_image img]) s in
          set_current_image (Some (decompress_image top)) (set_undo_stack rest s1)
      end
  end.

Definition redo (s : MainWindow) : MainWindow :=
  match list_pop (redo_stack s) with
  | None => s
  | Some (rest, top) =>
      match current_image s with
      | None => s
      | Some img =>
          let s1 := set_undo_stack (undo_stack s ++ [compress_image img]) s in
          set_current_image (Some (decompress_image top)) (set_redo_stack rest s1)
      end
  end.

(** *** Filters and transforms

    Each one is [if not self._check_image(): return], then
    [self.save_image_state()], then an assignment to [current_image]. *)

Definition saved_edit (f : Frame -> Frame) (s : MainWindow) : MainWindow :=
  match current_image s with
  | None => s
  | Some img => set_current_image (Some (f img)) (save_image_state s)
  end.

Definition to_gray (img : Frame) : Frame :=
  if ndim img =? 3 then cvtColor COLOR_BGR2GRAY img else img.

Definition apply_grayscale : MainWindow -> MainWindow := saved_edit to_gray.
Definition apply_blur : MainWindow -> MainWindow := saved_edit GaussianBlur.
Definition apply_sharpen : MainWindow -> MainWindow := saved_edit filter2D.

Definition apply_edge_detection : MainWindow -> MainWindow :=
  saved_edit (fun img => Canny (to_gray img)).

Definition apply_sepia : MainWindow -> MainWindow :=
  saved_edit (fun img =>
    let img := if ndim img =? 2 then cvtColor COLOR_GRAY2BGR img else img in
    map_samples (fun x => wrap_uint8 (Z.max 0 (Z.min 255 x))) (transform img)).

Definition apply_invert : MainWindow -> MainWindow := saved_edit bitwise_not.

Definition apply_histogram_equalization : MainWindow -> MainWindow :=
  saved_edit (fun img =>
    if ndim img =? 3 then
      let ycrcb := cvtColor COLOR_BGR2YCrCb img in
      let ycrcb := set_channel 0 (equalizeHist (channel 0 ycrcb)) ycrcb in
      cvtColor COLOR_YCrCb2BGR ycrcb
    else Gray (equalizeHist (channel 0 img))).

Definition apply_adaptive_thresholding : MainWindow -> MainWindow :=
  saved_edit (fun img => adaptiveThreshold (to_gray img)).

Definition rotate_left : MainWindow -> MainWindow :=
  saved_edit (rotate ROTATE_90_COUNTERCLOCKWISE).
Definition rotate_right : MainWindow -> MainWindow :=
  saved_edit (rotate ROTATE_90_CLOCKWISE).
Definition flip_horizontal : MainWindow -> MainWindow := saved_edit (flip 1).
Definition flip_vertical : MainWindow -> MainWindow := saved_edit (flip 0).

(** [reset_image] is guarded by [original_image], not by [_check_image]. *)
Definition reset_image (s : MainWindow) : MainWindow :=
  match original_image s with
  | None => s
  | Some orig => set_current_image (Some orig) (save_image_state s)
  end.

(** *** Adjustments (slider slots) *)

Definition apply_brightness (value : Z) (s : MainWindow) : MainWindow :=
  match current_image s with
  | None => s
  | Some img =>
      let base := match brightness_base s with Some b => b | None => img end in
      let v := clamp value (-100) 100 in
      set_current_image (Some (convertScaleAbs (fun x => x) v base))
        (set_brightness_base (Some base) s)
  end.

Definition apply_contrast (value : Z) (s : MainWindow) : MainWindow :=
  match current_image s with
  | None => s
  | Some img =>
      let base := match contrast_base s with Some b => b | None => img end in
      let v := clamp value 0 200 in
      set_current_image (Some (convertScaleAbs (scale_round v) 0 base))
        (set_contrast_base (Some base) s)
  end.

(** The HSV array handed to [COLOR_HSV2BGR] by [apply_saturation]:
    channel 1 scaled in single precision, clipped to [0,255] and truncated
    by [astype(np.uint8)]. *)
Definition saturation_hsv (value : Z) (img : Frame) : Frame :=
  let v := clamp value 0 200 in
  let img := if ndim img =? 2 then cvtColor COLOR_GRAY2BGR img else img in
  let hsv := cvtColor COLOR_BGR2HSV img in
  map_channel 1 (fun x => wrap_uint8 (Z.max 0 (Z.min 255 (scale_trunc v x)))) hsv.

Definition apply_saturation (value : Z) (s : MainWindow) : MainWindow :=
  match current_image s with
  | None => s
  | Some img =>
      set_current_image (Some (cvtColor COLOR_HSV2BGR (saturation_hsv value img))) s
  end.

(** The HSV array handed to [COLOR_HSV2BGR] by [apply_hue]: computed on
    [int16] copies, [hsv[:, :, 0] = (hsv[:, :, 0] + v) % 180], then cast
    back to [uint8]. *)
Definition hue_hsv (value : Z) (img : Frame) : Frame :=
  let v := clamp value (-180) 180 in
  let img := if ndim img =? 2 then cvtColor COLOR_GRAY2BGR img else img in
  let hsv := map_samples wrap_int16 (cvtColor COLOR_BGR2HSV img) in
  let hsv := map_channel 0 (fun h => wrap_int16 (wrap_int16 (h + v) mod 180)) hsv in
  map_samples wrap_uint8 hsv.

Definition apply_hue (value : Z) (s : MainWindow) : MainWindow :=
  match current_image s with
  | None => s
  | Some img =>
      set_current_image (Some (cvtColor COLOR_HSV2BGR (hue_hsv value img))) s
  end.

(** *** Sliders

    [QSlider.setValue] bounds the value to the slider's range and emits
    [valueChanged] (which runs the connected slot) only when the value
    changes.  The binding takes a C [int]: a Python integer outside that
    range is refused with an exception and nothing changes. *)

Definition fits_c_int (n : Z) : bool := (- 2 ^ 31 <=? n) && (n <? 2 ^ 31).

Definition slider_setValue (lo hi : Z) (get : MainWindow -> Z)
    (set : Z -> MainWindow -> MainWindow) (slot : Z -> MainWindow -> MainWindow)
    (value : Z) (s : MainWindow) : MainWindow :=
  if fits_c_int value then
    let v := clamp value lo hi in
    if v =? get s then s else slot v (set v s)
  else s.

Definition brightness_slider_setValue : Z -> MainWindow -> MainWindow :=
  slider_setValue (-100) 100 brightness_slider set_brightness_slider apply_brightness.
Definition contrast_slider_setValue : Z -> MainWindow -> MainWindow :=
  slider_setValue 0 200 contrast_slider set_contrast_slider apply_contrast.
Definition saturation_slider_setValue : Z -> MainWindow -> MainWindow :=
  slider_setValue 0 200 saturation_slider set_saturation_slider apply_saturation.
Definition hue_slider_setValue : Z -> MainWindow -> MainWindow :=
  slider_setValue (-180) 180 hue_slider set_hue_slider apply_hue.

Definition apply_saturation_default (s : MainWindow) : MainWindow :=
  saturation_slider_setValue 150 s.

Definition reset_adjustments (s : MainWindow) : MainWindow :=
  let s := brightness_slider_setValue 0 s in
  let s := contrast_slider_setValue 100 s in
  let s := saturation_slider_setValue 100 s in
  let s := hue_slider_setValue 0 s in
  set_contrast_base None (set_brightness_base None s).

(** *** Files

    [_load_image_from_path]: [img] is what [cv2.imread] and the resize to
    at most 2048 pixels produced, [None] when the file is missing or cannot
    be decoded. *)
Definition _load_image_from_path (img : option Frame) (s : MainWindow) : MainWindow :=
  match img with
  | None => s
  | Some img =>
      let s := set_original_image (Some img) (set_current_image (Some img) s) in
      set_has_unsaved_changes false (set_redo_stack [] (set_undo_stack [] s))
  end.

(** [save_image_dialog]: [written] says that a file name was chosen and
    [cv2.imwrite] succeeded. *)
Definition save_image_dialog (written : bool) (s : MainWindow) : MainWindow :=
  match current_image s with
  | None => s
  | Some _ => if written then set_has_unsaved_changes false s else s
  end.

(** *** Voice commands *)

(** Zooming, the help dialog and closing the window do not touch the
    modelled fields. *)
Definition call (m : Method) : MainWindow -> MainWindow :=
  match m with
  | M_apply_grayscale => apply_grayscale
  | M_apply_blur => apply_blur
  | M_apply_sharpen => apply_sharpen
  | M_apply_edge_detection => apply_edge_detection
  | M_apply_sepia => apply_sepia
  | M_apply_invert => apply_invert
  | M_apply_histogram_equalization => apply_histogram_equalization
  | M_apply_adaptive_thresholding => apply_adaptive_thresholding
  | M_apply_saturation_default => apply_saturation_default
  | M_rotate_left => rotate_left
  | M_rotate_right => rotate_right
  | M_flip_horizontal => flip_horizontal
  | M_flip_vertical => flip_vertical
  | M_undo => undo
  | M_redo => redo
  | M_reset_image => reset_image
  | M_zoom_in | M_zoom_out | M_reset_zoom | M_fit_to_window
  | M_show_help | M_close => fun s => s
  end.

Definition perform (a : Action) (s : MainWindow) : MainWindow :=
  match a with
  | Keyword key =>
      match commands_get key commands with
      | Some m => call m s
      | None => s
      end
  | Brightness n => brightness_slider_setValue n s
  | Contrast n => contrast_slider_setValue n s
  | Saturation n => saturation_slider_setValue n s
  | Hue n => hue_slider_setValue n s
  end.

Definition log_command (command : string) (s : MainWindow) : MainWindow :=
  let h := command_history s ++ [command] in
  let h := if (max_history_size <? length h)%nat then list_pop0 h else h in
  set_command_history h s.

Definition handle_command (command : string) (s : MainWindow) : MainWindow :=
  let cmd := lower (strip command) in
  let s := log_command command s in
  match interpret fuzz_ratio cmd with
  | Some a => perform a s
  | None => s
  end.

(** *** Sessions

    What the user can do to the window, and the states a session reaches
    from the freshly built window. *)
Inductive Event : Type :=
| Load (img : option Frame)
| SaveDialog (written : bool)
| Invoke (m : Method)
| MoveBrightness (value : Z)
| MoveContrast (value : Z)
| MoveSaturation (value : Z)
| MoveHue (value : Z)
| ResetAdjustments
| Say (command : string).

Definition step (s : MainWindow) (e : Event) : MainWindow :=
  match e with
  | Load img => _load_image_from_path img s
  | SaveDialog written => save_image_dialog written s
  | Invoke m => call m s
  | MoveBrightness v => brightness_slider_setValue v s
  | MoveContrast v => contrast_slider_setValue v s
  | MoveSaturation v => saturation_slider_setValue v s
  | MoveHue v => hue_slider_setValue v s
  | ResetAdjustments => reset_adjustments s
  | Say command => handle_command command s
  end.

Definition run (events : list Event) (s : MainWindow) : MainWindow :=
  fold_left step events s.

Definition reachable (s : MainWindow) : Prop :=
  exists events, s = run events init_window.

(** *** Vocabulary of the claims *)

(** One JPEG round trip: what a frame looks like after it was stored in a
    history stack and restored. *)
Definition jpeg_roundtrip (img : Frame) : Frame :=
  decompress_image (compress_image img).

(** The operations that call [save_image_state]: the filters, the
    transforms and the reset to the original. *)
Definition recorded_edits : list (MainWindow -> MainWindow) :=
  [ apply_grayscale; apply_blur; apply_sharpen; apply_edge_detection;
    apply_sepia; apply_invert; apply_histogram_equalization;
    apply_adaptive_thresholding; rotate_left; rotate_right;
    flip_horizontal; flip_vertical; reset_image ].

(** [op] records before it mutates: on a session with an image, the undo
    stack receives the compressed frame that was current before [op], the
    redo stack is emptied and the session is marked dirty. *)
Definition records_before_mutation (op : MainWindow -> MainWindow) : Prop :=
  forall s img orig,
    current_image s = Some img ->
    original_image s = Some orig ->
    undo_stack (op s) =
      push_bounded max_stack_size (undo_stack s) (compress_image img) /\
    redo_stack (op s) = [] /\
    has_unsaved_changes (op s) = true.

(** [op] does not touch the history. *)
Definition leaves_history (op : MainWindow -> MainWindow) : Prop :=
  forall s,
    undo_stack (op s) = undo_stack s /\
    redo_stack (op s) = redo_stack s /\
    has_unsaved_changes (op s) = has_unsaved_changes s.

(** The bound that every operation maintains: both stacks together hold at
    most [max_stack_size] snapshots. *)
Definition history_bounded (s : MainWindow) : Prop :=
  (length (undo_stack s) + length (redo_stack s) <= max_stack_size)%nat.

Definition preserves_bound (op : MainWindow -> MainWindow) : Prop :=
  forall s, history_bounded s -> history_bounded (op s).

(** The states after each operation of a sequence, and the last of them. *)
Fixpoint trace (ops : list (MainWindow -> MainWindow)) (s : MainWindow)
    : list MainWindow :=
  match ops with
  | [] => []
  | op :: rest => op s :: trace rest (op s)
  end.

Definition apply_all (ops : list (MainWindow -> MainWindow)) (s : MainWindow)
    : MainWindow :=
  fold_left (fun s op => op s) ops s.

(** The frame on display (an empty array when no image is loaded). *)
Definition frame_of (s : MainWindow) : Frame :=
  match current_image s with
  | Some img => img
  | None => Gray []
  end.

Definition frames (states : list MainWindow) : list Frame := map frame_of states.

(** The frames that [apply_saturation] and [apply_hue] compute from the
    frame on display. *)
Definition saturated (value : Z) (img : Frame) : Frame :=
  cvtColor COLOR_HSV2BGR (saturation_hsv value img).

Definition hue_shifted (value : Z) (img : Frame) : Frame :=
  cvtColor COLOR_HSV2BGR (hue_hsv value img).

(** The frames that [apply_brightness] and [apply_contrast] compute from a
    baseline. *)
Definition brightened (value : Z) (base : Frame) : Frame :=
  convertScaleAbs (fun x => x) (clamp value (-100) 100) base.

Definition contrasted (value : Z) (base : Frame) : Frame :=
  convertScaleAbs (scale_round (clamp value 0 200)) 0 base.

(** The hue arithmetic on one HSV pixel: the offset, bounded to
    [-180,180], is added to channel 0 modulo 180. *)
Definition shift_pixel_hue (value : Z) (px : list Z) : list Z :=
  update_nth 0 (fun h => (h + clamp value (-180) 180) mod 180) px.

(** [key] is the first keyword of [keys] with the highest score, and that
    score exceeds 75. *)
Definition first_best (score : string -> Z) (keys : list string) (key : string)
    : Prop :=
  exists pre post,
    keys = pre ++ key :: post /\
    75 < score key /\
    Forall (fun k => score k < score key) pre /\
    Forall (fun k => score k <= score key) post.

(** The words of the four parameterized patterns together. *)
Definition parameter_words : list string :=
  brightness_words ++ contrast_words ++ saturation_words ++ hue_words.

(** Every slider is inside the range given to it by [setRange]. *)
Definition sliders_in_range (s : MainWindow) : Prop :=
  -100 <= brightness_slider s <= 100 /\
  0 <= contrast_slider s <= 200 /\
  0 <= saturation_slider s <= 200 /\
  -180 <= hue_slider s <= 180.

(** [closeEvent]: with unsaved changes the user is asked, and the answer
    "No" keeps the window open; otherwise the window closes.  [reply_yes]
    is the answer the dialog would give. *)
Inductive CloseOutcome : Type := CloseAccepted | CloseIgnored.

Definition closeEvent (reply_yes : bool) (s : MainWindow) : CloseOutcome :=
  if has_unsaved_changes s then
    if reply_yes then CloseAccepted else CloseIgnored
  else CloseAccepted.

(** The events that go through neither [save_image_state], a load nor a
    save: slider moves, the reset of the adjustments, undo, redo, the
    saturation boost, zooming, help and close. *)
Definition bypasses_dirty_flag (e : Event) : bool :=
  match e with
  | MoveBrightness _ | MoveContrast _ | MoveSaturation _ | MoveHue _
  | ResetAdjustments => true
  | Invoke m =>
      match m with
      | M_undo | M_redo | M_apply_saturation_default
      | M_zoom_in | M_zoom_out | M_reset_zoom | M_fit_to_window
      | M_show_help | M_close => true
      | _ => false
      end
  | _ => false
  end.

(** No image was loaded yet: nothing but the sliders and the command
    history can differ from the initial window. *)
Definition blank (s : MainWindow) : Prop :=
  current_image s = None /\ original_image s = None /\
  undo_stack s = [] /\ redo_stack s = [] /\
  brightness_base s = None /\ contrast_base s = None /\
  has_unsaved_changes s = false.

(** An image is loaded: there is a current and an original frame. *)
Definition loaded (s : MainWindow) : Prop :=
  (exists img, current_image s = Some img) /\
  (exists orig, original_image s = Some orig).

(** The image of the last successful load among [events], [acc] when
    there is none. *)
Definition last_loaded (events : list Event) (acc : option Frame) : option Frame :=
  fold_left (fun acc e =>
               match e with
               | Load (Some img) => Some img
               | _ => acc
               end) events acc.

(** A session without a current image has no original image, no history,
    no baseline and no unsaved change; a session without an original image
    has no current image. *)
Definition consistent (s : MainWindow) : Prop :=
  (current_image s = None ->
     original_image s = None /\ undo_stack s = [] /\ redo_stack s = [] /\
     brightness_base s = None /\ contrast_base s = None /\
     has_unsaved_changes s = false) /\
  (original_image s = None -> current_image s = None).

(** The events that can run [has_unsaved_changes = False]: a successful
    load and a successful save. *)
Definition clears_dirty_flag (e : Event) : bool :=
  match e with
  | Load (Some _) | SaveDialog true => true
  | _ => false
  end.

(* ------------------------------------------------------------------ *)
(** ** Properties of the history manager *)

Lemma list_pop_app : forall (A : Type) (l : list A) (x : A),
  list_pop (l ++ [x]) = Some (l, x).
Proof.
  induction l as [|a l IH]; intros x; simpl.
  - reflexivity.
  - rewrite IH. reflexivity.
Qed.

Lemma list_pop_inv : forall (A : Type) (l r : list A) (x : A),
  list_pop l = Some (r, x) -> l = r ++ [x].
Proof.
  induction l as [|a l IH]; intros r x H; simpl in H.
  - discriminate.
  - destruct (list_pop l) as [[t y]|] eqn:E.
    + inversion H; subst. simpl. f_equal. apply IH. reflexivity.
    + inversion H; subst. destruct l as [|b l]; [reflexivity|].
      simpl in E. destruct (list_pop l) as [[? ?]|]; discriminate.
Qed.

Lemma list_pop_nil : forall (A : Type) (l : list A), list_pop l = None -> l = [].
Proof.
  intros A [|a l] H; [reflexivity|]. simpl in H.
  destruct (list_pop l) as [[? ?]|]; discriminate.
Qed.

Lemma push_bounded_length : forall (A : Type) (limit : nat) (l : list A) (x : A),
  (length l <= limit)%nat -> (length (push_bounded limit l x) <= limit)%nat.
Proof.
  intros A limit l x H. unfold push_bounded.
  destruct (Nat.ltb_spec limit (length (l ++ [x]))) as [Hlt|Hge]; [|exact Hge].
  rewrite length_app in Hlt. simpl in Hlt.
  destruct l as [|a l]; simpl in *; [lia|].
  rewrite length_app. simpl. lia.
Qed.

Lemma push_bounded_full : forall (A : Type) (limit : nat) (oldest : A) (rest : list A) (x : A),
  length (oldest :: rest) = limit ->
  push_bounded limit (oldest :: rest) x = rest ++ [x].
Proof.
  intros A limit oldest rest x H. unfold push_bounded.
  destruct (Nat.ltb_spec limit (length ((oldest :: rest) ++ [x]))) as [Hlt|Hge].
  - reflexivity.
  - rewrite length_app in Hge. simpl in *. lia.
Qed.

Lemma push_bounded_room : forall (A : Type) (limit : nat) (l : list A) (x : A),
  (length l < limit)%nat -> push_bounded limit l x = l ++ [x].
Proof.
  intros A limit l x H. unfold push_bounded.
  destruct (Nat.ltb_spec limit (length (l ++ [x]))) as [Hlt|Hge]; [|reflexivity].
  rewrite length_app in Hlt. simpl in Hlt. lia.
Qed.

(** A bounded push keeps every suffix that fits: the entries it may drop
    are below the newest [limit - 1] ones. *)
Lemma push_bounded_suffix : forall (A : Type) (limit : nat) (pre top : list A) (x : A),
  (length top < limit)%nat ->
  exists pre', push_bounded limit (pre ++ top) x = pre' ++ top ++ [x].
Proof.
  intros A limit pre top x H. unfold push_bounded.
  destruct (Nat.ltb_spec limit (length ((pre ++ top) ++ [x]))) as [Hlt|Hge].
  - destruct pre as [|a pre].
    + simpl in Hlt. rewrite length_app in Hlt. simpl in Hlt. lia.
    + exists pre. simpl. rewrite <- app_assoc. reflexivity.
  - exists pre. rewrite <- app_assoc. reflexivity.
Qed.

Lemma save_image_state_loaded : forall s img,
  current_image s = Some img ->
  save_image_state s =
    set_has_unsaved_changes true
      (set_redo_stack []
        (set_undo_stack (push_bounded max_stack_size (undo_stack s) (compress_image img)) s)).
Proof.
  intros s img H. unfold save_image_state. rewrite H. reflexivity.
Qed.

Lemma saved_edit_loaded : forall f s img,
  current_image s = Some img ->
  saved_edit f s = set_current_image (Some (f img)) (save_image_state s).
Proof.
  intros f s img H. unfold saved_edit. rewrite H. reflexivity.
Qed.

Lemma saved_edit_records : forall f, records_before_mutation (saved_edit f).
Proof.
  intros f s img orig Hc _.
  rewrite (saved_edit_loaded f s img Hc), (save_image_state_loaded s img Hc).
  simpl. repeat split.
Qed.

Lemma reset_image_records : records_before_mutation reset_image.
Proof.
  intros s img orig Hc Ho. unfold reset_image. rewrite Ho.
  rewrite (save_image_state_loaded s img Hc). simpl. repeat split.
Qed.

Lemma recorded_edits_record : Forall records_before_mutation recorded_edits.
Proof.
  unfold recorded_edits.
  repeat (apply Forall_cons; [first [apply saved_edit_records | apply reset_image_records]|]).
  apply Forall_nil.
Qed.

Lemma apply_brightness_leaves_history : forall v, leaves_history (apply_brightness v).
Proof.
  intros v s. unfold apply_brightness.
  destruct (current_image s); simpl; repeat split.
Qed.

Lemma apply_contrast_leaves_history : forall v, leaves_history (apply_contrast v).
Proof.
  intros v s. unfold apply_contrast.
  destruct (current_image s); simpl; repeat split.
Qed.

Lemma apply_saturation_leaves_history : forall v, leaves_history (apply_saturation v).
Proof.
  intros v s. unfold apply_saturation.
  destruct (current_image s); simpl; repeat split.
Qed.

Lemma apply_hue_leaves_history : forall v, leaves_history (apply_hue v).
Proof.
  intros v s. unfold apply_hue.
  destruct (current_image s); simpl; repeat split.
Qed.

Lemma slider_setValue_leaves_history :
  forall lo hi get set slot value,
    (forall v, leaves_history (set v)) ->
    (forall v, leaves_history (slot v)) ->
    leaves_history (slider_setValue lo hi get set slot value).
Proof.
  intros lo hi get set slot value Hset Hslot s. unfold slider_setValue.
  destruct (fits_c_int value); [|repeat split].
  destruct (clamp value lo hi =? get s); [repeat split|].
  destruct (Hslot (clamp value lo hi) (set (clamp value lo hi) s)) as (H1 & H2 & H3).
  destruct (Hset (clamp value lo hi) s) as (H4 & H5 & H6).
  rewrite H1, H2, H3, H4, H5, H6. repeat split.
Qed.

Lemma sliders_leave_history : forall value,
  leaves_history (brightness_slider_setValue value) /\
  leaves_history (contrast_slider_setValue value) /\
  leaves_history (saturation_slider_setValue value) /\
  leaves_history (hue_slider_setValue value).
Proof.
  intros value.
  unfold brightness_slider_setValue, contrast_slider_setValue,
    saturation_slider_setValue, hue_slider_setValue.
  split; [|split; [|split]]; apply slider_setValue_leaves_history;
    first [ apply apply_brightness_leaves_history
          | apply apply_contrast_leaves_history
          | apply apply_saturation_leaves_history
          | apply apply_hue_leaves_history
          | intros v s; repeat split ].
Qed.

Lemma apply_saturation_default_leaves_history :
  leaves_history apply_saturation_default.
Proof. unfold apply_saturation_default. apply sliders_leave_history. Qed.

Lemma leaves_history_compose : forall f g,
  leaves_history f -> leaves_history g -> leaves_history (fun s => g (f s)).
Proof.
  intros f g Hf Hg s. destruct (Hg (f s)) as (H1 & H2 & H3).
  destruct (Hf s) as (H4 & H5 & H6).
  rewrite H1, H2, H3, H4, H5, H6. repeat split.
Qed.

Lemma reset_adjustments_leaves_history : leaves_history reset_adjustments.
Proof.
  intros s. unfold reset_adjustments.
  cbn [undo_stack redo_stack has_unsaved_changes set_contrast_base set_brightness_base].
  destruct (sliders_leave_history 0) as (Hb & _ & _ & Hh).
  destruct (sliders_leave_history 100) as (_ & Hc & Hs & _).
  exact (leaves_history_compose _ _
           (leaves_history_compose _ _ (leaves_history_compose _ _ Hb Hc) Hs) Hh s).
Qed.

Lemma snapshots_recorded : forall m,
  snapshots m = true -> In (call m) recorded_edits.
Proof.
  intros m H. unfold recorded_edits.
  destruct m; simpl in H; try discriminate; simpl;
    repeat (first [left; reflexivity | right]).
Qed.

(** C1 (as amended).  Of the 22 methods of the keyword table, the 13
    that call [save_image_state] (the filters grayscale, blur, sharpen,
    edge detection, sepia, invert, histogram equalization and adaptive
    threshold, the four transforms and the reset to the original) push the
    compressed pre-mutation frame onto the undo stack (dropping the bottom
    entry beyond 20), empty the redo stack and mark the session dirty.
    Every other method but undo and redo, in particular the saturation
    boost [apply_saturation_default] that sits among the filters, touches
    neither stack nor the dirty flag; nor do the four slider adjustments
    (brightness, contrast, saturation, hue) and [reset_adjustments],
    although they change the frame.  Undo and redo move one snapshot from
    one stack to the other and leave the dirty flag; a successful load
    empties both stacks and marks the session clean. *)
Theorem edits_record_adjustments_do_not :
  (forall m,
     (snapshots m = true -> records_before_mutation (call m)) /\
     (snapshots m = false -> m <> M_undo -> m <> M_redo ->
      leaves_history (call m))) /\
  snapshots M_apply_saturation_default = false /\
  (forall v,
     leaves_history (apply_brightness v) /\
     leaves_history (apply_contrast v) /\
     leaves_history (apply_saturation v) /\
     leaves_history (apply_hue v)) /\
  leaves_history reset_adjustments /\
  (forall s st top img,
     current_image s = Some img ->
     (undo_stack s = st ++ [top] ->
      undo_stack (undo s) = st /\
      redo_stack (undo s) = redo_stack s ++ [compress_image img] /\
      has_unsaved_changes (undo s) = has_unsaved_changes s) /\
     (redo_stack s = st ++ [top] ->
      redo_stack (redo s) = st /\
      undo_stack (redo s) = undo_stack s ++ [compress_image img] /\
      has_unsaved_changes (redo s) = has_unsaved_changes s)) /\
  (forall img s,
     undo_stack (_load_image_from_path (Some img) s) = [] /\
     redo_stack (_load_image_from_path (Some img) s) = [] /\
     has_unsaved_changes (_load_image_from_path (Some img) s) = false) /\
  Forall records_before_mutation recorded_edits.
Proof.
  split; [|split; [reflexivity|split; [|split; [|split; [|split]]]]].
  - intros m. split.
    + intros Hm. pose proof recorded_edits_record as H.
      rewrite Forall_forall in H. apply H, snapshots_recorded, Hm.
    + intros Hm Hu Hr.
      destruct m; simpl in Hm; try discriminate; try congruence;
        first [ exact apply_saturation_default_leaves_history
              | intros s; repeat split ].
  - intros v. split; [|split; [|split]];
      first [ apply apply_brightness_leaves_history
            | apply apply_contrast_leaves_history
            | apply apply_saturation_leaves_history
            | apply apply_hue_leaves_history ].
  - exact reset_adjustments_leaves_history.
  - intros s st top img Hc. split; intros Hs.
    + unfold undo. rewrite Hs, list_pop_app, Hc. repeat split.
    + unfold redo. rewrite Hs, list_pop_app, Hc. repeat split.
  - intros img s. repeat split.
  - exact recorded_edits_record.
Qed.

(** C10.  Grayscale on a frame that is already single-channel keeps the
    pixels, and still pushes a snapshot of that frame (one more entry while
    fewer than 20 are held), empties the redo stack and marks the session
    dirty. *)
Theorem grayscale_on_gray_consumes_undo_slot : forall s rows,
  current_image s = Some (Gray rows) ->
  current_image (apply_grayscale s) = Some (Gray rows) /\
  undo_stack (apply_grayscale s) =
    push_bounded max_stack_size (undo_stack s) (compress_image (Gray rows)) /\
  ((length (undo_stack s) < max_stack_size)%nat ->
     undo_stack (apply_grayscale s) = undo_stack s ++ [compress_image (Gray rows)]) /\
  redo_stack (apply_grayscale s) = [] /\
  has_unsaved_changes (apply_grayscale s) = true.
Proof.
  intros s rows Hc. unfold apply_grayscale.
  rewrite (saved_edit_loaded to_gray s (Gray rows) Hc), (save_image_state_loaded s (Gray rows) Hc).
  simpl. repeat split.
  intros Hlen. apply push_bounded_room. exact Hlen.
Qed.

(** *** The bound on the stacks *)

Lemma save_image_state_bounded : preserves_bound save_image_state.
Proof.
  intros s H. unfold save_image_state.
  destruct (current_image s) as [img|]; [|exact H].
  unfold history_bounded in *. simpl.
  fold (push_bounded max_stack_size (undo_stack s) (compress_image img)).
  rewrite Nat.add_0_r. apply push_bounded_length. lia.
Qed.

Lemma set_current_image_bounded : forall v s,
  history_bounded s -> history_bounded (set_current_image v s).
Proof. intros v s H. exact H. Qed.

Lemma saved_edit_bounded : forall f, preserves_bound (saved_edit f).
Proof.
  intros f s H. unfold saved_edit.
  destruct (current_image s); [|exact H].
  apply set_current_image_bounded, save_image_state_bounded, H.
Qed.

Lemma reset_image_bounded : preserves_bound reset_image.
Proof.
  intros s H. unfold reset_image.
  destruct (original_image s); [|exact H].
  apply set_current_image_bounded, save_image_state_bounded, H.
Qed.

Lemma undo_bounded : preserves_bound undo.
Proof.
  intros s H. unfold undo.
  destruct (list_pop (undo_stack s)) as [[rest top]|] eqn:E; [|exact H].
  destruct (current_image s); [|exact H].
  apply list_pop_inv in E. unfold history_bounded in *. simpl.
  rewrite E in H. rewrite !length_app in *. simpl in *. lia.
Qed.

Lemma redo_bounded : preserves_bound redo.
Proof.
  intros s H. unfold redo.
  destruct (list_pop (redo_stack s)) as [[rest top]|] eqn:E; [|exact H].
  destruct (current_image s); [|exact H].
  apply list_pop_inv in E. unfold history_bounded in *. simpl.
  rewrite E in H. rewrite !length_app in *. simpl in *. lia.
Qed.

Lemma leaves_history_bounded : forall op, leaves_history op -> preserves_bound op.
Proof.
  intros op L s H. destruct (L s) as (Hu & Hr & _).
  unfold history_bounded in *. rewrite Hu, Hr. exact H.
Qed.

Lemma slider_setValue_bounded : forall lo hi get set slot,
  (forall v s, history_bounded s -> history_bounded (set v s)) ->
  (forall v, preserves_bound (slot v)) ->
  forall value, preserves_bound (slider_setValue lo hi get set slot value).
Proof.
  intros lo hi get set slot Hset Hslot value s H. unfold slider_setValue.
  destruct (fits_c_int value); [|exact H].
  destruct (clamp value lo hi =? get s); [exact H|].
  apply Hslot, Hset, H.
Qed.

Lemma brightness_slider_bounded : forall v, preserves_bound (brightness_slider_setValue v).
Proof.
  intros v. apply slider_setValue_bounded.
  - intros ? ? H. exact H.
  - intros w. apply leaves_history_bounded, apply_brightness_leaves_history.
Qed.

Lemma contrast_slider_bounded : forall v, preserves_bound (contrast_slider_setValue v).
Proof.
  intros v. apply slider_setValue_bounded.
  - intros ? ? H. exact H.
  - intros w. apply leaves_history_bounded, apply_contrast_leaves_history.
Qed.

Lemma saturation_slider_bounded : forall v, preserves_bound (saturation_slider_setValue v).
Proof.
  intros v. apply slider_setValue_bounded.
  - intros ? ? H. exact H.
  - intros w. apply leaves_history_bounded, apply_saturation_leaves_history.
Qed.

Lemma hue_slider_bounded : forall v, preserves_bound (hue_slider_setValue v).
Proof.
  intros v. apply slider_setValue_bounded.
  - intros ? ? H. exact H.
  - intros w. apply leaves_history_bounded, apply_hue_leaves_history.
Qed.

Lemma reset_adjustments_bounded : preserves_bound reset_adjustments.
Proof.
  intros s H. unfold reset_adjustments.
  assert (Hfinal : history_bounded
            (hue_slider_setValue 0
              (saturation_slider_setValue 100
                (contrast_slider_setValue 100 (brightness_slider_setValue 0 s))))).
  { apply hue_slider_bounded, saturation_slider_bounded,
      contrast_slider_bounded, brightness_slider_bounded, H. }
  exact Hfinal.
Qed.

Lemma load_bounded : forall img, preserves_bound (_load_image_from_path img).
Proof.
  intros [img|] s H; [|exact H].
  unfold history_bounded. simpl. unfold max_stack_size. lia.
Qed.

Lemma save_dialog_bounded : forall written, preserves_bound (save_image_dialog written).
Proof.
  intros written s H. unfold save_image_dialog.
  destruct (current_image s); [|exact H]. destruct written; exact H.
Qed.

Lemma call_bounded : forall m, preserves_bound (call m).
Proof.
  intros m. destruct m; simpl;
    first [ apply saved_edit_bounded
          | apply undo_bounded | apply redo_bounded | apply reset_image_bounded
          | apply saturation_slider_bounded
          | (intros s H; exact H) ].
Qed.

Lemma perform_bounded : forall a, preserves_bound (perform a).
Proof.
  intros [key|n|n|n|n] s H; unfold perform.
  - destruct (commands_get key commands); [apply call_bounded, H | exact H].
  - apply brightness_slider_bounded, H.
  - apply contrast_slider_bounded, H.
  - apply saturation_slider_bounded, H.
  - apply hue_slider_bounded, H.
Qed.

Lemma handle_command_bounded : forall command, preserves_bound (handle_command command).
Proof.
  intros command s H. unfold handle_command.
  assert (Hlog : history_bounded (log_command command s)) by exact H.
  destruct (interpret fuzz_ratio (lower (strip command))); [|exact Hlog].
  apply perform_bounded, Hlog.
Qed.

Lemma step_bounded : forall e s, history_bounded s -> history_bounded (step s e).
Proof.
  intros e s H. destruct e; simpl.
  - apply load_bounded, H.
  - apply save_dialog_bounded, H.
  - apply call_bounded, H.
  - apply brightness_slider_bounded, H.
  - apply contrast_slider_bounded, H.
  - apply saturation_slider_bounded, H.
  - apply hue_slider_bounded, H.
  - apply reset_adjustments_bounded, H.
  - apply handle_command_bounded, H.
Qed.

Lemma run_bounded : forall events s, history_bounded s -> history_bounded (run events s).
Proof.
  induction events as [|e events IH]; intros s H; simpl.
  - exact H.
  - apply IH, step_bounded, H.
Qed.

Lemma reachable_bounded : forall s, reachable s -> history_bounded s.
Proof.
  intros s [events ->]. apply run_bounded.
  unfold history_bounded. simpl. unfold max_stack_size. lia.
Qed.

Lemma push_bounded_grows : forall (A : Type) (limit : nat) (l : list A) (x : A),
  (length l <= limit)%nat ->
  length (push_bounded limit l x) = Nat.min (S (length l)) limit.
Proof.
  intros A limit l x H. unfold push_bounded.
  destruct (Nat.ltb_spec limit (length (l ++ [x]))) as [Hlt|Hge].
  - rewrite length_app in Hlt. cbn [length] in Hlt.
    destruct l as [|a l]; cbn [app tl length] in *; [lia|].
    rewrite length_app. cbn [length]. lia.
  - rewrite length_app in *. cbn [length] in *. lia.
Qed.

Lemma inversions_fill_stack : forall n s f,
  current_image s = Some f ->
  (length (undo_stack s) <= 20)%nat ->
  length (undo_stack (run (repeat (Invoke M_apply_invert) n) s)) =
    Nat.min (n + length (undo_stack s)) 20.
Proof.
  induction n as [|n IH]; intros s f Hc Hlen.
  - simpl. lia.
  - change (run (repeat (Invoke M_apply_invert) (S n)) s)
      with (run (repeat (Invoke M_apply_invert) n) (apply_invert s)).
    assert (Hs : apply_invert s =
                 set_current_image (Some (bitwise_not f)) (save_image_state s))
      by (apply saved_edit_loaded; exact Hc).
    assert (Hu : undo_stack (apply_invert s) =
                 push_bounded max_stack_size (undo_stack s) (compress_image f))
      by (rewrite Hs, (save_image_state_loaded s f Hc); reflexivity).
    assert (Hl : length (undo_stack (apply_invert s)) =
                 Nat.min (S (length (undo_stack s))) 20)
      by (rewrite Hu; apply push_bounded_grows; exact Hlen).
    rewrite (IH (apply_invert s) (bitwise_not f)).
    + rewrite Hl. lia.
    + rewrite Hs. reflexivity.
    + rewrite Hl. lia.
Qed.

(** C3.  In every state a session can reach, by any interleaving of loads,
    edits, slider moves, undos, redos and voice commands, the undo stack
    holds at most 20 snapshots (indeed both stacks together do, which is why
    the unchecked push of [redo] cannot overflow it).  A recorded edit on
    fewer than 20 entries puts its snapshot on top of them; on 20 entries
    it drops the oldest one, at the bottom, and puts its snapshot on top.
    Full stacks are reached: after a load and [n] inversions the undo stack
    holds [min n 20] snapshots. *)
Theorem undo_stack_never_exceeds_20 : forall s,
  reachable s ->
  (length (undo_stack s) <= 20)%nat /\
  (length (undo_stack s) + length (redo_stack s) <= 20)%nat /\
  (length (undo_stack (redo s)) <= 20)%nat /\
  (forall img,
     current_image s = Some img ->
     ((length (undo_stack s) < 20)%nat ->
      undo_stack (save_image_state s) = undo_stack s ++ [compress_image img]) /\
     (length (undo_stack s) = 20%nat ->
      exists oldest rest,
        undo_stack s = oldest :: rest /\
        undo_stack (save_image_state s) = rest ++ [compress_image img])) /\
  (forall img n,
     reachable (run (Load (Some img) :: repeat (Invoke M_apply_invert) n) s) /\
     length (undo_stack
               (run (Load (Some img) :: repeat (Invoke M_apply_invert) n) s)) =
       Nat.min n 20).
Proof.
  intros s Hr.
  pose proof (reachable_bounded s Hr) as Hb.
  pose proof (redo_bounded s Hb) as Hb'.
  unfold history_bounded, max_stack_size in *.
  split; [lia|]. split; [lia|]. split; [lia|]. split.
  - intros img Hc. rewrite (save_image_state_loaded s img Hc).
    cbn [undo_stack set_has_unsaved_changes set_redo_stack set_undo_stack].
    split.
    + intros Hlt. apply push_bounded_room. exact Hlt.
    + intros Hlen. destruct (undo_stack s) as [|oldest rest] eqn:Hs;
        [simpl in Hlen; discriminate|].
      exists oldest, rest. split; [reflexivity|].
      apply push_bounded_full. exact Hlen.
  - intros img n. split.
    + destruct Hr as [events ->].
      exists (events ++ Load (Some img) :: repeat (Invoke M_apply_invert) n).
      unfold run. rewrite fold_left_app. reflexivity.
    + change (run (Load (Some img) :: repeat (Invoke M_apply_invert) n) s)
        with (run (repeat (Invoke M_apply_invert) n)
                (_load_image_from_path (Some img) s)).
      rewrite (inversions_fill_stack n _ img); [simpl; lia|reflexivity|simpl; lia].
Qed.

(** *** Undo and redo over a run of recorded edits *)

Lemma undo_step : forall s st top img,
  undo_stack s = st ++ [top] ->
  current_image s = Some img ->
  undo s =
    set_current_image (Some (decompress_image top))
      (set_undo_stack st (set_redo_stack (redo_stack s ++ [compress_image img]) s)).
Proof.
  intros s st top img Hs Hc. unfold undo.
  rewrite Hs, list_pop_app, Hc. reflexivity.
Qed.

Lemma redo_step : forall s st top img,
  redo_stack s = st ++ [top] ->
  current_image s = Some img ->
  redo s =
    set_current_image (Some (decompress_image top))
      (set_redo_stack st (set_undo_stack (undo_stack s ++ [compress_image img]) s)).
Proof.
  intros s st top img Hs Hc. unfold redo.
  rewrite Hs, list_pop_app, Hc. reflexivity.
Qed.

Lemma last_cons_default : forall (A : Type) (l : list A) (x d : A),
  last (x :: l) d = last l x.
Proof.
  induction l as [|y l IH]; intros x d.
  - reflexivity.
  - change (last (x :: y :: l) d) with (last (y :: l) d).
    rewrite (IH y d), (IH y x). reflexivity.
Qed.

Lemma removelast_cons_cons : forall (A : Type) (x y : A) (l : list A),
  removelast (x :: y :: l) = x :: removelast (y :: l).
Proof. reflexivity. Qed.

Lemma removelast_cons_length : forall (A : Type) (l : list A) (x : A),
  length (removelast (x :: l)) = length l.
Proof.
  induction l as [|y l IH]; intros x.
  - reflexivity.
  - rewrite removelast_cons_cons. cbn [length]. rewrite IH. reflexivity.
Qed.

Lemma removelast_cons_app : forall (A : Type) (l : list A) (x y : A),
  removelast (x :: l ++ [y]) = x :: l.
Proof.
  intros A l x y. change (x :: l ++ [y]) with ((x :: l) ++ [y]).
  apply removelast_last.
Qed.

(** [n] undos on a stack whose top [n] entries are the snapshots of [B]:
    they show the round-tripped frames of [B] from the newest to the oldest,
    and move the frames they replace onto the redo stack. *)
Lemma undo_run : forall B pre s g,
  undo_stack s = pre ++ map compress_image B ->
  current_image s = Some g ->
  map current_image (trace (repeat undo (length B)) s) =
    map (fun f => Some (jpeg_roundtrip f)) (rev B) /\
  undo_stack (iter_n (length B) undo s) = pre /\
  redo_stack (iter_n (length B) undo s) =
    redo_stack s ++ map compress_image (removelast (g :: map jpeg_roundtrip (rev B))) /\
  current_image (iter_n (length B) undo s) = Some (last (map jpeg_roundtrip (rev B)) g).
Proof.
  induction B as [|b B IH] using rev_ind; intros pre s g Hs Hc.
  - simpl in *. rewrite app_nil_r in *. repeat split; assumption.
  - rewrite length_app, Nat.add_1_r, rev_unit.
    rewrite map_app, app_assoc in Hs. simpl in Hs.
    pose proof (undo_step s _ _ g Hs Hc) as Hu.
    assert (Hs' : undo_stack (undo s) = pre ++ map compress_image B)
      by (rewrite Hu; reflexivity).
    assert (Hc' : current_image (undo s) = Some (jpeg_roundtrip b))
      by (rewrite Hu; reflexivity).
    assert (Hr' : redo_stack (undo s) = redo_stack s ++ [compress_image g])
      by (rewrite Hu; reflexivity).
    destruct (IH pre (undo s) (jpeg_roundtrip b) Hs' Hc') as (IH1 & IH2 & IH3 & IH4).
    cbn [repeat trace iter_n]. rewrite !map_cons.
    repeat split.
    + rewrite IH1, Hc'. reflexivity.
    + exact IH2.
    + rewrite IH3, Hr', removelast_cons_cons, <- app_assoc. reflexivity.
    + rewrite IH4, last_cons_default. reflexivity.
Qed.

Lemma redo_run : forall B pre s g,
  redo_stack s = pre ++ map compress_image B ->
  current_image s = Some g ->
  map current_image (trace (repeat redo (length B)) s) =
    map (fun f => Some (jpeg_roundtrip f)) (rev B) /\
  redo_stack (iter_n (length B) redo s) = pre /\
  undo_stack (iter_n (length B) redo s) =
    undo_stack s ++ map compress_image (removelast (g :: map jpeg_roundtrip (rev B))) /\
  current_image (iter_n (length B) redo s) = Some (last (map jpeg_roundtrip (rev B)) g).
Proof.
  induction B as [|b B IH] using rev_ind; intros pre s g Hs Hc.
  - simpl in *. rewrite app_nil_r in *. repeat split; assumption.
  - rewrite length_app, Nat.add_1_r, rev_unit.
    rewrite map_app, app_assoc in Hs. simpl in Hs.
    pose proof (redo_step s _ _ g Hs Hc) as Hu.
    assert (Hs' : redo_stack (redo s) = pre ++ map compress_image B)
      by (rewrite Hu; reflexivity).
    assert (Hc' : current_image (redo s) = Some (jpeg_roundtrip b))
      by (rewrite Hu; reflexivity).
    assert (Hr' : undo_stack (redo s) = undo_stack s ++ [compress_image g])
      by (rewrite Hu; reflexivity).
    destruct (IH pre (redo s) (jpeg_roundtrip b) Hs' Hc') as (IH1 & IH2 & IH3 & IH4).
    cbn [repeat trace iter_n]. rewrite !map_cons.
    repeat split.
    + rewrite IH1, Hc'. reflexivity.
    + exact IH2.
    + rewrite IH3, Hr', removelast_cons_cons, <- app_assoc. reflexivity.
    + rewrite IH4, last_cons_default. reflexivity.
Qed.

Lemma recorded_edit_effect : forall op s img orig,
  In op recorded_edits ->
  current_image s = Some img ->
  original_image s = Some orig ->
  exists img', op s = set_current_image (Some img') (save_image_state s).
Proof.
  intros op s img orig Hin Hc Ho. unfold recorded_edits in Hin. simpl in Hin.
  repeat (destruct Hin as [<-|Hin];
          [first [ eexists; apply (saved_edit_loaded _ s img Hc)
                 | exists orig; unfold reset_image; rewrite Ho; reflexivity ]|]).
  contradiction.
Qed.

Lemma apply_all_last : forall ops s, apply_all ops s = last (trace ops s) s.
Proof.
  induction ops as [|op ops IH]; intros s.
  - reflexivity.
  - change (apply_all (op :: ops) s) with (apply_all ops (op s)).
    cbn [trace]. rewrite last_cons_default. apply IH.
Qed.

Lemma trace_length : forall ops s, length (trace ops s) = length ops.
Proof.
  induction ops as [|op ops IH]; intros s; simpl; [reflexivity|].
  rewrite IH. reflexivity.
Qed.

(** A run of at most 20 recorded edits leaves, on top of the undo stack,
    the snapshots of the frames that were current before each edit. *)
Lemma edits_build_stack : forall ops s0 f0 orig top pre0,
  Forall (fun op => In op recorded_edits) ops ->
  undo_stack s0 = pre0 ++ map compress_image top ->
  (length top + length ops <= max_stack_size)%nat ->
  current_image s0 = Some f0 ->
  original_image s0 = Some orig ->
  (exists pre,
     undo_stack (apply_all ops s0) =
       pre ++ map compress_image (top ++ removelast (f0 :: frames (trace ops s0)))) /\
  current_image (apply_all ops s0) = Some (last (frames (trace ops s0)) f0) /\
  (ops <> [] -> redo_stack (apply_all ops s0) = []).
Proof.
  induction ops as [|op ops IH]; intros s0 f0 orig top pre0 Hall Hs Hlen Hc Ho.
  - simpl. rewrite app_nil_r. repeat split.
    + exists pre0. exact Hs.
    + exact Hc.
    + intros C. contradiction C. reflexivity.
  - inversion Hall as [|? ? Hin Hall']; subst.
    destruct (recorded_edit_effect op s0 f0 orig Hin Hc Ho) as [f1 Hop].
    rewrite (save_image_state_loaded s0 f0 Hc) in Hop.
    assert (Hc1 : current_image (op s0) = Some f1) by (rewrite Hop; reflexivity).
    assert (Ho1 : original_image (op s0) = Some orig) by (rewrite Hop; exact Ho).
    assert (Hr1 : redo_stack (op s0) = []) by (rewrite Hop; reflexivity).
    assert (Hs1 : exists pre1,
               undo_stack (op s0) = pre1 ++ map compress_image (top ++ [f0])).
    { rewrite Hop. simpl. rewrite Hs.
      destruct (push_bounded_suffix _ max_stack_size pre0 (map compress_image top)
                  (compress_image f0)) as [pre1 Hp].
      - rewrite length_map. simpl in Hlen. lia.
      - exists pre1. rewrite Hp, map_app. reflexivity. }
    destruct Hs1 as [pre1 Hs1].
    assert (Hlen1 : (length (top ++ [f0]) + length ops <= max_stack_size)%nat).
    { rewrite length_app. simpl in *. lia. }
    destruct (IH (op s0) f1 orig (top ++ [f0]) pre1 Hall' Hs1 Hlen1 Hc1 Ho1)
      as ((pre & Hu) & Hcur & Hredo).
    assert (Hf1 : frame_of (op s0) = f1) by (unfold frame_of; rewrite Hc1; reflexivity).
    change (apply_all (op :: ops) s0) with (apply_all ops (op s0)).
    cbn [trace frames map]. fold (frames (trace ops (op s0))). rewrite Hf1.
    repeat split.
    + exists pre. rewrite Hu, removelast_cons_cons, <- app_assoc. reflexivity.
    + rewrite Hcur, last_cons_default. reflexivity.
    + intros _. destruct ops as [|op' ops'].
      * exact Hr1.
      * apply Hredo. discriminate.
Qed.

(** C2.  After [n <= 20] recorded edits that took the session through the
    frames [f0, f1, ..., fn], [n] undos show [fn-1, ..., f0], each after one
    JPEG round trip, and [n] redos then show [f1, ..., fn]: the last after
    one round trip, the others after two; both stacks are back at the
    lengths they had after the edits (the redo stack with the same
    content). *)
Theorem undo_then_redo_restores_frames : forall ops s0 f0 orig,
  Forall (fun op => In op recorded_edits) ops ->
  (length ops <= 20)%nat ->
  current_image s0 = Some f0 ->
  original_image s0 = Some orig ->
  let n := length ops in
  let sN := apply_all ops s0 in
  let after := frames (trace ops s0) in
  let before := removelast (f0 :: after) in
  let sU := iter_n n undo sN in
  let sR := iter_n n redo sU in
  map current_image (trace (repeat undo n) sN) =
    map (fun f => Some (jpeg_roundtrip f)) (rev before) /\
  map current_image (trace (repeat redo n) sU) =
    map (fun f => Some (jpeg_roundtrip f))
        (map jpeg_roundtrip (removelast after) ++ last_only after) /\
  length (undo_stack sR) = length (undo_stack sN) /\
  redo_stack sR = redo_stack sN.
Proof.
  intros ops s0 f0 orig Hall Hlen Hc Ho n sN after before sU sR.
  destruct (edits_build_stack ops s0 f0 orig [] (undo_stack s0) Hall
              (eq_sym (app_nil_r _)) Hlen Hc Ho) as ((pre & Hu) & Hcur & _).
  simpl app in Hu. fold sN after before in Hu, Hcur.
  assert (Hn : length before = n).
  { unfold before. rewrite removelast_cons_length. unfold after, frames.
    rewrite length_map. apply trace_length. }
  destruct (undo_run before pre sN _ Hu Hcur) as (U1 & U2 & U3 & U4).
  rewrite Hn in U1, U2, U3, U4. fold sU in U2, U3, U4.
  set (moved := removelast (last after f0 :: map jpeg_roundtrip (rev before))) in *.
  assert (Hm : length moved = n).
  { unfold moved. rewrite removelast_cons_length, length_map, length_rev. exact Hn. }
  destruct (redo_run moved (redo_stack sN) sU _ U3 U4) as (R1 & R2 & R3 & _).
  rewrite Hm in R1, R2, R3. fold sR in R2, R3.
  assert (Hrev : rev moved = map jpeg_roundtrip (removelast after) ++ last_only after).
  { unfold moved, before. clear.
    destruct after as [|a l] using rev_ind.
    - reflexivity.
    - clear IHl.
      rewrite last_last, removelast_cons_app, removelast_last.
      unfold last_only. rewrite rev_unit.
      change (rev (f0 :: l)) with (rev l ++ [f0]).
      rewrite map_app. simpl map at 2.
      change (a :: map jpeg_roundtrip (rev l) ++ [jpeg_roundtrip f0])
        with ((a :: map jpeg_roundtrip (rev l)) ++ [jpeg_roundtrip f0]).
      rewrite removelast_last. simpl rev.
      rewrite <- map_rev, rev_involutive. reflexivity. }
  repeat split.
  - exact U1.
  - rewrite R1, Hrev. reflexivity.
  - rewrite R3, U2, Hu, !length_app, !length_map.
    rewrite removelast_cons_length, length_map, length_rev, Hm.
    f_equal. symmetry. exact Hn.
  - exact R2.
Qed.

(** *** Adjustments and their baselines *)

Lemma apply_brightness_cached : forall s img b v,
  current_image s = Some img ->
  brightness_base s = Some b ->
  apply_brightness v s = set_current_image (Some (brightened v b)) s.
Proof.
  intros s img b v Hc Hb. unfold apply_brightness. rewrite Hc, Hb.
  destruct s; simpl in *; subst; reflexivity.
Qed.

Lemma apply_brightness_first : forall s img v,
  current_image s = Some img ->
  brightness_base s = None ->
  apply_brightness v s =
    set_current_image (Some (brightened v img)) (set_brightness_base (Some img) s).
Proof.
  intros s img v Hc Hb. unfold apply_brightness. rewrite Hc, Hb. reflexivity.
Qed.

Lemma apply_contrast_cached : forall s img b v,
  current_image s = Some img ->
  contrast_base s = Some b ->
  apply_contrast v s = set_current_image (Some (contrasted v b)) s.
Proof.
  intros s img b v Hc Hb. unfold apply_contrast. rewrite Hc, Hb.
  destruct s; simpl in *; subst; reflexivity.
Qed.

Lemma apply_contrast_first : forall s img v,
  current_image s = Some img ->
  contrast_base s = None ->
  apply_contrast v s =
    set_current_image (Some (contrasted v img)) (set_contrast_base (Some img) s).
Proof.
  intros s img v Hc Hb. unfold apply_contrast. rewrite Hc, Hb. reflexivity.
Qed.

Lemma apply_brightness_twice : forall s v v',
  apply_brightness v' (apply_brightness v s) = apply_brightness v' s.
Proof.
  intros s v v'. unfold apply_brightness.
  destruct (current_image s) as [img|] eqn:Hc; simpl; [|rewrite Hc; reflexivity].
  destruct (brightness_base s); reflexivity.
Qed.

Lemma apply_contrast_twice : forall s v v',
  apply_contrast v' (apply_contrast v s) = apply_contrast v' s.
Proof.
  intros s v v'. unfold apply_contrast.
  destruct (current_image s) as [img|] eqn:Hc; simpl; [|rewrite Hc; reflexivity].
  destruct (contrast_base s); reflexivity.
Qed.

Lemma apply_saturation_loaded : forall s img v,
  current_image s = Some img ->
  apply_saturation v s = set_current_image (Some (saturated v img)) s.
Proof.
  intros s img v Hc. unfold apply_saturation. rewrite Hc. reflexivity.
Qed.

Lemma apply_hue_loaded : forall s img v,
  current_image s = Some img ->
  apply_hue v s = set_current_image (Some (hue_shifted v img)) s.
Proof.
  intros s img v Hc. unfold apply_hue. rewrite Hc. reflexivity.
Qed.

(** C4.  With a cached baseline [b], [apply_brightness v] shows the frame
    computed from [b] and [v] alone and keeps [b], so a second call with
    [v'] gives what [v'] alone gives (the same holds when the first call is
    the one that caches the baseline), and likewise for contrast with its
    own baseline; [apply_saturation] and [apply_hue] compute from the frame
    on display, so a second call works on the result of the first. *)
Theorem cached_baselines_do_not_compound : forall s img v v',
  current_image s = Some img ->
  (forall b, brightness_base s = Some b ->
     current_image (apply_brightness v s) = Some (brightened v b) /\
     brightness_base (apply_brightness v s) = Some b) /\
  apply_brightness v' (apply_brightness v s) = apply_brightness v' s /\
  (forall b, contrast_base s = Some b ->
     current_image (apply_contrast v s) = Some (contrasted v b) /\
     contrast_base (apply_contrast v s) = Some b) /\
  apply_contrast v' (apply_contrast v s) = apply_contrast v' s /\
  current_image (apply_saturation v s) = Some (saturated v img) /\
  current_image (apply_saturation v' (apply_saturation v s)) =
    Some (saturated v' (saturated v img)) /\
  current_image (apply_hue v s) = Some (hue_shifted v img) /\
  current_image (apply_hue v' (apply_hue v s)) =
    Some (hue_shifted v' (hue_shifted v img)).
Proof.
  intros s img v v' Hc.
  split; [|split; [|split; [|split]]].
  - intros b Hb. rewrite (apply_brightness_cached s img b v Hc Hb). split; [reflexivity|exact Hb].
  - apply apply_brightness_twice.
  - intros b Hb. rewrite (apply_contrast_cached s img b v Hc Hb). split; [reflexivity|exact Hb].
  - apply apply_contrast_twice.
  - rewrite (apply_saturation_loaded s img v Hc).
    rewrite (apply_saturation_loaded (set_current_image (Some (saturated v img)) s)
               (saturated v img) v' eq_refl).
    rewrite (apply_hue_loaded s img v Hc).
    rewrite (apply_hue_loaded (set_current_image (Some (hue_shifted v img)) s)
               (hue_shifted v img) v' eq_refl).
    repeat split.
Qed.

(** *** Hue and brightness arithmetic *)

Lemma clamp_bounds : forall v lo hi, lo <= hi -> lo <= clamp v lo hi <= hi.
Proof. intros v lo hi H. unfold clamp. lia. Qed.

Lemma wrap_int16_small : forall x, -32768 <= x < 32768 -> wrap_int16 x = x.
Proof.
  intros x H. unfold wrap_int16. rewrite Z.mod_small; lia.
Qed.

Lemma wrap_uint8_small : forall x, 0 <= x <= 255 -> wrap_uint8 x = x.
Proof.
  intros x H. unfold wrap_uint8. rewrite Z.mod_small; lia.
Qed.

Lemma hue_pixel_arith : forall value px,
  Forall is_uint8 px ->
  map wrap_uint8
    (update_nth 0
       (fun h => wrap_int16 (wrap_int16 (h + clamp value (-180) 180) mod 180))
       (map wrap_int16 px)) =
  shift_pixel_hue value px.
Proof.
  intros value px Hpx. unfold shift_pixel_hue.
  pose proof (clamp_bounds value (-180) 180 ltac:(lia)) as Hv.
  assert (Hrest : forall l, Forall is_uint8 l -> map wrap_uint8 (map wrap_int16 l) = l).
  { induction 1 as [|x l Hx _ IH]; simpl; [reflexivity|].
    unfold is_uint8 in Hx.
    rewrite (wrap_int16_small x), (wrap_uint8_small x), IH by lia. reflexivity. }
  destruct Hpx as [|h rest Hh Hrest']; simpl; [reflexivity|].
  unfold is_uint8 in Hh.
  rewrite (Hrest rest Hrest'). f_equal.
  rewrite (wrap_int16_small h) by lia.
  rewrite (wrap_int16_small (h + clamp value (-180) 180)) by lia.
  pose proof (Z.mod_pos_bound (h + clamp value (-180) 180) 180 ltac:(lia)) as Hm.
  rewrite wrap_int16_small by lia. apply wrap_uint8_small. lia.
Qed.

Lemma map_map_ext_Forall : forall (f g : list Z -> list Z) (P : Z -> Prop) rows,
  (forall px, Forall P px -> f px = g px) ->
  Forall P (concat (concat rows)) ->
  map (map f) rows = map (map g) rows.
Proof.
  intros f g P rows Hfg Hall.
  apply Forall_concat in Hall.
  apply map_ext_in. intros row Hrow. apply map_ext_in. intros px Hpx.
  apply Hfg.
  assert (Hin : In px (concat rows)) by (apply in_concat; exists row; split; assumption).
  rewrite Forall_forall in Hall. exact (Hall px Hin).
Qed.

(** C8 (as amended).  On the HSV array of the frame, [apply_hue] adds the
    offset, first bounded to [-180,180], to the hue channel modulo 180 and
    leaves the other channels alone; the new hue always lies in [0,179]
    (it wraps, it never saturates); on a base hue of 170 an offset of +10
    gives 0, while +190 is bounded to +180, a full turn, and gives 170. *)
Theorem hue_offset_is_clamped_then_wraps : forall value img rows,
  cvtColor COLOR_BGR2HSV
    (if ndim img =? 2 then cvtColor COLOR_GRAY2BGR img else img) = Color rows ->
  wf_frame (Color rows) ->
  hue_hsv value img = Color (map (map (shift_pixel_hue value)) rows) /\
  (forall h rest,
     shift_pixel_hue value (h :: rest) =
       (h + clamp value (-180) 180) mod 180 :: rest /\
     0 <= (h + clamp value (-180) 180) mod 180 <= 179) /\
  (forall rest, shift_pixel_hue 10 (170 :: rest) = 0 :: rest) /\
  (forall rest, shift_pixel_hue 190 (170 :: rest) = 170 :: rest).
Proof.
  intros value img rows Hhsv Hwf.
  split; [|split; [|split]].
  - unfold hue_hsv. rewrite Hhsv. simpl. f_equal.
    rewrite !map_map.
    rewrite (map_ext _ (map (fun px => map wrap_uint8
               (update_nth 0
                  (fun h => wrap_int16 (wrap_int16 (h + clamp value (-180) 180) mod 180))
                  (map wrap_int16 px))))).
    + apply (map_map_ext_Forall _ _ is_uint8).
      * intros px Hpx. apply hue_pixel_arith. exact Hpx.
      * exact Hwf.
    + intros row. rewrite !map_map. reflexivity.
  - intros h rest. split; [reflexivity|].
    pose proof (Z.mod_pos_bound (h + clamp value (-180) 180) 180 ltac:(lia)). lia.
  - intros rest. reflexivity.
  - intros rest. reflexivity.
Qed.

Lemma convertScaleAbs_offset_sample : forall v x,
  saturate_uint8 (Z.abs (x + v)) = Z.min 255 (Z.abs (x + v)).
Proof. intros v x. unfold saturate_uint8. lia. Qed.

(** On a sample whose sum with the offset is not negative, the brightness
    arithmetic is the saturating sum; below zero the sum is reflected. *)
Lemma brightness_sample_cases : forall v x,
  (0 <= x + v -> saturate_uint8 (Z.abs (x + v)) = Z.min 255 (Z.max 0 (x + v))) /\
  (x + v < 0 -> saturate_uint8 (Z.abs (x + v)) = Z.min 255 (- (x + v))).
Proof. intros v x. unfold saturate_uint8. split; lia. Qed.

Lemma brightened_samples : forall value base,
  brightened value base =
    map_samples (fun x => Z.min 255 (Z.abs (x + clamp value (-100) 100))) base.
Proof.
  intros value base. unfold brightened, convertScaleAbs.
  destruct base as [rows|rows]; simpl; f_equal.
  - apply map_ext. intros row. apply map_ext. intros x.
    apply convertScaleAbs_offset_sample.
  - apply map_ext. intros row. apply map_ext. intros px. apply map_ext. intros x.
    apply convertScaleAbs_offset_sample.
Qed.

(** *** Baselines across loads and resets *)

Lemma load_keeps_baselines : forall img s,
  brightness_base (_load_image_from_path img s) = brightness_base s /\
  contrast_base (_load_image_from_path img s) = contrast_base s.
Proof. intros [img|] s; split; reflexivity. Qed.

Lemma reset_adjustments_clears_baselines : forall s,
  brightness_base (reset_adjustments s) = None /\
  contrast_base (reset_adjustments s) = None.
Proof. intros s. split; reflexivity. Qed.

Lemma first_brightness_after_reset : forall s img v,
  current_image (reset_adjustments s) = Some img ->
  brightness_base (apply_brightness v (reset_adjustments s)) = Some img /\
  current_image (apply_brightness v (reset_adjustments s)) = Some (brightened v img).
Proof.
  intros s img v Hc.
  rewrite (apply_brightness_first (reset_adjustments s) img v Hc eq_refl).
  split; reflexivity.
Qed.

Lemma first_contrast_after_reset : forall s img v,
  current_image (reset_adjustments s) = Some img ->
  contrast_base (apply_contrast v (reset_adjustments s)) = Some img /\
  current_image (apply_contrast v (reset_adjustments s)) = Some (contrasted v img).
Proof.
  intros s img v Hc.
  rewrite (apply_contrast_first (reset_adjustments s) img v Hc eq_refl).
  split; reflexivity.
Qed.

(** After a load the stale baseline, not the new image, feeds the next
    brightness adjustment. *)
Lemma brightness_after_load_uses_old_baseline : forall s img b v,
  brightness_base s = Some b ->
  current_image (apply_brightness v (_load_image_from_path (Some img) s)) =
    Some (brightened v b).
Proof.
  intros s img b v Hb.
  rewrite (apply_brightness_cached (_load_image_from_path (Some img) s) img b v eq_refl Hb).
  reflexivity.
Qed.

(** *** The matcher finds exactly what the patterns describe *)

Lemma append_assoc : forall a b c : string,
  ((a ++ b) ++ c)%string = (a ++ (b ++ c))%string.
Proof.
  induction a as [|x a IH]; intros b c; simpl; [reflexivity|].
  rewrite IH. reflexivity.
Qed.

Lemma append_nil_r : forall a : string, (a ++ EmptyString)%string = a.
Proof.
  induction a as [|x a IH]; simpl; [reflexivity|]. rewrite IH. reflexivity.
Qed.

Lemma length_append : forall a b : string,
  String.length (a ++ b) = (String.length a + String.length b)%nat.
Proof.
  induction a as [|x a IH]; intros b; simpl; [reflexivity|].
  rewrite IH. reflexivity.
Qed.

Lemma take_append : forall w rest : string,
  take (String.length w) (w ++ rest) = w.
Proof.
  induction w as [|x w IH]; intros rest; simpl.
  - destruct rest; reflexivity.
  - rewrite IH. reflexivity.
Qed.

Lemma consumed_append : forall w rest : string, consumed (w ++ rest) rest = w.
Proof.
  intros w rest. unfold consumed. rewrite length_append.
  replace (String.length w + String.length rest - String.length rest)%nat
    with (String.length w) by lia.
  apply take_append.
Qed.

Lemma strip_prefix_spec : forall p s rest,
  strip_prefix p s = Some rest <-> s = (p ++ rest)%string.
Proof.
  induction p as [|a p IH]; intros s rest; simpl.
  - split; [intros H; inversion H; reflexivity | intros ->; reflexivity].
  - destruct s as [|b s].
    + split; discriminate.
    + destruct (Ascii.eqb_spec a b) as [->|Hne].
      * rewrite IH. split; [intros ->; reflexivity | intros H; inversion H; reflexivity].
      * split; [discriminate | intros H; inversion H; congruence].
Qed.

Lemma all_chars_nil : forall c, all_chars c EmptyString.
Proof. reflexivity. Qed.

Lemma all_chars_cons : forall c a w,
  all_chars c (String a w) <-> c a = true /\ all_chars c w.
Proof.
  intros c a w. unfold all_chars. simpl. apply andb_true_iff.
Qed.

(** A match consumes a prefix of the text. *)
Lemma matches_suffix : forall r s g rest g',
  matches r s g rest g' -> exists w, s = (w ++ rest)%string.
Proof.
  induction 1 as
    [ p s rest g Hp | c a t g Hc | a b s g rest g' _ IH | a b s g rest g' _ IH
    | a b s g s1 g1 rest g' _ IH1 _ IH2 | c s g | c a t g rest Hc _ IH
    | a s g | a s g rest g' _ IH | a s g rest g' _ IH ].
  - exists p. apply strip_prefix_spec. exact Hp.
  - exists (String a EmptyString). reflexivity.
  - exact IH.
  - exact IH.
  - destruct IH1 as [w1 ->]. destruct IH2 as [w2 ->].
    exists (w1 ++ w2)%string. rewrite append_assoc. reflexivity.
  - exists EmptyString. reflexivity.
  - destruct IH as [w ->]. exists (String a w). reflexivity.
  - exists EmptyString. reflexivity.
  - exact IH.
  - exact IH.
Qed.

Lemma match_star_sound : forall (R : Type) c s (k : string -> option R) x,
  match_star c s k = Some x ->
  exists rest, (forall g, matches (Star c) s g rest g) /\ k rest = Some x.
Proof.
  intros R c. induction s as [|a t IH]; intros k x H; simpl in H.
  - exists EmptyString. split; [intros g; constructor | exact H].
  - destruct (c a) eqn:Hc.
    + destruct (match_star c t k) as [y|] eqn:E.
      * inversion H; subst y. destruct (IH k x E) as (rest & Hm & Hk).
        exists rest. split; [|exact Hk].
        intros g. apply matches_star_step; [exact Hc | apply Hm].
      * exists (String a t). split; [intros g; constructor | exact H].
    + exists (String a t). split; [intros g; constructor | exact H].
Qed.

Lemma match_star_complete : forall (R : Type) c s (k : string -> option R),
  match_star c s k = None ->
  forall g rest g', matches (Star c) s g rest g' -> k rest = None.
Proof.
  intros R c. induction s as [|a t IH]; intros k H g rest g' Hm; simpl in H.
  - inversion Hm; subst. exact H.
  - inversion Hm; subst.
    + destruct (c a); [|exact H].
      destruct (match_star c t k); [discriminate|exact H].
    + match goal with Hc : c a = true |- _ => rewrite Hc in H end.
      destruct (match_star c t k) eqn:E; [discriminate|].
      eapply IH; eassumption.
Qed.

Lemma match_re_sound : forall (R : Type) r s g (k : string -> option string -> option R) x,
  match_re r s g k = Some x ->
  exists rest g', matches r s g rest g' /\ k rest g' = Some x.
Proof.
  intros R. induction r as [p|c|a IHa b IHb|a IHa b IHb|c|a IHa|a IHa];
    intros s g k x H; simpl in H.
  - destruct (strip_prefix p s) as [rest|] eqn:E; [|discriminate].
    exists rest, g. split; [constructor; exact E | exact H].
  - destruct s as [|a t]; [discriminate|].
    destruct (c a) eqn:Hc; [|discriminate].
    exists t, g. split; [constructor; exact Hc | exact H].
  - destruct (match_re a s g k) as [y|] eqn:E.
    + inversion H; subst y. destruct (IHa _ _ _ _ E) as (rest & g' & Hm & Hk).
      exists rest, g'. split; [apply matches_alt_l; exact Hm | exact Hk].
    + destruct (IHb _ _ _ _ H) as (rest & g' & Hm & Hk).
      exists rest, g'. split; [apply matches_alt_r; exact Hm | exact Hk].
  - destruct (IHa _ _ _ _ H) as (s1 & g1 & Hm1 & Hk1).
    destruct (IHb _ _ _ _ Hk1) as (rest & g' & Hm2 & Hk2).
    exists rest, g'. split; [eapply matches_cat; eassumption | exact Hk2].
  - destruct (match_star_sound R c s _ x H) as (rest & Hm & Hk).
    exists rest, g. split; [apply Hm | exact Hk].
  - destruct (match_re a s g k) as [y|] eqn:E.
    + inversion H; subst y. destruct (IHa _ _ _ _ E) as (rest & g' & Hm & Hk).
      exists rest, g'. split; [apply matches_opt_take; exact Hm | exact Hk].
    + exists s, g. split; [constructor | exact H].
  - destruct (IHa _ _ _ _ H) as (rest & g' & Hm & Hk).
    exists rest, (Some (consumed s rest)).
    split; [eapply matches_capture; exact Hm | exact Hk].
Qed.

Lemma match_re_complete : forall (R : Type) r s g (k : string -> option string -> option R),
  match_re r s g k = None ->
  forall rest g', matches r s g rest g' -> k rest g' = None.
Proof.
  intros R. induction r as [p|c|a IHa b IHb|a IHa b IHb|c|a IHa|a IHa];
    intros s g k H rest g' Hm; simpl in H.
  - inversion Hm; subst.
    match goal with E : strip_prefix _ _ = Some _ |- _ => rewrite E in H end.
    exact H.
  - inversion Hm; subst.
    match goal with E : c _ = true |- _ => rewrite E in H end.
    exact H.
  - destruct (match_re a s g k) eqn:E; [discriminate|].
    inversion Hm; subst; [eapply IHa | eapply IHb]; eassumption.
  - inversion Hm; subst.
    eapply IHb; [|eassumption].
    eapply (IHa _ _ _ H); eassumption.
  - assert (Hg : g' = g) by (clear -Hm; remember (Star c) as r eqn:Er;
      induction Hm; inversion Er; subst; auto).
    subst g'. eapply (match_star_complete R c s _ H). exact Hm.
  - destruct (match_re a s g k) eqn:E; [discriminate|].
    inversion Hm; subst; [exact H | eapply IHa; eassumption].
  - inversion Hm; subst.
    eapply (IHa _ _ _ H). eassumption.
Qed.

Lemma search_sound : forall r s t,
  re_search_group1 r s = Some t ->
  exists pre s0 rest g',
    s = (pre ++ s0)%string /\ matches r s0 None rest g' /\
    t = match g' with Some u => u | None => EmptyString end.
Proof.
  intros r. induction s as [|a s IH]; intros t H; simpl in H.
  - destruct (match_re r EmptyString None (fun _ g => Some g)) as [g|] eqn:E;
      [|discriminate].
    destruct (match_re_sound _ r _ _ _ _ E) as (rest & g' & Hm & Hk).
    inversion Hk; subst g'. inversion H; subst t.
    exists EmptyString, EmptyString, rest, g. repeat split. exact Hm.
  - destruct (match_re r (String a s) None (fun _ g => Some g)) as [g|] eqn:E.
    + destruct (match_re_sound _ r _ _ _ _ E) as (rest & g' & Hm & Hk).
      inversion Hk; subst g'. inversion H; subst t.
      exists EmptyString, (String a s), rest, g. repeat split. exact Hm.
    + destruct (IH t H) as (pre & s0 & rest & g' & -> & Hm & Ht).
      exists (String a pre), s0, rest, g'. repeat split; assumption.
Qed.

Lemma search_complete : forall r s,
  re_search_group1 r s = None ->
  forall pre s0 rest g', s = (pre ++ s0)%string -> ~ matches r s0 None rest g'.
Proof.
  intros r. induction s as [|a s IH]; intros H pre s0 rest g' Hs Hm; simpl in H.
  - destruct (match_re r EmptyString None (fun _ g => Some g)) as [g|] eqn:E;
      [discriminate|].
    destruct pre; [|discriminate]. simpl in Hs. subst s0.
    pose proof (match_re_complete _ r _ _ _ E rest g' Hm). discriminate.
  - destruct (match_re r (String a s) None (fun _ g => Some g)) as [g|] eqn:E;
      [discriminate|].
    destruct pre as [|b pre]; simpl in Hs.
    + subst s0. pose proof (match_re_complete _ r _ _ _ E rest g' Hm). discriminate.
    + inversion Hs; subst. exact (IH H pre s0 rest g' eq_refl Hm).
Qed.

Lemma matches_star_inv : forall c s g rest g',
  matches (Star c) s g rest g' ->
  g' = g /\ exists w, s = (w ++ rest)%string /\ all_chars c w.
Proof.
  intros c s g rest g' H. remember (Star c) as r eqn:Er.
  induction H; inversion Er; subst.
  - split; [reflexivity|]. exists EmptyString. split; [reflexivity|apply all_chars_nil].
  - destruct (IHmatches eq_refl) as (_ & w & -> & Hw).
    split; [reflexivity|]. exists (String a w). split; [reflexivity|].
    apply all_chars_cons. split; assumption.
Qed.

Lemma matches_star_intro : forall c w rest g,
  all_chars c w -> matches (Star c) (w ++ rest) g rest g.
Proof.
  intros c. induction w as [|a w IH]; intros rest g H; simpl.
  - constructor.
  - apply all_chars_cons in H. destruct H as [Ha Hw].
    apply matches_star_step; [exact Ha | apply IH; exact Hw].
Qed.

Lemma matches_opt_chars_inv : forall p s g rest g',
  matches (Opt (Chars p)) s g rest g' ->
  g' = g /\ exists w, s = (w ++ rest)%string /\ (w = EmptyString \/ w = p).
Proof.
  intros p s g rest g' H. inversion H; subst.
  - split; [reflexivity|]. exists EmptyString. split; [reflexivity|left; reflexivity].
  - match goal with Hm : matches (Chars p) _ _ _ _ |- _ => inversion Hm; subst end.
    split; [reflexivity|]. exists p. split; [|right; reflexivity].
    apply strip_prefix_spec. assumption.
Qed.

Lemma matches_opt_chars_intro : forall p w rest g,
  w = EmptyString \/ w = p -> matches (Opt (Chars p)) (w ++ rest) g rest g.
Proof.
  intros p w rest g [->| ->]; simpl.
  - constructor.
  - apply matches_opt_take. constructor. apply strip_prefix_spec. reflexivity.
Qed.

Lemma keyword_pattern_chars : forall p, keyword_pattern (Chars p) [p].
Proof.
  intros p s g rest g'. split.
  - intros H. inversion H; subst. split; [reflexivity|].
    exists p. split; [left; reflexivity|]. apply strip_prefix_spec. assumption.
  - intros (-> & kw & [<-|[]] & ->). constructor. apply strip_prefix_spec. reflexivity.
Qed.

Lemma keyword_pattern_alt : forall p q, keyword_pattern (Alt (Chars p) (Chars q)) [p; q].
Proof.
  intros p q s g rest g'. split.
  - intros H. inversion H; subst;
      match goal with Hm : matches (Chars _) _ _ _ _ |- _ => inversion Hm; subst end;
      (split; [reflexivity|]).
    + exists p. split; [left; reflexivity|]. apply strip_prefix_spec. assumption.
    + exists q. split; [right; left; reflexivity|]. apply strip_prefix_spec. assumption.
  - intros (-> & kw & [<-|[<-|[]]] & ->).
    + apply matches_alt_l. constructor. apply strip_prefix_spec. reflexivity.
    + apply matches_alt_r. constructor. apply strip_prefix_spec. reflexivity.
Qed.

(** What the parameterized patterns match at a given position. *)
Lemma param_pattern_inv : forall K kws s g rest g',
  keyword_pattern K kws ->
  matches (param_pattern K) s g rest g' ->
  exists kw w1 by_ w2 num,
    s = (kw ++ w1 ++ by_ ++ w2 ++ num ++ rest)%string /\
    In kw kws /\ all_chars isspace w1 /\
    (by_ = EmptyString \/ by_ = "by"%string) /\
    all_chars isspace w2 /\ signed_integer num /\ g' = Some num.
Proof.
  intros K kws s g rest g' HK H. unfold param_pattern in H.
  inversion H as [| | | |? ? ? ? s1 g1 ? ? HmK H1| | | | |]; subst; clear H.
  apply HK in HmK. destruct HmK as (-> & kw & Hkw & ->).
  inversion H1 as [| | | |? ? ? ? s2 g2 ? ? Hw1 H2| | | | |]; subst; clear H1.
  apply matches_star_inv in Hw1. destruct Hw1 as (-> & w1 & -> & Hw1).
  inversion H2 as [| | | |? ? ? ? s3 g3 ? ? Hby H3| | | | |]; subst; clear H2.
  apply matches_opt_chars_inv in Hby. destruct Hby as (-> & by_ & -> & Hby).
  inversion H3 as [| | | |? ? ? ? s4 g4 ? ? Hw2 H4| | | | |]; subst; clear H3.
  apply matches_star_inv in Hw2. destruct Hw2 as (-> & w2 & -> & Hw2).
  inversion H4 as [| | | | | | | | |? ? ? ? ? H5]; subst; clear H4.
  inversion H5 as [| | | |? ? ? ? s5 g5 ? ? Hsign H6| | | | |]; subst; clear H5.
  apply matches_opt_chars_inv in Hsign. destruct Hsign as (-> & sign & -> & Hsign).
  inversion H6 as [| | | |? ? ? ? s6 g6 ? ? Hd H7| | | | |]; subst; clear H6.
  inversion Hd as [|? d ? ? Hdigit| | | | | | | |]; subst; clear Hd.
  apply matches_star_inv in H7. destruct H7 as (_ & ds & -> & Hds).
  exists kw, w1, by_, w2, (sign ++ String d ds)%string.
  assert (Hshape : (sign ++ String d (ds ++ rest))%string =
                   ((sign ++ String d ds) ++ rest)%string)
    by (rewrite append_assoc; reflexivity).
  rewrite Hshape. repeat split; try assumption.
  - exists sign, (String d ds). repeat split.
    + exact Hsign.
    + discriminate.
    + apply all_chars_cons. split; assumption.
  - rewrite consumed_append. reflexivity.
Qed.

Lemma param_pattern_intro : forall K kws kw w1 by_ w2 num rest g,
  keyword_pattern K kws ->
  In kw kws -> all_chars isspace w1 ->
  (by_ = EmptyString \/ by_ = "by"%string) ->
  all_chars isspace w2 -> signed_integer num ->
  matches (param_pattern K) (kw ++ w1 ++ by_ ++ w2 ++ num ++ rest) g rest (Some num).
Proof.
  intros K kws kw w1 by_ w2 num rest g HK Hkw Hw1 Hby Hw2 (sign & ds & -> & Hsign & Hne & Hds).
  unfold param_pattern.
  eapply matches_cat; [apply HK; split; [reflexivity|exists kw; split; [exact Hkw|reflexivity]]|].
  eapply matches_cat; [apply matches_star_intro; exact Hw1|].
  eapply matches_cat; [apply matches_opt_chars_intro; exact Hby|].
  eapply matches_cat; [apply matches_star_intro; exact Hw2|].
  rewrite <- (consumed_append (sign ++ ds) rest) at 2.
  eapply matches_capture.
  rewrite append_assoc.
  eapply matches_cat; [apply matches_opt_chars_intro; exact Hsign|].
  destruct ds as [|d ds]; [contradiction Hne; reflexivity|].
  apply all_chars_cons in Hds. destruct Hds as [Hd Hds]. simpl.
  eapply matches_cat; [constructor; exact Hd|].
  apply matches_star_intro. exact Hds.
Qed.

Lemma digits_value_all : forall ds acc,
  all_chars isdigit ds -> exists n, digits_value ds acc = Some n.
Proof.
  induction ds as [|d ds IH]; intros acc H; simpl.
  - exists acc. reflexivity.
  - apply all_chars_cons in H. destruct H as [Hd Hds].
    rewrite Hd. apply IH. exact Hds.
Qed.

Lemma py_int_signed : forall num,
  signed_integer num -> exists n, py_int num = Some n.
Proof.
  intros num (sign & ds & -> & Hsign & Hne & Hds).
  destruct ds as [|d ds]; [contradiction Hne; reflexivity|].
  destruct Hsign as [->| ->]; simpl.
  - destruct (Ascii.eqb_spec d "-") as [->|_].
    + apply all_chars_cons in Hds. destruct Hds as [Hd _]. discriminate Hd.
    + apply (digits_value_all (String d ds) 0 Hds).
  - destruct (digits_value_all (String d ds) 0 Hds) as [n Hn].
    exists (- n). simpl in Hn. rewrite Hn. reflexivity.
Qed.

Lemma param_search_sound : forall K kws cmd num,
  keyword_pattern K kws ->
  re_search_group1 (param_pattern K) cmd = Some num ->
  names_parameter kws cmd num.
Proof.
  intros K kws cmd num HK H.
  destruct (search_sound _ _ _ H) as (pre & s0 & rest & g' & -> & Hm & Ht).
  destruct (param_pattern_inv K kws s0 None rest g' HK Hm)
    as (kw & w1 & by_ & w2 & num' & -> & Hkw & Hw1 & Hby & Hw2 & Hnum & ->).
  subst num. exists pre, kw, w1, by_, w2, rest. repeat split; assumption.
Qed.

Lemma param_search_complete : forall K kws cmd num,
  keyword_pattern K kws ->
  names_parameter kws cmd num ->
  exists num', re_search_group1 (param_pattern K) cmd = Some num'.
Proof.
  intros K kws cmd num HK (pre & kw & w1 & by_ & w2 & post & -> & Hkw & Hw1 & Hby & Hw2 & Hnum).
  destruct (re_search_group1 (param_pattern K)
              (pre ++ kw ++ w1 ++ by_ ++ w2 ++ num ++ post)) as [num'|] eqn:E.
  - exists num'. reflexivity.
  - exfalso.
    apply (search_complete _ _ E pre (kw ++ w1 ++ by_ ++ w2 ++ num ++ post)%string
             post (Some num) eq_refl).
    apply (param_pattern_intro K kws); assumption.
Qed.

Lemma param_pattern_finds : forall K kws,
  keyword_pattern K kws -> pattern_finds (param_pattern K) kws.
Proof.
  intros K kws HK cmd. unfold search_int. split.
  - intros n H.
    destruct (re_search_group1 (param_pattern K) cmd) as [num|] eqn:E; [|discriminate].
    exists num. split; [apply (param_search_sound K kws cmd num HK E) | exact H].
  - split.
    + intros H num Hn.
      destruct (param_search_complete K kws cmd num HK Hn) as [num' E].
      rewrite E in H.
      destruct (py_int_signed num') as [n Hpy].
      * pose proof (param_search_sound K kws cmd num' HK E)
          as (? & ? & ? & ? & ? & ? & _ & _ & _ & _ & _ & Hs). exact Hs.
      * rewrite Hpy in H. discriminate.
    + intros H.
      destruct (re_search_group1 (param_pattern K) cmd) as [num|] eqn:E; [|reflexivity].
      exfalso. apply (H num). apply (param_search_sound K kws cmd num HK E).
Qed.

Lemma patterns_find_their_words :
  pattern_finds re_brightness brightness_words /\
  pattern_finds re_contrast contrast_words /\
  pattern_finds re_saturation saturation_words /\
  pattern_finds re_hue hue_words.
Proof.
  repeat split; apply param_pattern_finds;
    first [apply keyword_pattern_alt | apply keyword_pattern_chars].
Qed.

(** *** The interpreter *)

Lemma best_match_loop_skips : forall cmd keys bm bs,
  Forall (fun k => fuzz_ratio cmd k <= 75 \/ fuzz_ratio cmd k <= bs) keys ->
  best_match_loop fuzz_ratio cmd keys bm bs = (bm, bs).
Proof.
  induction keys as [|k keys IH]; intros bm bs H; simpl.
  - reflexivity.
  - inversion H as [|? ? Hk Hrest]; subst.
    replace ((75 <? fuzz_ratio cmd k) && (bs <? fuzz_ratio cmd k)) with false.
    + apply IH. exact Hrest.
    + symmetry. apply andb_false_iff.
      destruct Hk; [left|right]; apply Z.ltb_ge; assumption.
Qed.

Lemma best_match_loop_takes : forall cmd pre key post bm bs,
  Forall (fun k => fuzz_ratio cmd k < fuzz_ratio cmd key) pre ->
  75 < fuzz_ratio cmd key ->
  bs < fuzz_ratio cmd key ->
  Forall (fun k => fuzz_ratio cmd k <= fuzz_ratio cmd key) post ->
  best_match_loop fuzz_ratio cmd (pre ++ key :: post) bm bs =
    (Some key, fuzz_ratio cmd key).
Proof.
  induction pre as [|k pre IH]; intros key post bm bs Hpre H75 Hbs Hpost; simpl.
  - replace ((75 <? fuzz_ratio cmd key) && (bs <? fuzz_ratio cmd key)) with true.
    + apply best_match_loop_skips.
      eapply Forall_impl; [|exact Hpost]. intros a Ha. right. exact Ha.
    + symmetry. apply andb_true_iff. split; apply Z.ltb_lt; assumption.
  - inversion Hpre as [|? ? Hk Hpre']; subst.
    destruct ((75 <? fuzz_ratio cmd k) && (bs <? fuzz_ratio cmd k)).
    + apply IH; assumption.
    + apply IH; assumption.
Qed.

Lemma best_match_loop_inv : forall cmd keys bm bs r sc,
  best_match_loop fuzz_ratio cmd keys bm bs = (r, sc) ->
  (r = bm /\ sc = bs /\
   Forall (fun k => fuzz_ratio cmd k <= 75 \/ fuzz_ratio cmd k <= bs) keys) \/
  (exists pre key post,
     keys = pre ++ key :: post /\ r = Some key /\ sc = fuzz_ratio cmd key /\
     75 < fuzz_ratio cmd key /\ bs < fuzz_ratio cmd key /\
     Forall (fun k => fuzz_ratio cmd k < fuzz_ratio cmd key) pre /\
     Forall (fun k => fuzz_ratio cmd k <= fuzz_ratio cmd key) post).
Proof.
  induction keys as [|k keys IH]; intros bm bs r sc H; simpl in H.
  - inversion H; subst. left. repeat split. constructor.
  - destruct ((75 <? fuzz_ratio cmd k) && (bs <? fuzz_ratio cmd k)) eqn:T.
    + apply andb_true_iff in T. destruct T as [T1 T2].
      apply Z.ltb_lt in T1. apply Z.ltb_lt in T2.
      destruct (IH _ _ _ _ H) as [(-> & -> & Hall)|(pre & key & post & -> & -> & -> & H75 & Hbs & Hpre & Hpost)].
      * right. exists [], k, keys. repeat split; try assumption; try constructor.
        eapply Forall_impl; [|exact Hall]. intros a [Ha|Ha]; lia.
      * right. exists (k :: pre), key, post.
        repeat split; try assumption; try lia. constructor; assumption.
    + apply andb_false_iff in T.
      assert (Hk : fuzz_ratio cmd k <= 75 \/ fuzz_ratio cmd k <= bs).
      { destruct T as [T|T]; apply Z.ltb_ge in T; [left|right]; exact T. }
      destruct (IH _ _ _ _ H) as [(-> & -> & Hall)|(pre & key & post & -> & -> & -> & H75 & Hbs & Hpre & Hpost)].
      * left. repeat split. constructor; assumption.
      * right. exists (k :: pre), key, post.
        repeat split; try assumption. constructor; [lia|assumption].
Qed.

Lemma fuzzy_match_some_iff : forall cmd key,
  fuzzy_match fuzz_ratio cmd = Some key <->
  first_best (fuzz_ratio cmd) command_keys key.
Proof.
  intros cmd key. unfold fuzzy_match. split.
  - intros H.
    destruct (best_match_loop fuzz_ratio cmd command_keys None 0) as [r sc] eqn:E.
    simpl in H. subst r.
    destruct (best_match_loop_inv _ _ _ _ _ _ E)
      as [(Hr & _)|(pre & k & post & Hk & Hr & _ & H75 & _ & Hpre & Hpost)].
    + discriminate.
    + inversion Hr; subst k. exists pre, post. repeat split; assumption.
  - intros (pre & post & Hk & H75 & Hpre & Hpost).
    rewrite Hk, (best_match_loop_takes cmd pre key post None 0 Hpre H75 ltac:(lia) Hpost).
    reflexivity.
Qed.

Lemma fuzzy_match_none_iff : forall cmd,
  fuzzy_match fuzz_ratio cmd = None <->
  Forall (fun k => fuzz_ratio cmd k <= 75) command_keys.
Proof.
  intros cmd. unfold fuzzy_match. split.
  - intros H.
    destruct (best_match_loop fuzz_ratio cmd command_keys None 0) as [r sc] eqn:E.
    simpl in H. subst r.
    destruct (best_match_loop_inv _ _ _ _ _ _ E)
      as [(_ & _ & Hall)|(pre & k & post & _ & Hr & _)].
    + eapply Forall_impl; [|exact Hall]. intros a [Ha|Ha]; lia.
    + discriminate.
  - intros Hall. rewrite best_match_loop_skips; [reflexivity|].
    eapply Forall_impl; [|exact Hall]. intros a Ha. left. exact Ha.
Qed.

Lemma interpret_keyword : forall cmd key,
  fuzzy_match fuzz_ratio cmd = Some key ->
  interpret fuzz_ratio cmd = Some (Keyword key).
Proof. intros cmd key H. unfold interpret. rewrite H. reflexivity. Qed.

Lemma interpret_falls_through : forall cmd,
  fuzzy_match fuzz_ratio cmd = None ->
  interpret fuzz_ratio cmd = extract_parameter cmd.
Proof. intros cmd H. unfold interpret. rewrite H. reflexivity. Qed.

(** *** Trimming *)

Lemma string_rev_onto_append : forall a acc,
  string_rev_onto a acc = (string_rev a ++ acc)%string.
Proof.
  unfold string_rev. induction a as [|c a IH]; intros acc; simpl.
  - reflexivity.
  - rewrite IH, (IH (String c EmptyString)), append_assoc. reflexivity.
Qed.

Lemma string_rev_cons : forall c a,
  string_rev (String c a) = (string_rev a ++ String c EmptyString)%string.
Proof. intros c a. unfold string_rev at 1. simpl. apply string_rev_onto_append. Qed.

Lemma string_rev_append : forall a b,
  string_rev (a ++ b) = (string_rev b ++ string_rev a)%string.
Proof.
  induction a as [|c a IH]; intros b; simpl.
  - rewrite append_nil_r. reflexivity.
  - rewrite !string_rev_cons, IH, append_assoc. reflexivity.
Qed.

Lemma string_rev_involutive : forall a, string_rev (string_rev a) = a.
Proof.
  induction a as [|c a IH].
  - reflexivity.
  - rewrite string_rev_cons, string_rev_append, IH. reflexivity.
Qed.

Lemma all_space_append : forall a b,
  all_space (a ++ b) = all_space a && all_space b.
Proof.
  induction a as [|c a IH]; intros b; simpl;
    [reflexivity | rewrite IH, andb_assoc; reflexivity].
Qed.

Lemma all_space_rev : forall a, all_space (string_rev a) = all_space a.
Proof.
  induction a as [|c a IH].
  - reflexivity.
  - rewrite string_rev_cons, all_space_append, IH. simpl.
    rewrite andb_true_r. apply andb_comm.
Qed.

Lemma lstrip_spaces : forall ws rest,
  all_space ws = true -> lstrip (ws ++ rest) = lstrip rest.
Proof.
  induction ws as [|c ws IH]; intros rest H; simpl in *.
  - reflexivity.
  - apply andb_true_iff in H. destruct H as [Hc Hws].
    rewrite Hc. apply IH, Hws.
Qed.

Lemma lstrip_all_space : forall ws, all_space ws = true -> lstrip ws = EmptyString.
Proof.
  intros ws H. rewrite <- (append_nil_r ws), lstrip_spaces by exact H. reflexivity.
Qed.

Lemma string_rev_head : forall c a,
  exists rest, string_rev (String c a) = String (last_char c a) rest.
Proof.
  intros c a. revert c. induction a as [|c' a IH]; intros c.
  - exists EmptyString. reflexivity.
  - destruct (IH c') as [rest Hrest].
    exists (rest ++ String c EmptyString)%string.
    rewrite string_rev_cons, Hrest. reflexivity.
Qed.

(** [strip] removes the white space around a text that neither starts nor
    ends with white space, and nothing else. *)
Lemma strip_spec : forall ws body ws',
  all_space ws = true -> all_space ws' = true -> trimmed body = true ->
  strip (ws ++ body ++ ws') = body.
Proof.
  intros ws body ws' Hws Hws' Hbody. unfold strip.
  rewrite lstrip_spaces by exact Hws.
  destruct body as [|c body].
  - simpl. rewrite (lstrip_all_space ws' Hws'). reflexivity.
  - simpl in Hbody. apply andb_true_iff in Hbody. destruct Hbody as [Hc Hl].
    apply negb_true_iff in Hc. apply negb_true_iff in Hl.
    assert (H1 : lstrip (String c body ++ ws') = (String c body ++ ws')%string)
      by (simpl; rewrite Hc; reflexivity).
    rewrite H1, string_rev_append.
    rewrite lstrip_spaces by (rewrite all_space_rev; exact Hws').
    destruct (string_rev_head c body) as [rest Hrest].
    assert (H2 : lstrip (string_rev (String c body)) = string_rev (String c body))
      by (rewrite Hrest; simpl; rewrite Hl; reflexivity).
    rewrite H2. apply string_rev_involutive.
Qed.

(** C5.  [handle_command] scores the stripped, lower-cased utterance
    against every keyword in dictionary order: white space around a text
    that neither starts nor ends with white space is removed before
    scoring, and nothing else is.  The fuzzy phase yields a keyword
    exactly when it is the first one with the highest score and that
    score exceeds 75, the keyword's method is then run and the patterns are
    not consulted; the patterns are consulted only when no keyword scores
    above 75.  With either reference score (the python-Levenshtein one
    and the difflib one), "grey scale" scores 84 against "grayscale" and
    resolves to the grayscale method, and "   UNDO   " resolves to undo
    although the untrimmed text scores at most 75 against every keyword. *)
Theorem fuzzy_phase_runs_first : forall command s,
  (forall key,
     fuzzy_match fuzz_ratio (lower (strip command)) = Some key <->
     first_best (fuzz_ratio (lower (strip command))) command_keys key) /\
  (fuzzy_match fuzz_ratio (lower (strip command)) = None <->
     Forall (fun k => fuzz_ratio (lower (strip command)) k <= 75) command_keys) /\
  (forall key,
     fuzzy_match fuzz_ratio (lower (strip command)) = Some key ->
     interpret fuzz_ratio (lower (strip command)) = Some (Keyword key) /\
     handle_command command s = perform (Keyword key) (log_command command s)) /\
  (fuzzy_match fuzz_ratio (lower (strip command)) = None ->
     interpret fuzz_ratio (lower (strip command)) =
       extract_parameter (lower (strip command))) /\
  (forall ws body ws' key,
     all_space ws = true -> all_space ws' = true -> trimmed body = true ->
     strip (ws ++ body ++ ws') = body /\
     (fuzzy_match fuzz_ratio (lower body) = Some key ->
      handle_command (ws ++ body ++ ws') s =
        perform (Keyword key) (log_command (ws ++ body ++ ws') s))) /\
  (indel_ratio "grey scale" "grayscale" = 84 /\
   interpret indel_ratio "grey scale" = Some (Keyword "grayscale") /\
   difflib_ratio "grey scale" "grayscale" = 84 /\
   interpret difflib_ratio "grey scale" = Some (Keyword "grayscale") /\
   commands_get "grayscale" commands = Some M_apply_grayscale) /\
  (interpret indel_ratio (lower (strip "   UNDO   ")) = Some (Keyword "undo") /\
   interpret difflib_ratio (lower (strip "   UNDO   ")) = Some (Keyword "undo") /\
   fuzzy_match indel_ratio (lower "   UNDO   ") = None /\
   fuzzy_match difflib_ratio (lower "   UNDO   ") = None).
Proof.
  intros command s.
  split; [|split; [|split; [|split; [|split; [|split]]]]].
  - intros key. apply fuzzy_match_some_iff.
  - apply fuzzy_match_none_iff.
  - intros key H. split.
    + apply interpret_keyword. exact H.
    + unfold handle_command. rewrite (interpret_keyword _ _ H). reflexivity.
  - apply interpret_falls_through.
  - intros ws body ws' key Hws Hws' Hbody.
    pose proof (strip_spec ws body ws' Hws Hws' Hbody) as Hstrip.
    split; [exact Hstrip|].
    intros H. unfold handle_command. rewrite Hstrip, (interpret_keyword _ _ H).
    reflexivity.
  - repeat split; vm_compute; reflexivity.
  - repeat split; vm_compute; reflexivity.
Qed.

(** C6.  Each compiled pattern finds exactly the parameters named with
    its words: it yields an integer only when the text contains
    [<word> [by] <signed integer>] (white space optional) with that value,
    and yields nothing only when the text contains no such part.  When no
    keyword scores above 75, the patterns are tried in the order brightness,
    contrast, saturation, hue: the first one that matches gives the action
    with its integer, whatever the later ones would match; when none matches
    nothing is recognised.  With either reference score, "brightness by
    50" reaches the patterns and yields brightness 50; and in a text that
    names contrast before brightness, brightness still wins. *)
Theorem parameter_patterns_in_priority_order :
  (pattern_finds re_brightness brightness_words /\
   pattern_finds re_contrast contrast_words /\
   pattern_finds re_saturation saturation_words /\
   pattern_finds re_hue hue_words) /\
  (forall cmd,
     fuzzy_match fuzz_ratio cmd = None ->
     (forall n, search_int re_brightness cmd = Some n ->
        interpret fuzz_ratio cmd = Some (Brightness n)) /\
     (forall n, search_int re_brightness cmd = None ->
        search_int re_contrast cmd = Some n ->
        interpret fuzz_ratio cmd = Some (Contrast n)) /\
     (forall n, search_int re_brightness cmd = None ->
        search_int re_contrast cmd = None ->
        search_int re_saturation cmd = Some n ->
        interpret fuzz_ratio cmd = Some (Saturation n)) /\
     (forall n, search_int re_brightness cmd = None ->
        search_int re_contrast cmd = None ->
        search_int re_saturation cmd = None ->
        search_int re_hue cmd = Some n ->
        interpret fuzz_ratio cmd = Some (Hue n)) /\
     (search_int re_brightness cmd = None ->
        search_int re_contrast cmd = None ->
        search_int re_saturation cmd = None ->
        search_int re_hue cmd = None ->
        interpret fuzz_ratio cmd = None)) /\
  (fuzzy_match indel_ratio "brightness by 50" = None /\
   fuzzy_match difflib_ratio "brightness by 50" = None /\
   re_search_group1 re_brightness "brightness by 50" = Some "50"%string /\
   interpret indel_ratio "brightness by 50" = Some (Brightness 50) /\
   interpret difflib_ratio "brightness by 50" = Some (Brightness 50)) /\
  (search_int re_contrast "contrast 20 brightness 10" = Some 20 /\
   extract_parameter "contrast 20 brightness 10" = Some (Brightness 10)).
Proof.
  split; [exact patterns_find_their_words|].
  split; [|split].
  - intros cmd H. rewrite (interpret_falls_through cmd H). unfold extract_parameter.
    repeat split.
    + intros n Hb. rewrite Hb. reflexivity.
    + intros n Hb Hc. rewrite Hb, Hc. reflexivity.
    + intros n Hb Hc Hs. rewrite Hb, Hc, Hs. reflexivity.
    + intros n Hb Hc Hs Hh. rewrite Hb, Hc, Hs, Hh. reflexivity.
    + intros Hb Hc Hs Hh. rewrite Hb, Hc, Hs, Hh. reflexivity.
  - repeat split; vm_compute; reflexivity.
  - repeat split; vm_compute; reflexivity.
Qed.

(* ------------------------------------------------------------------ *)
(** ** Further properties of the editor *)

(** X1.  For a proper range, [clamp] returns a value inside the range: the
    argument itself when it lies inside, the nearer bound otherwise; a
    second clamp changes nothing. *)
Theorem clamp_within_bounds : forall val lo hi,
  lo <= hi ->
  lo <= clamp val lo hi <= hi /\
  (lo <= val <= hi -> clamp val lo hi = val) /\
  (val < lo -> clamp val lo hi = lo) /\
  (hi < val -> clamp val lo hi = hi) /\
  clamp (clamp val lo hi) lo hi = clamp val lo hi.
Proof.
  intros val lo hi H. unfold clamp. repeat split; lia.
Qed.

(** X2.  On a session with an image: an undo followed by a redo shows the
    frame that was on display after one JPEG round trip, leaves the redo
    stack as it was, and replaces the top undo snapshot by the re-encoding
    of the frame it decoded to; a redo followed by an undo does the same
    with the two stacks exchanged. *)
Theorem undo_redo_cancel_up_to_codec : forall s img,
  current_image s = Some img ->
  (forall st top,
     undo_stack s = st ++ [top] ->
     current_image (redo (undo s)) = Some (jpeg_roundtrip img) /\
     redo_stack (redo (undo s)) = redo_stack s /\
     undo_stack (redo (undo s)) = st ++ [compress_image (decompress_image top)]) /\
  (forall st top,
     redo_stack s = st ++ [top] ->
     current_image (undo (redo s)) = Some (jpeg_roundtrip img) /\
     undo_stack (undo (redo s)) = undo_stack s /\
     redo_stack (undo (redo s)) = st ++ [compress_image (decompress_image top)]).
Proof.
  intros s img Hc. split; intros st top Hs.
  - rewrite (undo_step s st top img Hs Hc).
    erewrite redo_step; [|simpl; reflexivity|simpl; reflexivity].
    simpl. repeat split.
  - rewrite (redo_step s st top img Hs Hc).
    erewrite undo_step; [|simpl; reflexivity|simpl; reflexivity].
    simpl. repeat split.
Qed.

(** X3.  On a session with an image: directly after one of the 13
    methods that store a snapshot (the eight filters from grayscale to
    adaptive threshold, the four transforms, the reset to the original)
    there is nothing to redo: [redo] leaves the state as it is; and [undo]
    shows the frame from before the edit, after one JPEG round trip, with
    the edited frame as the only entry of the redo stack.  The saturation
    boost, which stores no snapshot, keeps both stacks as they are: after
    it, [redo] still restores the snapshot on top of the redo stack. *)
Theorem nothing_to_redo_after_an_edit : forall m s img orig,
  current_image s = Some img ->
  original_image s = Some orig ->
  (snapshots m = true ->
   redo (call m s) = call m s /\
   current_image (undo (call m s)) = Some (jpeg_roundtrip img) /\
   redo_stack (undo (call m s)) = [compress_image (frame_of (call m s))]) /\
  undo_stack (apply_saturation_default s) = undo_stack s /\
  redo_stack (apply_saturation_default s) = redo_stack s /\
  (forall st top,
     redo_stack s = st ++ [top] ->
     current_image (redo (apply_saturation_default s)) =
       Some (decompress_image top)).
Proof.
  intros m s img orig Hc Ho.
  destruct (apply_saturation_default_leaves_history s) as (Hsu & Hsr & _).
  split; [|split; [exact Hsu|split; [exact Hsr|]]].
  - intros Hm. pose proof (snapshots_recorded m Hm) as Hin.
    destruct (recorded_edit_effect (call m) s img orig Hin Hc Ho) as [img' Hop].
    rewrite (save_image_state_loaded s img Hc) in Hop.
    split.
    + rewrite Hop. reflexivity.
    + assert (Hstack : exists st, undo_stack (call m s) = st ++ [compress_image img]).
      { rewrite Hop. simpl.
        destruct (push_bounded_suffix _ max_stack_size (undo_stack s) []
                    (compress_image img)) as [pre Hp].
        - unfold max_stack_size. simpl. lia.
        - exists pre. rewrite app_nil_r in Hp. exact Hp. }
      destruct Hstack as [st Hst].
      assert (Hc' : current_image (call m s) = Some img') by (rewrite Hop; reflexivity).
      rewrite (undo_step (call m s) st (compress_image img) img' Hst Hc').
      simpl. split; [reflexivity|].
      unfold frame_of. rewrite Hc'. rewrite Hop. reflexivity.
  - intros st top Hst.
    assert (Hcur : exists img', current_image (apply_saturation_default s) = Some img').
    { unfold apply_saturation_default, saturation_slider_setValue, slider_setValue.
      change (fits_c_int 150) with true. cbv iota.
      destruct (clamp 150 0 200 =? saturation_slider s).
      - exists img. exact Hc.
      - unfold apply_saturation.
        cbn [current_image set_saturation_slider]. rewrite Hc.
        eexists. reflexivity. }
    destruct Hcur as [img' Hc'].
    rewrite (redo_step (apply_saturation_default s) st top img');
      [reflexivity | rewrite Hsr; exact Hst | exact Hc'].
Qed.

(** X4.  A successful load discards the whole history: the image becomes
    both the current and the original one, the session is clean, and an
    undo or a redo right after it does nothing; the sliders, the cached
    baselines and the command history stay as they were.  A failed load
    changes nothing. *)
Theorem load_discards_history : forall img s,
  current_image (_load_image_from_path (Some img) s) = Some img /\
  original_image (_load_image_from_path (Some img) s) = Some img /\
  has_unsaved_changes (_load_image_from_path (Some img) s) = false /\
  undo (_load_image_from_path (Some img) s) = _load_image_from_path (Some img) s /\
  redo (_load_image_from_path (Some img) s) = _load_image_from_path (Some img) s /\
  brightness_slider (_load_image_from_path (Some img) s) = brightness_slider s /\
  contrast_slider (_load_image_from_path (Some img) s) = contrast_slider s /\
  saturation_slider (_load_image_from_path (Some img) s) = saturation_slider s /\
  hue_slider (_load_image_from_path (Some img) s) = hue_slider s /\
  command_history (_load_image_from_path (Some img) s) = command_history s /\
  brightness_base (_load_image_from_path (Some img) s) = brightness_base s /\
  contrast_base (_load_image_from_path (Some img) s) = contrast_base s /\
  _load_image_from_path None s = s.
Proof. intros img s. repeat split. Qed.

Lemma saved_edit_fields : forall f s img,
  current_image s = Some img ->
  current_image (saved_edit f s) = Some (f img) /\
  undo_stack (saved_edit f s) =
    push_bounded max_stack_size (undo_stack s) (compress_image img) /\
  redo_stack (saved_edit f s) = [].
Proof.
  intros f s img Hc.
  rewrite (saved_edit_loaded f s img Hc), (save_image_state_loaded s img Hc).
  repeat split.
Qed.

Lemma map_samples_compose : forall f g img,
  map_samples f (map_samples g img) = map_samples (fun x => f (g x)) img.
Proof.
  intros f g [rows|rows]; simpl; f_equal; rewrite map_map.
  - apply map_ext. intros row. apply map_map.
  - apply map_ext. intros row. rewrite map_map. apply map_ext. intros px. apply map_map.
Qed.

Lemma map_samples_id : forall f img,
  (forall x, f x = x) -> map_samples f img = img.
Proof.
  intros f img Hf.
  assert (Hm : forall l : list Z, map f l = l).
  { induction l as [|x l IH]; simpl; [reflexivity|]. rewrite Hf, IH. reflexivity. }
  assert (Hmm : forall l : list (list Z), map (map f) l = l).
  { induction l as [|x l IH]; simpl; [reflexivity|]. rewrite Hm, IH. reflexivity. }
  destruct img as [rows|rows]; simpl; f_equal; [apply Hmm|].
  induction rows as [|r rows IH]; simpl; [reflexivity|]. rewrite Hmm, IH. reflexivity.
Qed.

Lemma samples_map_samples : forall f img,
  samples (map_samples f img) = map f (samples img).
Proof.
  intros f [rows|rows]; simpl.
  - symmetry. apply concat_map.
  - rewrite !concat_map. reflexivity.
Qed.

Lemma wf_map_samples : forall f img,
  (forall x, is_uint8 (f x)) -> wf_frame (map_samples f img).
Proof.
  intros f img Hf. unfold wf_frame. rewrite samples_map_samples.
  apply Forall_forall. intros y Hy. apply in_map_iff in Hy.
  destruct Hy as (x & <- & _). apply Hf.
Qed.

Lemma flip_rows_involutive : forall (A : Type) code (rows : list (list A)),
  flip_rows code (flip_rows code rows) = rows.
Proof.
  intros A code rows. unfold flip_rows.
  assert (Hrr : forall l : list (list A), map (@rev A) (map (@rev A) l) = l).
  { induction l as [|x l IH]; simpl; [reflexivity|].
    rewrite rev_involutive, IH. reflexivity. }
  destruct (code =? 0); [apply rev_involutive|].
  destruct (0 <? code); [apply Hrr|].
  rewrite <- map_rev, rev_involutive. apply Hrr.
Qed.

(** X5.  Inverting twice, flipping horizontally twice or flipping
    vertically twice brings the frame on display back exactly (no
    compression is involved in the frame itself), while each of the two
    steps stores a snapshot: the undo stack ends with the snapshot of the
    frame and that of the inverted (or flipped) frame, and the redo stack
    is empty; inverting a frame of 8-bit samples gives a frame of 8-bit
    samples. *)
Theorem invert_and_flips_are_involutions : forall s img,
  current_image s = Some img ->
  current_image (apply_invert (apply_invert s)) = Some img /\
  current_image (flip_horizontal (flip_horizontal s)) = Some img /\
  current_image (flip_vertical (flip_vertical s)) = Some img /\
  (redo_stack (apply_invert (apply_invert s)) = [] /\
   exists st,
     undo_stack (apply_invert (apply_invert s)) =
       st ++ [compress_image img; compress_image (bitwise_not img)]) /\
  (redo_stack (flip_horizontal (flip_horizontal s)) = [] /\
   exists st,
     undo_stack (flip_horizontal (flip_horizontal s)) =
       st ++ [compress_image img; compress_image (flip 1 img)]) /\
  (redo_stack (flip_vertical (flip_vertical s)) = [] /\
   exists st,
     undo_stack (flip_vertical (flip_vertical s)) =
       st ++ [compress_image img; compress_image (flip 0 img)]) /\
  (wf_frame img -> wf_frame (bitwise_not img)).
Proof.
  intros s img Hc.
  assert (Htwice : forall f,
            current_image (saved_edit f (saved_edit f s)) = Some (f (f img))).
  { intros f. rewrite (saved_edit_loaded f s img Hc).
    erewrite saved_edit_loaded; [reflexivity|].
    rewrite (save_image_state_loaded s img Hc). reflexivity. }
  assert (Hstacks : forall f,
            redo_stack (saved_edit f (saved_edit f s)) = [] /\
            exists st,
              undo_stack (saved_edit f (saved_edit f s)) =
                st ++ [compress_image img; compress_image (f img)]).
  { intros f.
    destruct (saved_edit_fields f s img Hc) as (Hc1 & Hu1 & _).
    destruct (saved_edit_fields f (saved_edit f s) (f img) Hc1) as (_ & Hu2 & Hr2).
    split; [exact Hr2|].
    rewrite Hu2, Hu1.
    destruct (push_bounded_suffix _ max_stack_size (undo_stack s) []
                (compress_image img)) as [pre1 Hp1];
      [unfold max_stack_size; simpl; lia|].
    rewrite app_nil_r in Hp1. rewrite Hp1.
    destruct (push_bounded_suffix _ max_stack_size pre1 [compress_image img]
                (compress_image (f img))) as [pre2 Hp2];
      [unfold max_stack_size; simpl; lia|].
    exists pre2. exact Hp2. }
  split; [|split; [|split; [|split; [|split; [|split]]]]].
  - unfold apply_invert. rewrite Htwice. f_equal. unfold bitwise_not.
    rewrite map_samples_compose. apply map_samples_id. intros x. lia.
  - unfold flip_horizontal. rewrite Htwice. f_equal.
    destruct img; simpl; f_equal; apply flip_rows_involutive.
  - unfold flip_vertical. rewrite Htwice. f_equal.
    destruct img; simpl; f_equal; apply flip_rows_involutive.
  - exact (Hstacks bitwise_not).
  - exact (Hstacks (flip 1)).
  - exact (Hstacks (flip 0)).
  - intros Hwf. unfold bitwise_not, wf_frame. rewrite samples_map_samples.
    unfold wf_frame in Hwf. rewrite Forall_forall in *.
    intros y Hy. apply in_map_iff in Hy. destruct Hy as (x & <- & Hx).
    specialize (Hwf x Hx). unfold is_uint8 in *. lia.
Qed.

(** *** What each operation leaves alone *)

Ltac unfold_ops :=
  unfold reset_adjustments, apply_saturation_default,
    brightness_slider_setValue, contrast_slider_setValue,
    saturation_slider_setValue, hue_slider_setValue, slider_setValue,
    apply_brightness, apply_contrast, apply_saturation, apply_hue,
    apply_grayscale, apply_blur, apply_sharpen, apply_edge_detection,
    apply_sepia, apply_invert, apply_histogram_equalization,
    apply_adaptive_thresholding, rotate_left, rotate_right,
    flip_horizontal, flip_vertical, reset_image, saved_edit,
    undo, redo, save_image_state, _load_image_from_path, save_image_dialog.

Ltac split_matches :=
  repeat match goal with
         | |- context [match ?x with _ => _ end] =>
             lazymatch x with
             | context [match _ with _ => _ end] => fail
             | _ => destruct x eqn:?
             end
         end.

Ltac frame_solve :=
  unfold_ops; split_matches; simpl; try reflexivity; try assumption; try congruence.

Lemma slider_setValue_frame :
  forall (A : Type) (proj : MainWindow -> A) lo hi get set slot,
    (forall v s, proj (set v s) = proj s) ->
    (forall v s, proj (slot v s) = proj s) ->
    forall value s, proj (slider_setValue lo hi get set slot value s) = proj s.
Proof.
  intros A proj lo hi get set slot Hset Hslot value s. unfold slider_setValue.
  destruct (fits_c_int value); [|reflexivity].
  destruct (clamp value lo hi =? get s); [reflexivity|].
  rewrite Hslot, Hset. reflexivity.
Qed.

Lemma call_keeps_command_history : forall m s,
  command_history (call m s) = command_history s.
Proof. intros m s. destruct m; simpl; frame_solve. Qed.

Lemma perform_keeps_command_history : forall a s,
  command_history (perform a s) = command_history s.
Proof.
  intros [key|n|n|n|n] s; unfold perform.
  - destruct (commands_get key commands); [apply call_keeps_command_history|reflexivity].
  - frame_solve.
  - frame_solve.
  - frame_solve.
  - frame_solve.
Qed.

Lemma handle_command_history : forall command s,
  command_history (handle_command command s) =
    push_bounded max_history_size (command_history s) command.
Proof.
  intros command s. unfold handle_command.
  destruct (interpret fuzz_ratio (lower (strip command))).
  - rewrite perform_keeps_command_history. reflexivity.
  - reflexivity.
Qed.

Lemma step_keeps_command_history : forall e s,
  (forall command, e <> Say command) ->
  command_history (step s e) = command_history s.
Proof.
  intros e s Hne. destruct e; simpl.
  - frame_solve.
  - frame_solve.
  - apply call_keeps_command_history.
  - frame_solve.
  - frame_solve.
  - frame_solve.
  - frame_solve.
  - frame_solve.
  - contradiction (Hne command). reflexivity.
Qed.

Lemma push_bounded_last : forall (A : Type) limit (l : list A) x d,
  (0 < limit)%nat -> last (push_bounded limit l x) d = x.
Proof.
  intros A limit l x d Hl. unfold push_bounded.
  destruct (Nat.ltb_spec limit (length (l ++ [x]))) as [Hlt|_].
  - destruct l as [|a l]; simpl in *; [lia|]. apply last_last.
  - apply last_last.
Qed.

Lemma reachable_history_length : forall events s,
  (length (command_history s) <= max_history_size)%nat ->
  (length (command_history (run events s)) <= max_history_size)%nat.
Proof.
  induction events as [|e events IH]; intros s H; simpl; [exact H|].
  apply IH.
  destruct e; try (rewrite step_keeps_command_history; [exact H|discriminate]).
  simpl. rewrite handle_command_history. apply push_bounded_length. exact H.
Qed.

(** X6.  Every utterance handed to [handle_command], recognised or not,
    becomes the newest entry of the command history, whatever the command
    then does; the history drops its oldest entry beyond 15, so in every
    reachable state it holds at most 15 utterances; nothing but
    [handle_command] writes to it. *)
Theorem command_history_keeps_last_15 : forall s,
  reachable s ->
  (length (command_history s) <= 15)%nat /\
  (forall command,
     command_history (handle_command command s) =
       push_bounded 15 (command_history s) command /\
     last (command_history (handle_command command s)) EmptyString = command /\
     ((length (command_history s) < 15)%nat ->
        command_history (handle_command command s) = command_history s ++ [command])) /\
  (forall e, (forall command, e <> Say command) ->
     command_history (step s e) = command_history s).
Proof.
  intros s [events ->].
  split; [|split].
  - apply (reachable_history_length events init_window). simpl.
    unfold max_history_size. lia.
  - intros command. rewrite handle_command_history.
    change max_history_size with 15%nat. repeat split.
    + apply push_bounded_last. lia.
    + intros Hlt. apply push_bounded_room. exact Hlt.
  - intros e Hne. apply step_keeps_command_history. exact Hne.
Qed.

Lemma names_parameter_mono : forall k1 k2 cmd num,
  (forall kw, In kw k1 -> In kw k2) ->
  names_parameter k1 cmd num -> names_parameter k2 cmd num.
Proof.
  intros k1 k2 cmd num Hsub (pre & kw & w1 & by_ & w2 & post & H & Hin & Hrest).
  exists pre, kw, w1, by_, w2, post. split; [exact H|]. split; [apply Hsub; exact Hin|exact Hrest].
Qed.

Lemma names_parameter_app : forall k1 k2 cmd num,
  names_parameter (k1 ++ k2) cmd num ->
  names_parameter k1 cmd num \/ names_parameter k2 cmd num.
Proof.
  intros k1 k2 cmd num (pre & kw & w1 & by_ & w2 & post & H & Hin & Hrest).
  apply in_app_or in Hin. destruct Hin as [Hin|Hin]; [left|right];
    exists pre, kw, w1, by_, w2, post; (split; [exact H|split; [exact Hin|exact Hrest]]).
Qed.

Lemma no_parameter_no_extraction : forall cmd,
  (forall num, ~ names_parameter parameter_words cmd num) ->
  extract_parameter cmd = None.
Proof.
  intros cmd H.
  destruct patterns_find_their_words as (Pb & Pc & Ps & Ph).
  assert (Hb : search_int re_brightness cmd = None).
  { apply (Pb cmd). intros num Hn. apply (H num).
    eapply names_parameter_mono; [|exact Hn].
    intros kw Hk. unfold parameter_words. apply in_or_app. left. exact Hk. }
  assert (Hc : search_int re_contrast cmd = None).
  { apply (Pc cmd). intros num Hn. apply (H num).
    eapply names_parameter_mono; [|exact Hn].
    intros kw Hk. unfold parameter_words.
    apply in_or_app. right. apply in_or_app. left. exact Hk. }
  assert (Hs : search_int re_saturation cmd = None).
  { apply (Ps cmd). intros num Hn. apply (H num).
    eapply names_parameter_mono; [|exact Hn].
    intros kw Hk. unfold parameter_words.
    apply in_or_app. right. apply in_or_app. right. apply in_or_app. left. exact Hk. }
  assert (Hh : search_int re_hue cmd = None).
  { apply (Ph cmd). intros num Hn. apply (H num).
    eapply names_parameter_mono; [|exact Hn].
    intros kw Hk. unfold parameter_words.
    apply in_or_app. right. apply in_or_app. right. apply in_or_app. right. exact Hk. }
  unfold extract_parameter. rewrite Hb, Hc, Hs, Hh. reflexivity.
Qed.

Lemma extraction_names_parameter : forall cmd a,
  extract_parameter cmd = Some a ->
  exists num, names_parameter parameter_words cmd num.
Proof.
  intros cmd a H.
  destruct (extract_parameter cmd) eqn:E; [|discriminate]. clear H.
  destruct patterns_find_their_words as (Pb & Pc & Ps & Ph).
  unfold extract_parameter in E.
  destruct (search_int re_brightness cmd) as [n|] eqn:Eb.
  { destruct (proj1 (Pb cmd) n Eb) as (num & Hn & _). exists num.
    eapply names_parameter_mono; [|exact Hn].
    intros kw Hk. unfold parameter_words. apply in_or_app. left. exact Hk. }
  destruct (search_int re_contrast cmd) as [n|] eqn:Ec.
  { destruct (proj1 (Pc cmd) n Ec) as (num & Hn & _). exists num.
    eapply names_parameter_mono; [|exact Hn].
    intros kw Hk. unfold parameter_words.
    apply in_or_app. right. apply in_or_app. left. exact Hk. }
  destruct (search_int re_saturation cmd) as [n|] eqn:Es.
  { destruct (proj1 (Ps cmd) n Es) as (num & Hn & _). exists num.
    eapply names_parameter_mono; [|exact Hn].
    intros kw Hk. unfold parameter_words.
    apply in_or_app. right. apply in_or_app. right. apply in_or_app. left. exact Hk. }
  destruct (search_int re_hue cmd) as [n|] eqn:Eh; [|discriminate].
  destruct (proj1 (Ph cmd) n Eh) as (num & Hn & _). exists num.
  eapply names_parameter_mono; [|exact Hn].
  intros kw Hk. unfold parameter_words.
  apply in_or_app. right. apply in_or_app. right. apply in_or_app. right. exact Hk.
Qed.

(** X7.  An utterance is unrecognised exactly when, once stripped and
    lower-cased, it scores at most 75 against every keyword and contains no
    [<word> [by] <signed integer>] for any of the six parameter words; such
    an utterance changes nothing but the command history. *)
Theorem unrecognised_utterance_is_only_logged : forall command s,
  (interpret fuzz_ratio (lower (strip command)) = None <->
     Forall (fun k => fuzz_ratio (lower (strip command)) k <= 75) command_keys /\
     (forall num, ~ names_parameter parameter_words (lower (strip command)) num)) /\
  (interpret fuzz_ratio (lower (strip command)) = None ->
     handle_command command s = log_command command s).
Proof.
  intros command s. split.
  - unfold interpret. split.
    + intros H.
      destruct (fuzzy_match fuzz_ratio (lower (strip command))) eqn:E; [discriminate|].
      split; [apply fuzzy_match_none_iff; exact E|].
      intros num Hn.
      destruct patterns_find_their_words as (Pb & Pc & Ps & Ph).
      unfold extract_parameter in H.
      destruct (search_int re_brightness (lower (strip command))) eqn:Eb; [discriminate|].
      destruct (search_int re_contrast (lower (strip command))) eqn:Ec; [discriminate|].
      destruct (search_int re_saturation (lower (strip command))) eqn:Es; [discriminate|].
      destruct (search_int re_hue (lower (strip command))) eqn:Eh; [discriminate|].
      unfold parameter_words in Hn.
      apply names_parameter_app in Hn. destruct Hn as [Hn|Hn];
        [exact (proj1 (proj2 (Pb _)) Eb num Hn)|].
      apply names_parameter_app in Hn. destruct Hn as [Hn|Hn];
        [exact (proj1 (proj2 (Pc _)) Ec num Hn)|].
      apply names_parameter_app in Hn. destruct Hn as [Hn|Hn];
        [exact (proj1 (proj2 (Ps _)) Es num Hn)|].
      exact (proj1 (proj2 (Ph _)) Eh num Hn).
    + intros (Hf & Hp).
      apply fuzzy_match_none_iff in Hf. rewrite Hf.
      apply no_parameter_no_extraction. exact Hp.
  - intros H. unfold handle_command. rewrite H. reflexivity.
Qed.

(** *** Sliders *)

Lemma slider_setValue_get :
  forall lo hi get set slot,
    (forall v s, get (set v s) = v) ->
    (forall v s, get (slot v s) = get s) ->
    forall value s,
      fits_c_int value = true ->
      get (slider_setValue lo hi get set slot value s) = clamp value lo hi.
Proof.
  intros lo hi get set slot Hset Hslot value s Hfit. unfold slider_setValue.
  rewrite Hfit.
  destruct (Z.eqb_spec (clamp value lo hi) (get s)) as [Heq|_].
  - symmetry. exact Heq.
  - rewrite Hslot, Hset. reflexivity.
Qed.

Lemma slider_setValue_same :
  forall lo hi get set slot value s,
    get s = clamp value lo hi ->
    slider_setValue lo hi get set slot value s = s.
Proof.
  intros lo hi get set slot value s H. unfold slider_setValue.
  destruct (fits_c_int value); [|reflexivity].
  rewrite H, Z.eqb_refl. reflexivity.
Qed.

Lemma slider_setValue_range :
  forall lo hi get set slot,
    lo <= hi ->
    (forall v s, get (set v s) = v) ->
    (forall v s, get (slot v s) = get s) ->
    forall value s,
      lo <= get s <= hi ->
      lo <= get (slider_setValue lo hi get set slot value s) <= hi.
Proof.
  intros lo hi get set slot Hlh Hset Hslot value s Hs.
  destruct (fits_c_int value) eqn:Hfit.
  - rewrite (slider_setValue_get lo hi get set slot Hset Hslot value s Hfit).
    apply clamp_bounds. exact Hlh.
  - unfold slider_setValue. rewrite Hfit. exact Hs.
Qed.

Lemma slider_setValue_idempotent :
  forall lo hi get set slot,
    (forall v s, get (set v s) = v) ->
    (forall v s, get (slot v s) = get s) ->
    forall value s,
      slider_setValue lo hi get set slot value
        (slider_setValue lo hi get set slot value s) =
      slider_setValue lo hi get set slot value s.
Proof.
  intros lo hi get set slot Hset Hslot value s.
  destruct (fits_c_int value) eqn:Hfit.
  - pose proof (slider_setValue_get lo hi get set slot Hset Hslot value s Hfit) as Hg.
    unfold slider_setValue at 1. rewrite Hfit, Hg, Z.eqb_refl. reflexivity.
  - unfold slider_setValue. rewrite Hfit. reflexivity.
Qed.

Lemma brightness_slider_sets : forall value s,
  sliders_in_range s -> sliders_in_range (brightness_slider_setValue value s).
Proof.
  intros value s (Hb & Hc & Hs & Hh). unfold sliders_in_range.
  split; [|split; [|split]].
  - apply slider_setValue_range; try assumption; try lia;
      intros; frame_solve.
  - unfold brightness_slider_setValue.
    rewrite (slider_setValue_frame Z contrast_slider); [exact Hc| |]; intros; frame_solve.
  - unfold brightness_slider_setValue.
    rewrite (slider_setValue_frame Z saturation_slider); [exact Hs| |]; intros; frame_solve.
  - unfold brightness_slider_setValue.
    rewrite (slider_setValue_frame Z hue_slider); [exact Hh| |]; intros; frame_solve.
Qed.

Lemma contrast_slider_sets : forall value s,
  sliders_in_range s -> sliders_in_range (contrast_slider_setValue value s).
Proof.
  intros value s (Hb & Hc & Hs & Hh). unfold sliders_in_range.
  split; [|split; [|split]].
  - unfold contrast_slider_setValue.
    rewrite (slider_setValue_frame Z brightness_slider); [exact Hb| |]; intros; frame_solve.
  - apply slider_setValue_range; try assumption; try lia;
      intros; frame_solve.
  - unfold contrast_slider_setValue.
    rewrite (slider_setValue_frame Z saturation_slider); [exact Hs| |]; intros; frame_solve.
  - unfold contrast_slider_setValue.
    rewrite (slider_setValue_frame Z hue_slider); [exact Hh| |]; intros; frame_solve.
Qed.

Lemma saturation_slider_sets : forall value s,
  sliders_in_range s -> sliders_in_range (saturation_slider_setValue value s).
Proof.
  intros value s (Hb & Hc & Hs & Hh). unfold sliders_in_range.
  split; [|split; [|split]].
  - unfold saturation_slider_setValue.
    rewrite (slider_setValue_frame Z brightness_slider); [exact Hb| |]; intros; frame_solve.
  - unfold saturation_slider_setValue.
    rewrite (slider_setValue_frame Z contrast_slider); [exact Hc| |]; intros; frame_solve.
  - apply slider_setValue_range; try assumption; try lia;
      intros; frame_solve.
  - unfold saturation_slider_setValue.
    rewrite (slider_setValue_frame Z hue_slider); [exact Hh| |]; intros; frame_solve.
Qed.

Lemma hue_slider_sets : forall value s,
  sliders_in_range s -> sliders_in_range (hue_slider_setValue value s).
Proof.
  intros value s (Hb & Hc & Hs & Hh). unfold sliders_in_range.
  split; [|split; [|split]].
  - unfold hue_slider_setValue.
    rewrite (slider_setValue_frame Z brightness_slider); [exact Hb| |]; intros; frame_solve.
  - unfold hue_slider_setValue.
    rewrite (slider_setValue_frame Z contrast_slider); [exact Hc| |]; intros; frame_solve.
  - unfold hue_slider_setValue.
    rewrite (slider_setValue_frame Z saturation_slider); [exact Hs| |]; intros; frame_solve.
  - apply slider_setValue_range; try assumption; try lia;
      intros; frame_solve.
Qed.

Lemma reset_adjustments_sliders : forall s,
  sliders_in_range s -> sliders_in_range (reset_adjustments s).
Proof.
  intros s H. unfold reset_adjustments.
  assert (H4 : sliders_in_range
            (hue_slider_setValue 0
              (saturation_slider_setValue 100
                (contrast_slider_setValue 100 (brightness_slider_setValue 0 s)))))
    by (apply hue_slider_sets, saturation_slider_sets, contrast_slider_sets,
          brightness_slider_sets, H).
  exact H4.
Qed.

Lemma call_sliders : forall m s,
  sliders_in_range s -> sliders_in_range (call m s).
Proof.
  intros m s H. destruct m; simpl;
    try (apply saturation_slider_sets; exact H);
    try (unfold sliders_in_range in *; frame_solve; exact H).
Qed.

Lemma step_sliders : forall e s,
  sliders_in_range s -> sliders_in_range (step s e).
Proof.
  intros e s H. destruct e; simpl.
  - unfold sliders_in_range in *. frame_solve; exact H.
  - unfold sliders_in_range in *. frame_solve; exact H.
  - apply call_sliders, H.
  - apply brightness_slider_sets, H.
  - apply contrast_slider_sets, H.
  - apply saturation_slider_sets, H.
  - apply hue_slider_sets, H.
  - apply reset_adjustments_sliders, H.
  - unfold handle_command.
    assert (Hlog : sliders_in_range (log_command command s)) by exact H.
    destruct (interpret fuzz_ratio (lower (strip command))) as [[key|n|n|n|n]|];
      unfold perform.
    + destruct (commands_get key commands); [apply call_sliders, Hlog|exact Hlog].
    + apply brightness_slider_sets, Hlog.
    + apply contrast_slider_sets, Hlog.
    + apply saturation_slider_sets, Hlog.
    + apply hue_slider_sets, Hlog.
    + exact Hlog.
Qed.

Lemma reachable_sliders : forall s, reachable s -> sliders_in_range s.
Proof.
  intros s [events ->].
  assert (H : forall evs s0, sliders_in_range s0 -> sliders_in_range (run evs s0)).
  { induction evs as [|e evs IH]; intros s0 H0; simpl; [exact H0|].
    apply IH, step_sliders, H0. }
  apply H. unfold sliders_in_range. simpl. lia.
Qed.

(** X8.  In every reachable state the four sliders are inside their
    ranges ([-100,100], [0,200], [0,200], [-180,180]), whatever integers
    voice commands or the user ask for; so the value a slot receives from
    its slider is never changed by the slot's own [clamp]. *)
Theorem sliders_stay_in_range : forall s,
  reachable s ->
  sliders_in_range s /\
  clamp (brightness_slider s) (-100) 100 = brightness_slider s /\
  clamp (contrast_slider s) 0 200 = contrast_slider s /\
  clamp (saturation_slider s) 0 200 = saturation_slider s /\
  clamp (hue_slider s) (-180) 180 = hue_slider s.
Proof.
  intros s Hr. pose proof (reachable_sliders s Hr) as H.
  split; [exact H|]. destruct H as (Hb & Hc & Hs & Hh).
  unfold clamp. repeat split; lia.
Qed.

(** X9.  Asking a slider for the value it already shows does nothing:
    setting the same value twice is the same as setting it once.  In
    particular the "saturation" command (or button), which sets the
    saturation slider to 150, changes the image only the first time. *)
Theorem setting_a_slider_twice_is_once : forall value s,
  brightness_slider_setValue value (brightness_slider_setValue value s) =
    brightness_slider_setValue value s /\
  contrast_slider_setValue value (contrast_slider_setValue value s) =
    contrast_slider_setValue value s /\
  saturation_slider_setValue value (saturation_slider_setValue value s) =
    saturation_slider_setValue value s /\
  hue_slider_setValue value (hue_slider_setValue value s) =
    hue_slider_setValue value s /\
  apply_saturation_default (apply_saturation_default s) = apply_saturation_default s.
Proof.
  intros value s.
  repeat split; try unfold apply_saturation_default;
    apply slider_setValue_idempotent; intros; frame_solve.
Qed.

(** *** The adjustments reset, the dirty flag and the loaded image *)

Lemma map_id_Forall : forall (A : Type) (f : A -> A) (l : list A),
  Forall (fun x => f x = x) l -> map f l = l.
Proof.
  intros A f l H. induction H as [|x l Hx _ IH]; simpl; [reflexivity|].
  rewrite Hx, IH. reflexivity.
Qed.

Lemma map_samples_id_wf : forall f img,
  wf_frame img ->
  (forall x, is_uint8 x -> f x = x) ->
  map_samples f img = img.
Proof.
  intros f img Hwf Hf. unfold wf_frame in Hwf.
  assert (Hl : forall l, Forall is_uint8 l -> map f l = l).
  { intros l Hl. apply map_id_Forall.
    eapply Forall_impl; [|exact Hl]. exact Hf. }
  destruct img as [rows|rows]; simpl in *; f_equal.
  - apply (proj1 (Forall_concat _ _)) in Hwf. apply map_id_Forall.
    eapply Forall_impl; [|exact Hwf]. exact Hl.
  - apply (proj1 (Forall_concat _ _)) in Hwf.
    apply (proj1 (Forall_concat _ _)) in Hwf.
    apply map_id_Forall.
    eapply Forall_impl; [|exact Hwf].
    intros row Hrow. apply map_id_Forall.
    eapply Forall_impl; [|exact Hrow]. exact Hl.
Qed.

Lemma brightened_zero : forall base, wf_frame base -> brightened 0 base = base.
Proof.
  intros base Hwf. rewrite brightened_samples.
  apply map_samples_id_wf; [exact Hwf|].
  intros x Hx. unfold is_uint8 in Hx.
  assert (Hc : clamp 0 (-100) 100 = 0) by reflexivity. rewrite Hc. lia.
Qed.

(** X10.  [reset_adjustments] leaves the four sliders at their defaults
    (0, 100, 100, 0) and no cached baseline, and never touches the undo
    stack, the redo stack, the dirty flag or the original image.  When the
    sliders were already at their defaults the frame on display stays; when
    only the brightness slider was moved, the frame on display becomes the
    cached brightness baseline again. *)
Theorem reset_adjustments_restores_defaults : forall s,
  brightness_slider (reset_adjustments s) = 0 /\
  contrast_slider (reset_adjustments s) = 100 /\
  saturation_slider (reset_adjustments s) = 100 /\
  hue_slider (reset_adjustments s) = 0 /\
  brightness_base (reset_adjustments s) = None /\
  contrast_base (reset_adjustments s) = None /\
  undo_stack (reset_adjustments s) = undo_stack s /\
  redo_stack (reset_adjustments s) = redo_stack s /\
  has_unsaved_changes (reset_adjustments s) = has_unsaved_changes s /\
  original_image (reset_adjustments s) = original_image s /\
  (brightness_slider s = 0 -> contrast_slider s = 100 ->
   saturation_slider s = 100 -> hue_slider s = 0 ->
   current_image (reset_adjustments s) = current_image s) /\
  (forall img b,
     current_image s = Some img -> brightness_base s = Some b -> wf_frame b ->
     brightness_slider s <> 0 -> contrast_slider s = 100 ->
     saturation_slider s = 100 -> hue_slider s = 0 ->
     current_image (reset_adjustments s) = Some b).
Proof.
  intros s.
  assert (Hb : brightness_slider (brightness_slider_setValue 0 s) = 0).
  { unfold brightness_slider_setValue.
    rewrite slider_setValue_get; [reflexivity| | |reflexivity]; intros; frame_solve. }
  assert (Hc : forall s0, contrast_slider (contrast_slider_setValue 100 s0) = 100).
  { intros s0. unfold contrast_slider_setValue.
    rewrite slider_setValue_get; [reflexivity| | |reflexivity]; intros; frame_solve. }
  assert (Hs : forall s0, saturation_slider (saturation_slider_setValue 100 s0) = 100).
  { intros s0. unfold saturation_slider_setValue.
    rewrite slider_setValue_get; [reflexivity| | |reflexivity]; intros; frame_solve. }
  assert (Hh : forall s0, hue_slider (hue_slider_setValue 0 s0) = 0).
  { intros s0. unfold hue_slider_setValue.
    rewrite slider_setValue_get; [reflexivity| | |reflexivity]; intros; frame_solve. }
  unfold reset_adjustments. cbn [brightness_slider contrast_slider saturation_slider
    hue_slider brightness_base contrast_base undo_stack redo_stack
    has_unsaved_changes original_image current_image
    set_contrast_base set_brightness_base].
  split; [|split; [|split; [|split; [|split; [|split; [|split; [|split; [|split; [|split; [|split]]]]]]]]]].
  - unfold hue_slider_setValue, saturation_slider_setValue, contrast_slider_setValue.
    rewrite !(slider_setValue_frame Z brightness_slider); [exact Hb| | | | | |];
      intros; frame_solve.
  - unfold hue_slider_setValue, saturation_slider_setValue.
    rewrite !(slider_setValue_frame Z contrast_slider); [apply Hc| | | |];
      intros; frame_solve.
  - unfold hue_slider_setValue.
    rewrite !(slider_setValue_frame Z saturation_slider); [apply Hs| |];
      intros; frame_solve.
  - apply Hh.
  - reflexivity.
  - reflexivity.
  - unfold hue_slider_setValue, saturation_slider_setValue, contrast_slider_setValue,
      brightness_slider_setValue.
    rewrite !(slider_setValue_frame (list bytes) undo_stack); [reflexivity| | | | | | | |];
      intros; frame_solve.
  - unfold hue_slider_setValue, saturation_slider_setValue, contrast_slider_setValue,
      brightness_slider_setValue.
    rewrite !(slider_setValue_frame (list bytes) redo_stack); [reflexivity| | | | | | | |];
      intros; frame_solve.
  - unfold hue_slider_setValue, saturation_slider_setValue, contrast_slider_setValue,
      brightness_slider_setValue.
    rewrite !(slider_setValue_frame bool has_unsaved_changes); [reflexivity| | | | | | | |];
      intros; frame_solve.
  - unfold hue_slider_setValue, saturation_slider_setValue, contrast_slider_setValue,
      brightness_slider_setValue.
    rewrite !(slider_setValue_frame (option Frame) original_image); [reflexivity| | | | | | | |];
      intros; frame_solve.
  - intros E1 E2 E3 E4.
    unfold hue_slider_setValue, saturation_slider_setValue, contrast_slider_setValue,
      brightness_slider_setValue.
    rewrite (slider_setValue_same (-100) 100 brightness_slider) by exact E1.
    rewrite (slider_setValue_same 0 200 contrast_slider) by exact E2.
    rewrite (slider_setValue_same 0 200 saturation_slider) by exact E3.
    rewrite (slider_setValue_same (-180) 180 hue_slider) by exact E4.
    reflexivity.
  - intros img b Hci Hbb Hwf E1 E2 E3 E4.
    assert (Hstep : brightness_slider_setValue 0 s =
                    set_current_image (Some b) (set_brightness_slider 0 s)).
    { assert (Hcl : clamp 0 (-100) 100 = 0) by reflexivity.
      unfold brightness_slider_setValue, slider_setValue.
      change (fits_c_int 0) with true. cbv iota. rewrite Hcl.
      destruct (Z.eqb_spec 0 (brightness_slider s)) as [Heq|_].
      - exfalso. apply E1. symmetry. exact Heq.
      - rewrite (apply_brightness_cached (set_brightness_slider 0 s) img b 0 Hci Hbb).
        rewrite (brightened_zero b Hwf). reflexivity. }
    rewrite Hstep.
    unfold hue_slider_setValue, saturation_slider_setValue, contrast_slider_setValue.
    rewrite (slider_setValue_same 0 200 contrast_slider) by exact E2.
    rewrite (slider_setValue_same 0 200 saturation_slider) by exact E3.
    rewrite (slider_setValue_same (-180) 180 hue_slider) by exact E4.
    reflexivity.
Qed.

Lemma reset_adjustments_keeps_flag : forall s,
  has_unsaved_changes (reset_adjustments s) = has_unsaved_changes s.
Proof.
  intros s. unfold reset_adjustments.
  cbn [has_unsaved_changes set_contrast_base set_brightness_base].
  unfold hue_slider_setValue, saturation_slider_setValue, contrast_slider_setValue,
    brightness_slider_setValue.
  rewrite !(slider_setValue_frame bool has_unsaved_changes); [reflexivity| | | | | | | |];
    intros; frame_solve.
Qed.

Lemma bypassing_step_keeps_flag : forall e s,
  bypasses_dirty_flag e = true ->
  has_unsaved_changes (step s e) = has_unsaved_changes s.
Proof.
  intros e s H. destruct e as [img|w|m|v|v|v|v| |c]; simpl in H; try discriminate; simpl.
  - destruct m; try discriminate; simpl; frame_solve.
  - frame_solve.
  - frame_solve.
  - frame_solve.
  - frame_solve.
  - apply reset_adjustments_keeps_flag.
Qed.

(** X11.  Only a recorded edit raises the dirty flag: slider moves, the
    reset of the adjustments, the saturation boost, undo and redo leave it
    as it is, although they change the frame on display.  So after a load,
    any run of such events lets the window close without the
    unsaved-changes question. *)
Theorem adjustments_and_undo_bypass_dirty_flag : forall events s reply_yes,
  forallb bypasses_dirty_flag events = true ->
  has_unsaved_changes (run events s) = has_unsaved_changes s /\
  closeEvent reply_yes (run events s) = closeEvent reply_yes s /\
  (forall img,
     closeEvent reply_yes (run events (_load_image_from_path (Some img) s)) =
       CloseAccepted).
Proof.
  intros events s reply_yes H.
  assert (Hflag : forall evs s0, forallb bypasses_dirty_flag evs = true ->
            has_unsaved_changes (run evs s0) = has_unsaved_changes s0).
  { induction evs as [|e evs IH]; intros s0 H0; simpl in *; [reflexivity|].
    apply andb_true_iff in H0. destruct H0 as [He Hevs].
    rewrite (IH (step s0 e) Hevs). apply bypassing_step_keeps_flag. exact He. }
  split; [apply Hflag; exact H|]. split.
  - unfold closeEvent. rewrite (Hflag events s H). reflexivity.
  - intros img. unfold closeEvent. rewrite (Hflag events _ H). reflexivity.
Qed.

Lemma call_keeps_baselines : forall m s,
  brightness_base (call m s) = brightness_base s /\
  contrast_base (call m s) = contrast_base s.
Proof. intros m s. destruct m; simpl; split; frame_solve. Qed.

(** X12.  No filter, transform, undo, redo or reset to the original
    touches the cached adjustment baselines.  So with a cached brightness
    baseline [b], whatever such operation ran since, the next brightness
    adjustment shows [b] with the new offset, and the result of that
    operation is no longer on display. *)
Theorem edits_keep_stale_baselines : forall m s img b v,
  brightness_base s = Some b ->
  current_image (call m s) = Some img ->
  brightness_base (call m s) = Some b /\
  contrast_base (call m s) = contrast_base s /\
  current_image (apply_brightness v (call m s)) = Some (brightened v b).
Proof.
  intros m s img b v Hb Hc.
  destruct (call_keeps_baselines m s) as (Hb' & Hc').
  rewrite Hb in Hb'. repeat split; try assumption.
  rewrite (apply_brightness_cached (call m s) img b v Hc Hb'). reflexivity.
Qed.

Lemma hue_channel_in_range : forall value img rows,
  hue_hsv value img = Color rows ->
  Forall (Forall (fun px => 0 <= nth 0 px 0 < 180)) rows.
Proof.
  intros value img rows H. unfold hue_hsv in H.
  destruct (cvtColor COLOR_BGR2HSV
              (if ndim img =? 2 then cvtColor COLOR_GRAY2BGR img else img))
    as [rows0|rows0]; simpl in H; [discriminate|].
  inversion H; subst rows. clear H.
  apply Forall_forall. intros row Hrow.
  rewrite !map_map in Hrow. apply in_map_iff in Hrow.
  destruct Hrow as (row0 & <- & _).
  apply Forall_forall. intros px Hpx.
  rewrite !map_map in Hpx. apply in_map_iff in Hpx.
  destruct Hpx as ([|x t] & <- & _); simpl; [lia|].
  pose proof (Z.mod_pos_bound (wrap_int16 (wrap_int16 x + clamp value (-180) 180)) 180
                ltac:(lia)) as Hm.
  rewrite wrap_int16_small by lia. rewrite wrap_uint8_small by lia. exact Hm.
Qed.

(** X13.  Brightness and contrast always put a frame of 8-bit samples on
    display, whatever the baseline and the slider value.  Hue displays
    what [COLOR_HSV2BGR] makes of an HSV array whose samples are 8-bit
    and whose hue channel lies in [0,179]; the conversion itself is
    OpenCV's.  Brightness 0 shows a baseline of 8-bit samples unchanged,
    and brightness +100 turns every sample of at least 155 into 255. *)
Theorem adjustments_give_8bit_frames : forall value s img,
  current_image s = Some img ->
  (exists shown,
     current_image (apply_brightness value s) = Some shown /\ wf_frame shown) /\
  (exists shown,
     current_image (apply_contrast value s) = Some shown /\ wf_frame shown) /\
  (current_image (apply_hue value s) =
     Some (cvtColor COLOR_HSV2BGR (hue_hsv value img)) /\
   wf_frame (hue_hsv value img) /\
   forall rows,
     hue_hsv value img = Color rows ->
     Forall (Forall (fun px => 0 <= nth 0 px 0 < 180)) rows) /\
  (forall base,
     wf_frame (brightened value base) /\
     wf_frame (contrasted value base) /\
     (wf_frame base -> brightened 0 base = base)) /\
  (forall x, 155 <= x -> saturate_uint8 (Z.abs (x + clamp 100 (-100) 100)) = 255).
Proof.
  intros value s img Hc.
  assert (Hsat : forall y, is_uint8 (saturate_uint8 y))
    by (intros y; unfold is_uint8, saturate_uint8; lia).
  assert (Hscale : forall f beta base, wf_frame (convertScaleAbs f beta base)).
  { intros f beta base. unfold convertScaleAbs. apply wf_map_samples.
    intros x. apply Hsat. }
  split; [|split; [|split; [|split]]].
  - unfold apply_brightness. rewrite Hc.
    cbn [current_image set_current_image set_brightness_base].
    eexists. split; [reflexivity | apply Hscale].
  - unfold apply_contrast. rewrite Hc.
    cbn [current_image set_current_image set_contrast_base].
    eexists. split; [reflexivity | apply Hscale].
  - split; [unfold apply_hue; rewrite Hc; reflexivity|]. split.
    + unfold hue_hsv. apply wf_map_samples. intros x. unfold is_uint8, wrap_uint8.
      pose proof (Z.mod_pos_bound x 256 ltac:(lia)). lia.
    + apply hue_channel_in_range.
  - intros base. split; [apply Hscale|]. split; [apply Hscale|].
    apply brightened_zero.
  - intros x Hx. assert (Hcl : clamp 100 (-100) 100 = 100) by reflexivity.
    rewrite Hcl. unfold saturate_uint8. lia.
Qed.

(** *** Loaded sessions *)

Ltac consistent_solve :=
  let H1 := fresh "H1" in
  let H2 := fresh "H2" in
  let Hn := fresh "Hn" in
  intros ? (H1 & H2); unfold consistent; unfold_ops; simpl;
  repeat (match goal with
          | |- context [match ?x with _ => _ end] =>
              lazymatch x with
              | context [match _ with _ => _ end] => fail
              | _ => destruct x eqn:?
              end
          end; simpl);
  simpl in *;
  (split; intros Hn;
   [ first [ discriminate Hn
           | let Hx := fresh "Hx" in
             assert (Hx := H1 ltac:(first [reflexivity | assumption | congruence]));
             destruct Hx as (? & ? & ? & ? & ? & ?); repeat split; congruence
           | congruence ]
   | first [ discriminate Hn | assumption
           | apply H2; first [reflexivity | assumption | congruence]
           | exfalso;
             let Hx := fresh "Hx" in
             assert (Hx := H2 ltac:(first [reflexivity | assumption | congruence]));
             congruence
           | congruence ] ]).

Lemma call_consistent : forall m s, consistent s -> consistent (call m s).
Proof. intros m. destruct m; simpl; try consistent_solve; intros s H; exact H. Qed.

Lemma brightness_slider_consistent : forall v s,
  consistent s -> consistent (brightness_slider_setValue v s).
Proof. intros v. consistent_solve. Qed.

Lemma contrast_slider_consistent : forall v s,
  consistent s -> consistent (contrast_slider_setValue v s).
Proof. intros v. consistent_solve. Qed.

Lemma saturation_slider_consistent : forall v s,
  consistent s -> consistent (saturation_slider_setValue v s).
Proof. intros v. consistent_solve. Qed.

Lemma hue_slider_consistent : forall v s,
  consistent s -> consistent (hue_slider_setValue v s).
Proof. intros v. consistent_solve. Qed.

Lemma clear_baselines_consistent : forall s,
  consistent s -> consistent (set_contrast_base None (set_brightness_base None s)).
Proof.
  intros s (H1 & H2). split; simpl.
  - intros Hn. destruct (H1 Hn) as (A & B & C & _ & _ & F). repeat split; assumption.
  - exact H2.
Qed.

Lemma step_consistent : forall e s, consistent s -> consistent (step s e).
Proof.
  intros e s H. destruct e as [img|w|m|v|v|v|v| |c]; simpl.
  - revert s H. consistent_solve.
  - revert s H. consistent_solve.
  - apply call_consistent, H.
  - apply brightness_slider_consistent, H.
  - apply contrast_slider_consistent, H.
  - apply saturation_slider_consistent, H.
  - apply hue_slider_consistent, H.
  - unfold reset_adjustments. apply clear_baselines_consistent.
    apply hue_slider_consistent, saturation_slider_consistent,
      contrast_slider_consistent, brightness_slider_consistent, H.
  - unfold handle_command.
    assert (Hlog : consistent (log_command c s)) by exact H.
    destruct (interpret fuzz_ratio (lower (strip c))) as [[key|n|n|n|n]|];
      unfold perform.
    + destruct (commands_get key commands); [apply call_consistent, Hlog|exact Hlog].
    + apply brightness_slider_consistent, Hlog.
    + apply contrast_slider_consistent, Hlog.
    + apply saturation_slider_consistent, Hlog.
    + apply hue_slider_consistent, Hlog.
    + exact Hlog.
Qed.

Lemma reachable_consistent : forall s, reachable s -> consistent s.
Proof.
  intros s [events ->].
  assert (H : forall evs s0, consistent s0 -> consistent (run evs s0)).
  { induction evs as [|e evs IH]; intros s0 H0; simpl; [exact H0|].
    apply IH, step_consistent, H0. }
  apply H. split; simpl; intros _; repeat split.
Qed.

Lemma loaded_step : forall e s, loaded s -> loaded (step s e).
Proof.
  intros e s ((img & Hc) & (orig & Ho)).
  assert (Hcall : forall m s0 i o, current_image s0 = Some i ->
            original_image s0 = Some o -> loaded (call m s0)).
  { intros m s0 i o Hi Ho'. unfold loaded.
    destruct m; simpl; unfold_ops; rewrite ?Hi, ?Ho'; split_matches; simpl;
      rewrite ?Hi, ?Ho'; split; eexists; reflexivity. }
  assert (Hslider : forall lo hi get set (slot : Z -> MainWindow -> MainWindow) v s0,
            (forall w t, loaded t -> loaded (slot w (set w t))) ->
            loaded s0 -> loaded (slider_setValue lo hi get set slot v s0)).
  { intros lo hi get set slot v s0 Hslot Hl. unfold slider_setValue.
    destruct (fits_c_int v); [|exact Hl].
    destruct (_ =? _); [exact Hl|]. apply Hslot. exact Hl. }
  assert (Hb : forall v s0, loaded s0 -> loaded (brightness_slider_setValue v s0)).
  { intros v s0 Hl. apply Hslider; [|exact Hl].
    intros w t ((i & Hi) & (o & Ho')). unfold loaded, apply_brightness. simpl.
    rewrite Hi. simpl. split; eexists; [reflexivity|exact Ho']. }
  assert (Hct : forall v s0, loaded s0 -> loaded (contrast_slider_setValue v s0)).
  { intros v s0 Hl. apply Hslider; [|exact Hl].
    intros w t ((i & Hi) & (o & Ho')). unfold loaded, apply_contrast. simpl.
    rewrite Hi. simpl. split; eexists; [reflexivity|exact Ho']. }
  assert (Hst : forall v s0, loaded s0 -> loaded (saturation_slider_setValue v s0)).
  { intros v s0 Hl. apply Hslider; [|exact Hl].
    intros w t ((i & Hi) & (o & Ho')). unfold loaded, apply_saturation. simpl.
    rewrite Hi. simpl. split; eexists; [reflexivity|exact Ho']. }
  assert (Hh : forall v s0, loaded s0 -> loaded (hue_slider_setValue v s0)).
  { intros v s0 Hl. apply Hslider; [|exact Hl].
    intros w t ((i & Hi) & (o & Ho')). unfold loaded, apply_hue. simpl.
    rewrite Hi. simpl. split; eexists; [reflexivity|exact Ho']. }
  assert (Hl : loaded s) by (split; eexists; eassumption).
  destruct e as [[i|]|w|m|v|v|v|v| |c]; simpl.
  - split; eexists; reflexivity.
  - exact Hl.
  - unfold save_image_dialog. rewrite Hc. destruct w; exact Hl.
  - apply (Hcall m s img orig Hc Ho).
  - apply Hb, Hl.
  - apply Hct, Hl.
  - apply Hst, Hl.
  - apply Hh, Hl.
  - unfold reset_adjustments.
    assert (H4 : loaded (hue_slider_setValue 0
                   (saturation_slider_setValue 100
                     (contrast_slider_setValue 100 (brightness_slider_setValue 0 s)))))
      by (apply Hh, Hst, Hct, Hb, Hl).
    exact H4.
  - unfold handle_command.
    assert (Hlog : loaded (log_command c s)) by exact Hl.
    destruct (interpret fuzz_ratio (lower (strip c))) as [[key|n|n|n|n]|];
      unfold perform.
    + destruct (commands_get key commands); [|exact Hlog].
      destruct Hlog as ((i & Hi) & (o & Ho')). apply (Hcall m _ i o Hi Ho').
    + apply Hb, Hlog.
    + apply Hct, Hlog.
    + apply Hst, Hlog.
    + apply Hh, Hlog.
    + exact Hlog.
Qed.

(** X14.  Every reachable session is either blank (no current or original
    image, empty stacks, no baseline, clean) or loaded (a current and an
    original image); once loaded it stays loaded whatever happens next.  In
    particular undo and redo never meet a non-empty stack without a frame
    to compress. *)
Theorem sessions_are_blank_or_loaded : forall s,
  reachable s ->
  (blank s \/ loaded s) /\
  (forall e, loaded s -> loaded (step s e)) /\
  (undo_stack s <> [] \/ redo_stack s <> [] -> exists img, current_image s = Some img).
Proof.
  intros s Hr. pose proof (reachable_consistent s Hr) as (H1 & H2).
  split; [|split].
  - destruct (current_image s) as [img|] eqn:Hc.
    + right. split; [exists img; first [exact Hc | reflexivity]|].
      destruct (original_image s) as [orig|] eqn:Ho;
        [exists orig; first [exact Ho | reflexivity]|].
      specialize (H2 eq_refl). discriminate.
    + left. destruct (H1 eq_refl) as (A & B & C & D & E & F).
      repeat split; assumption.
  - intros e Hl. apply loaded_step. exact Hl.
  - intros Hne. destruct (current_image s) as [img|] eqn:Hc;
      [exists img; first [exact Hc | reflexivity]|].
    destruct (H1 eq_refl) as (_ & B & C & _). destruct Hne as [Hne|Hne]; contradiction.
Qed.

Lemma call_keeps_original : forall m s,
  original_image (call m s) = original_image s.
Proof. intros m s. destruct m; simpl; frame_solve. Qed.

Lemma reset_adjustments_keeps_original : forall s,
  original_image (reset_adjustments s) = original_image s.
Proof.
  intros s. unfold reset_adjustments.
  cbn [original_image set_contrast_base set_brightness_base].
  unfold hue_slider_setValue, saturation_slider_setValue, contrast_slider_setValue,
    brightness_slider_setValue.
  rewrite !(slider_setValue_frame (option Frame) original_image); [reflexivity| | | | | | | |];
    intros; frame_solve.
Qed.

Lemma step_original : forall e s,
  original_image (step s e) =
    match e with
    | Load (Some img) => Some img
    | _ => original_image s
    end.
Proof.
  intros e s. destruct e as [[img|]|w|m|v|v|v|v| |c]; simpl.
  - reflexivity.
  - reflexivity.
  - frame_solve.
  - apply call_keeps_original.
  - frame_solve.
  - frame_solve.
  - frame_solve.
  - frame_solve.
  - apply reset_adjustments_keeps_original.
  - unfold handle_command.
    destruct (interpret fuzz_ratio (lower (strip c))) as [[key|n|n|n|n]|];
      unfold perform.
    + destruct (commands_get key commands);
        [rewrite call_keeps_original; reflexivity|reflexivity].
    + unfold log_command. frame_solve.
    + unfold log_command. frame_solve.
    + unfold log_command. frame_solve.
    + unfold log_command. frame_solve.
    + reflexivity.
Qed.

Lemma run_original : forall events s,
  original_image (run events s) = last_loaded events (original_image s).
Proof.
  induction events as [|e events IH]; intros s; simpl; [reflexivity|].
  unfold run in IH. unfold last_loaded in *. rewrite IH, step_original.
  destruct e as [[img|]|w|m|v|v|v|v| |c]; reflexivity.
Qed.

(** X15.  The original image is written by a successful load and by
    nothing else: after any run of events it is the image of the last
    successful load, and that is the frame a reset to the original puts on
    display. *)
Theorem original_is_last_loaded_image : forall events s,
  original_image (run events s) = last_loaded events (original_image s) /\
  original_image (run events init_window) = last_loaded events None /\
  (forall orig,
     last_loaded events None = Some orig ->
     current_image (reset_image (run events init_window)) = Some orig).
Proof.
  intros events s. split; [apply run_original|]. split.
  - apply (run_original events init_window).
  - intros orig H. unfold reset_image.
    rewrite (run_original events init_window). simpl. rewrite H. reflexivity.
Qed.

Lemma sliders_show_clamped_value : forall value s,
  fits_c_int value = true ->
  brightness_slider (brightness_slider_setValue value s) = clamp value (-100) 100 /\
  contrast_slider (contrast_slider_setValue value s) = clamp value 0 200 /\
  saturation_slider (saturation_slider_setValue value s) = clamp value 0 200 /\
  hue_slider (hue_slider_setValue value s) = clamp value (-180) 180.
Proof.
  intros value s Hfit.
  repeat split; apply slider_setValue_get; try exact Hfit; intros; frame_solve.
Qed.

(* ------------------------------------------------------------------ *)
(** ** Quarter turns *)

Lemma zip_cons_repeat_nil : forall (A : Type) (r : list A),
  zip_cons r (repeat [] (length r)) = map (fun x => [x]) r.
Proof.
  intros A r. unfold zip_cons. induction r as [|x r IH]; simpl;
    [reflexivity | rewrite IH; reflexivity].
Qed.

Lemma zip_snoc_repeat_nil : forall (A : Type) (r : list A),
  zip_snoc (repeat [] (length r)) r = map (fun x => [x]) r.
Proof.
  intros A r. unfold zip_snoc. induction r as [|x r IH]; simpl;
    [reflexivity | rewrite IH; reflexivity].
Qed.

Lemma transpose_columns : forall (A : Type) (rows : list (list A)) w,
  rows <> [] ->
  Forall (fun r => length r = w) rows ->
  transpose rows = columns w rows.
Proof.
  intros A rows w. induction rows as [|a rows IH]; intros Hne Hw; [contradiction|].
  inversion Hw as [|? ? Ha Hrows]; subst.
  destruct rows as [|b rows].
  - simpl. symmetry. apply zip_cons_repeat_nil.
  - change (transpose (a :: b :: rows)) with (zip_cons a (transpose (b :: rows))).
    rewrite IH; [reflexivity | discriminate | exact Hrows].
Qed.

Lemma zip_cons_length : forall (A : Type) (r : list A) cols,
  length (zip_cons r cols) = Nat.min (length r) (length cols).
Proof. intros. unfold zip_cons. rewrite length_map. apply length_combine. Qed.

Lemma columns_length : forall (A : Type) (rows : list (list A)) w,
  Forall (fun r => length r = w) rows -> length (columns w rows) = w.
Proof.
  intros A rows w H. induction H as [|r rows Hr _ IH]; simpl.
  - apply repeat_length.
  - rewrite zip_cons_length, IH, Hr. apply Nat.min_id.
Qed.

Lemma columns_heights : forall (A : Type) (rows : list (list A)) w,
  Forall (fun c => length c = length rows) (columns w rows).
Proof.
  intros A rows w. induction rows as [|r rows IH]; simpl.
  - apply Forall_forall. intros c Hc. apply repeat_spec in Hc. subst c. reflexivity.
  - apply Forall_forall. intros c Hc. unfold zip_cons in Hc.
    apply in_map_iff in Hc. destruct Hc as ([x c'] & <- & Hin).
    apply in_combine_r in Hin. rewrite Forall_forall in IH.
    simpl. rewrite (IH c' Hin). reflexivity.
Qed.

Lemma columns_zip_cons : forall (A : Type) (r : list A) cols h,
  length r = length cols ->
  columns (S h) (zip_cons r cols) = r :: columns h cols.
Proof.
  intros A r. induction r as [|x r IH]; intros [|c cols] h Hlen;
    simpl in Hlen; try discriminate.
  - reflexivity.
  - change (zip_cons (x :: r) (c :: cols)) with ((x :: c) :: zip_cons r cols).
    simpl. rewrite IH by lia. reflexivity.
Qed.

Lemma columns_no_columns : forall (A : Type) w,
  columns 0 (repeat (@nil A) w) = [].
Proof. intros A [|w]; reflexivity. Qed.

Lemma columns_involutive : forall (A : Type) (rows : list (list A)) w,
  Forall (fun r => length r = w) rows ->
  columns (length rows) (columns w rows) = rows.
Proof.
  intros A rows w H. induction H as [|r rows Hr Hrows IH]; simpl.
  - apply columns_no_columns.
  - rewrite columns_zip_cons; [rewrite IH; reflexivity|].
    rewrite columns_length; assumption.
Qed.

Lemma zip_cons_snoc : forall (A : Type) (m : list A) cols r,
  zip_cons m (zip_snoc cols r) = zip_snoc (zip_cons m cols) r.
Proof.
  intros A m. unfold zip_cons, zip_snoc.
  induction m as [|x m IH]; intros [|c cols] [|y r]; simpl; try reflexivity.
  rewrite IH. reflexivity.
Qed.

Lemma columns_snoc : forall (A : Type) (rows : list (list A)) r,
  columns (length r) (rows ++ [r]) = zip_snoc (columns (length r) rows) r.
Proof.
  intros A rows r. induction rows as [|m rows IH]; simpl.
  - rewrite zip_cons_repeat_nil, zip_snoc_repeat_nil. reflexivity.
  - rewrite IH. apply zip_cons_snoc.
Qed.

Lemma map_rev_zip_cons : forall (A : Type) (r : list A) cols,
  map (@rev A) (zip_cons r cols) = zip_snoc (map (@rev A) cols) r.
Proof.
  intros A r. unfold zip_cons, zip_snoc.
  induction r as [|x r IH]; intros [|c cols]; simpl; try reflexivity.
  rewrite IH. reflexivity.
Qed.

Lemma map_rev_repeat_nil : forall (A : Type) w,
  map (@rev A) (repeat [] w) = repeat [] w.
Proof. intros A w. induction w as [|w IH]; simpl; [|rewrite IH]; reflexivity. Qed.

Lemma columns_rev : forall (A : Type) (rows : list (list A)) w,
  Forall (fun r => length r = w) rows ->
  columns w (rev rows) = map (@rev A) (columns w rows).
Proof.
  intros A rows w H. induction H as [|r rows Hr Hrows IH]; simpl.
  - symmetry. apply map_rev_repeat_nil.
  - subst w. rewrite columns_snoc, IH, map_rev_zip_cons. reflexivity.
Qed.

Lemma combine_app_same : forall (A B : Type) (a c : list A) (b d : list B),
  length a = length b ->
  combine (a ++ c) (b ++ d) = combine a b ++ combine c d.
Proof.
  intros A B a. induction a as [|x a IH]; intros c [|y b] d H;
    simpl in H; try discriminate; simpl.
  - reflexivity.
  - rewrite IH by lia. reflexivity.
Qed.

Lemma zip_cons_rev : forall (A : Type) (r : list A) cols,
  length r = length cols ->
  zip_cons (rev r) (rev cols) = rev (zip_cons r cols).
Proof.
  intros A r. unfold zip_cons.
  induction r as [|x r IH]; intros [|c cols] H; simpl in H; try discriminate.
  - reflexivity.
  - simpl. rewrite combine_app_same by (rewrite !length_rev; lia).
    rewrite map_app, IH by lia. reflexivity.
Qed.

Lemma columns_map_rev : forall (A : Type) (rows : list (list A)) w,
  Forall (fun r => length r = w) rows ->
  columns w (map (@rev A) rows) = rev (columns w rows).
Proof.
  intros A rows w H. induction H as [|r rows Hr Hrows IH]; simpl.
  - symmetry. apply rev_repeat.
  - rewrite IH. apply zip_cons_rev.
    rewrite columns_length; assumption.
Qed.

Lemma map_rev_involutive : forall (A : Type) (rows : list (list A)),
  map (@rev A) (map (@rev A) rows) = rows.
Proof.
  intros A rows. rewrite map_map. rewrite <- (map_id rows) at 2.
  apply map_ext. intros r. apply rev_involutive.
Qed.

(** The two quarter turns of OpenCV on the rows of a frame. *)
Lemma rotate_rows_compose : forall (A : Type) (rows : list (list A)) h w,
  rectangular h w rows -> (0 < h)%nat -> (0 < w)%nat ->
  rotate_rows ROTATE_90_COUNTERCLOCKWISE (rotate_rows ROTATE_90_CLOCKWISE rows) = rows /\
  rotate_rows ROTATE_90_CLOCKWISE (rotate_rows ROTATE_90_COUNTERCLOCKWISE rows) = rows /\
  rotate_rows ROTATE_90_CLOCKWISE (rotate_rows ROTATE_90_CLOCKWISE rows) =
    flip_rows 1 (flip_rows 0 rows) /\
  rectangular w h (rotate_rows ROTATE_90_CLOCKWISE rows) /\
  rectangular w h (rotate_rows ROTATE_90_COUNTERCLOCKWISE rows).
Proof.
  intros A rows h w [Hh Hw] Hhpos Hwpos.
  assert (Hne : rows <> []) by (intros ->; simpl in Hh; lia).
  assert (Ht : transpose rows = columns w rows)
    by (apply transpose_columns; assumption).
  assert (Hlen : length (columns w rows) = w) by (apply columns_length, Hw).
  assert (Hrows : Forall (fun c => length c = h) (columns w rows))
    by (rewrite <- Hh; apply columns_heights).
  assert (Hne' : forall cols : list (list A), length cols = w -> cols <> [])
    by (intros cols Hc ->; simpl in Hc; lia).
  assert (Hrev : Forall (fun c => length c = h) (map (@rev A) (columns w rows))).
  { apply Forall_forall. intros c Hc. apply in_map_iff in Hc.
    destruct Hc as (c' & <- & Hin). rewrite length_rev.
    rewrite Forall_forall in Hrows. apply Hrows, Hin. }
  assert (Hrev' : Forall (fun c => length c = h) (rev (columns w rows))).
  { apply Forall_forall. intros c Hc. apply in_rev in Hc.
    rewrite Forall_forall in Hrows. apply Hrows, Hc. }
  assert (Hback : columns h (columns w rows) = rows)
    by (rewrite <- Hh; apply columns_involutive, Hw).
  unfold rotate_rows. rewrite Ht.
  split; [|split; [|split; [|split]]].
  - rewrite (transpose_columns A _ h);
      [|apply Hne'; rewrite length_map; exact Hlen | exact Hrev].
    rewrite columns_map_rev by exact Hrows.
    rewrite Hback. apply rev_involutive.
  - rewrite (transpose_columns A _ h);
      [|apply Hne'; rewrite length_rev; exact Hlen | exact Hrev'].
    rewrite columns_rev by exact Hrows.
    rewrite Hback. apply map_rev_involutive.
  - rewrite (transpose_columns A _ h);
      [|apply Hne'; rewrite length_map; exact Hlen | exact Hrev].
    rewrite columns_map_rev by exact Hrows.
    rewrite Hback. reflexivity.
  - split; [rewrite length_map; exact Hlen | exact Hrev].
  - split; [rewrite length_rev; exact Hlen | exact Hrev'].
Qed.

Lemma rotate_compose : forall img h w,
  has_shape h w img -> (0 < h)%nat -> (0 < w)%nat ->
  rotate ROTATE_90_COUNTERCLOCKWISE (rotate ROTATE_90_CLOCKWISE img) = img /\
  rotate ROTATE_90_CLOCKWISE (rotate ROTATE_90_COUNTERCLOCKWISE img) = img /\
  rotate ROTATE_90_CLOCKWISE (rotate ROTATE_90_CLOCKWISE img) = flip 1 (flip 0 img) /\
  has_shape w h (rotate ROTATE_90_CLOCKWISE img) /\
  has_shape w h (rotate ROTATE_90_COUNTERCLOCKWISE img).
Proof.
  intros [rows|rows] h w Hs Hh Hw; simpl in Hs;
    destruct (rotate_rows_compose _ rows h w Hs Hh Hw) as (H1 & H2 & H3 & H4 & H5);
    cbn [rotate flip has_shape]; rewrite H1, H2, H3;
    (split; [reflexivity|split; [reflexivity|split; [reflexivity|split; assumption]]]).
Qed.

Lemma flips_keep_shape : forall img h w code,
  has_shape h w img -> has_shape h w (flip code img).
Proof.
  assert (Hrows : forall (A : Type) (rows : list (list A)) h w code,
            rectangular h w rows -> rectangular h w (flip_rows code rows)).
  { intros A rows h w code [Hh Hw].
    assert (Hr : rectangular h w (rev rows)).
    { split; [rewrite length_rev; exact Hh|].
      apply Forall_forall. intros r Hr. apply in_rev in Hr.
      rewrite Forall_forall in Hw. apply Hw, Hr. }
    assert (Hm : forall rows', rectangular h w rows' ->
                   rectangular h w (map (@rev A) rows')).
    { intros rows' [Hh' Hw']. split; [rewrite length_map; exact Hh'|].
      apply Forall_forall. intros r Hin. apply in_map_iff in Hin.
      destruct Hin as (r' & <- & Hin). rewrite length_rev.
      rewrite Forall_forall in Hw'. apply Hw', Hin. }
    unfold flip_rows. destruct (code =? 0); [exact Hr|].
    destruct (0 <? code); [apply Hm; split; assumption|].
    split; [rewrite length_rev, length_map; exact Hh|].
    apply Forall_forall. intros r Hin. apply in_rev in Hin.
    destruct (Hm rows (conj Hh Hw)) as [_ Hw'].
    rewrite Forall_forall in Hw'. apply Hw', Hin. }
  intros [rows|rows] h w code Hs; simpl in *; apply Hrows, Hs.
Qed.

(** X16.  On a frame of [h] rows and [w] columns, both at least 1: a
    quarter turn, to the right or to the left, gives a frame of [w] rows
    and [h] columns; a left turn
    after a right turn, or a right turn after a left turn, shows the
    frame exactly as it was; two right turns show what a vertical flip
    followed by a horizontal flip shows; four right turns show the frame
    as it was. *)
Theorem quarter_turns_compose : forall s img h w,
  current_image s = Some img ->
  has_shape h w img -> (0 < h)%nat -> (0 < w)%nat ->
  (exists turned,
     current_image (rotate_right s) = Some turned /\ has_shape w h turned) /\
  (exists turned,
     current_image (rotate_left s) = Some turned /\ has_shape w h turned) /\
  current_image (rotate_left (rotate_right s)) = Some img /\
  current_image (rotate_right (rotate_left s)) = Some img /\
  current_image (rotate_right (rotate_right s)) =
    current_image (flip_horizontal (flip_vertical s)) /\
  current_image (rotate_right (rotate_right (rotate_right (rotate_right s)))) =
    Some img.
Proof.
  intros s img h w Hc Hs Hh Hw.
  assert (Hthen : forall f g,
            current_image (saved_edit g (saved_edit f s)) = Some (g (f img))).
  { intros f g.
    destruct (saved_edit_fields f s img Hc) as (Hc1 & _).
    destruct (saved_edit_fields g (saved_edit f s) (f img) Hc1) as (Hc2 & _).
    exact Hc2. }
  destruct (rotate_compose img h w Hs Hh Hw) as (Hlr & Hrl & Hrr & Hsr & Hsl).
  split; [|split; [|split; [|split; [|split]]]].
  - exists (rotate ROTATE_90_CLOCKWISE img). split; [|exact Hsr].
    unfold rotate_right. apply (saved_edit_fields _ s img Hc).
  - exists (rotate ROTATE_90_COUNTERCLOCKWISE img). split; [|exact Hsl].
    unfold rotate_left. apply (saved_edit_fields _ s img Hc).
  - unfold rotate_left, rotate_right. rewrite Hthen, Hlr. reflexivity.
  - unfold rotate_left, rotate_right. rewrite Hthen, Hrl. reflexivity.
  - unfold rotate_right, flip_horizontal, flip_vertical.
    rewrite !Hthen, Hrr. reflexivity.
  - unfold rotate_right.
    destruct (saved_edit_fields (rotate ROTATE_90_CLOCKWISE) s img Hc) as (Hc1 & _).
    destruct (saved_edit_fields (rotate ROTATE_90_CLOCKWISE) _ _ Hc1) as (Hc2 & _).
    destruct (saved_edit_fields (rotate ROTATE_90_CLOCKWISE) _ _ Hc2) as (Hc3 & _).
    destruct (saved_edit_fields (rotate ROTATE_90_CLOCKWISE) _ _ Hc3) as (Hc4 & _).
    rewrite Hc4. f_equal. rewrite Hrr.
    assert (Hs2 : has_shape h w (flip 1 (flip 0 img)))
      by (apply flips_keep_shape, flips_keep_shape, Hs).
    destruct (rotate_compose _ h w Hs2 Hh Hw) as (_ & _ & Hrr2 & _).
    rewrite Hrr2.
    destruct img as [rows|rows]; simpl; f_equal; unfold flip_rows; simpl;
      rewrite map_rev, map_rev_involutive; apply rev_involutive.
Qed.

Lemma call_keeps_dirty : forall m s,
  has_unsaved_changes s = true -> has_unsaved_changes (call m s) = true.
Proof. intros m s H. destruct m; simpl; frame_solve. Qed.

Lemma step_keeps_dirty : forall e s,
  clears_dirty_flag e = false ->
  has_unsaved_changes s = true ->
  has_unsaved_changes (step s e) = true.
Proof.
  intros e s He Hs.
  destruct e as [[img|]|[|]|m|v|v|v|v| |c]; simpl in He; try discriminate; simpl.
  - exact Hs.
  - frame_solve.
  - apply call_keeps_dirty, Hs.
  - exact (eq_trans (bypassing_step_keeps_flag (MoveBrightness v) s eq_refl) Hs).
  - exact (eq_trans (bypassing_step_keeps_flag (MoveContrast v) s eq_refl) Hs).
  - exact (eq_trans (bypassing_step_keeps_flag (MoveSaturation v) s eq_refl) Hs).
  - exact (eq_trans (bypassing_step_keeps_flag (MoveHue v) s eq_refl) Hs).
  - exact (eq_trans (reset_adjustments_keeps_flag s) Hs).
  - unfold handle_command.
    assert (Hlog : has_unsaved_changes (log_command c s) = true) by exact Hs.
    destruct (interpret fuzz_ratio (lower (strip c))) as [[key|n|n|n|n]|];
      unfold perform.
    + destruct (commands_get key commands); [apply call_keeps_dirty|]; exact Hlog.
    + exact (eq_trans (bypassing_step_keeps_flag (MoveBrightness n) (log_command c s) eq_refl) Hlog).
    + exact (eq_trans (bypassing_step_keeps_flag (MoveContrast n) (log_command c s) eq_refl) Hlog).
    + exact (eq_trans (bypassing_step_keeps_flag (MoveSaturation n) (log_command c s) eq_refl) Hlog).
    + exact (eq_trans (bypassing_step_keeps_flag (MoveHue n) (log_command c s) eq_refl) Hlog).
    + exact Hlog.
Qed.

(** X22.  Once a session has unsaved changes, it keeps them until a
    successful save or a successful load: no edit, adjustment, undo, redo
    or voice command clears the flag, not even undoing every edit.  Until
    then closing asks, and the answer "No" keeps the window open. *)
Theorem unsaved_changes_last_until_save_or_load : forall events s,
  has_unsaved_changes s = true ->
  forallb (fun e => negb (clears_dirty_flag e)) events = true ->
  has_unsaved_changes (run events s) = true /\
  closeEvent false (run events s) = CloseIgnored /\
  closeEvent true (run events s) = CloseAccepted.
Proof.
  intros events s Hs Hev.
  assert (H : has_unsaved_changes (run events s) = true).
  { revert s Hs. unfold run.
    induction events as [|e events IH]; intros s Hs; simpl; [exact Hs|].
    simpl in Hev. apply andb_true_iff in Hev. destruct Hev as [He Hev].
    apply IH; [exact Hev|]. apply step_keeps_dirty; [|exact Hs].
    destruct (clears_dirty_flag e); [discriminate | reflexivity]. }
  unfold closeEvent. rewrite H. repeat split.
Qed.

End Editor.

(* ------------------------------------------------------------------ *)
(** ** The editor on concrete sessions

    Sessions run with the stand-in collaborators [demo]. *)

(** C1, on a session: inverting a freshly loaded one-row image stores the
    snapshot of the loaded frame and marks the session dirty; the
    saturation boost on a freshly loaded colour pixel changes the pixel,
    stores nothing and leaves the session clean. *)
Lemma edits_record_on_a_session :
  undo_stack (apply_invert demo
                (_load_image_from_path (Some (Gray [[100; 7]])) init_window)) =
    [compress_image demo (Gray [[100; 7]])] /\
  redo_stack (apply_invert demo
                (_load_image_from_path (Some (Gray [[100; 7]])) init_window)) = [] /\
  has_unsaved_changes
    (apply_invert demo
       (_load_image_from_path (Some (Gray [[100; 7]])) init_window)) = true /\
  current_image
    (apply_saturation_default demo
       (_load_image_from_path (Some (Color [[[10; 100; 30]]])) init_window)) =
    Some (Color [[[10; 150; 30]]]) /\
  undo_stack
    (apply_saturation_default demo
       (_load_image_from_path (Some (Color [[[10; 100; 30]]])) init_window)) = [] /\
  has_unsaved_changes
    (apply_saturation_default demo
       (_load_image_from_path (Some (Color [[[10; 100; 30]]])) init_window)) = false.
Proof.
  destruct (edits_record_adjustments_do_not demo) as (H & _).
  destruct (proj1 (H M_apply_invert) eq_refl
              (_load_image_from_path (Some (Gray [[100; 7]])) init_window)
              (Gray [[100; 7]]) (Gray [[100; 7]]) eq_refl eq_refl)
    as (H1 & H2 & H3).
  destruct (proj2 (H M_apply_saturation_default) eq_refl
              ltac:(discriminate) ltac:(discriminate)
              (_load_image_from_path (Some (Color [[[10; 100; 30]]])) init_window))
    as (H4 & _ & H6).
  split; [exact H1|]. split; [exact H2|]. split; [exact H3|].
  split; [reflexivity|]. split; [exact H4 | exact H6].
Defined.

(** C1 as stated fails for the adjustments: after a load, moving
    brightness to 10 changes the frame, pushes nothing, and leaves the
    session clean. *)
Lemma brightness_adjustment_records_nothing :
  current_image
    (apply_brightness 10 (_load_image_from_path (Some (Gray [[100]])) init_window)) =
    Some (Gray [[110]]) /\
  undo_stack
    (apply_brightness 10 (_load_image_from_path (Some (Gray [[100]])) init_window)) = [] /\
  has_unsaved_changes
    (apply_brightness 10 (_load_image_from_path (Some (Gray [[100]])) init_window)) = false /\
  ~ records_before_mutation demo (apply_brightness 10).
Proof.
  repeat split.
  intros H.
  destruct (H (_load_image_from_path (Some (Gray [[100]])) init_window)
              (Gray [[100]]) (Gray [[100]]) eq_refl eq_refl) as (Hu & _).
  vm_compute in Hu. discriminate Hu.
Qed.

(** C2, on a session: two edits take [[100; 7]] to [[155; 248]] and
    [[248; 155]]; the stand-in codec drops the low bit of each sample. *)
Lemma undo_redo_on_a_session :
  map current_image
    (trace (repeat (undo demo) 2)
       (apply_all [apply_invert demo; flip_horizontal demo]
          (_load_image_from_path (Some (Gray [[100; 7]])) init_window))) =
    [Some (Gray [[154; 248]]); Some (Gray [[100; 6]])] /\
  map current_image
    (trace (repeat (redo demo) 2)
       (iter_n 2 (undo demo)
          (apply_all [apply_invert demo; flip_horizontal demo]
             (_load_image_from_path (Some (Gray [[100; 7]])) init_window)))) =
    [Some (Gray [[154; 248]]); Some (Gray [[248; 154]])].
Proof.
  assert (Hall : Forall (fun op => In op (recorded_edits demo))
                   [apply_invert demo; flip_horizontal demo]).
  { apply Forall_cons; [|apply Forall_cons; [|apply Forall_nil]];
      unfold recorded_edits; repeat (first [left; reflexivity | right]). }
  assert (Hlen : (length [apply_invert demo; flip_horizontal demo] <= 20)%nat)
    by (simpl; lia).
  destruct (undo_then_redo_restores_frames demo
              [apply_invert demo; flip_horizontal demo]
              (_load_image_from_path (Some (Gray [[100; 7]])) init_window)
              (Gray [[100; 7]]) (Gray [[100; 7]]) Hall Hlen eq_refl eq_refl)
    as (H1 & H2 & _).
  split; [exact H1 | exact H2].
Defined.

(** C3, on a session: after a load and 25 inversions the undo stack holds
    exactly 20 snapshots; the five oldest are gone, so the bottom one is
    the frame after five inversions and the top one the frame after 24. *)
Lemma undo_stack_bound_on_a_session :
  length (undo_stack
     (run demo (Load (Some (Gray [[100%Z]])) :: repeat (Invoke M_apply_invert) 25)
        init_window)) = 20%nat /\
  hd_error (undo_stack
     (run demo (Load (Some (Gray [[100%Z]])) :: repeat (Invoke M_apply_invert) 25)
        init_window)) = Some (compress_image demo (Gray [[155%Z]])) /\
  undo_stack
     (run demo (Load (Some (Gray [[100%Z]])) :: repeat (Invoke M_apply_invert) 25)
        init_window) =
    tl (undo_stack
          (run demo (Load (Some (Gray [[100%Z]])) :: repeat (Invoke M_apply_invert) 24)
             init_window)) ++ [compress_image demo (Gray [[100%Z]])].
Proof.
  destruct (undo_stack_never_exceeds_20 demo init_window (ex_intro _ [] eq_refl))
    as (_ & _ & _ & _ & Hfill).
  destruct (Hfill (Gray [[100%Z]]) 25%nat) as [_ Hlen].
  destruct (Hfill (Gray [[100%Z]]) 24%nat) as [Hreach _].
  destruct (undo_stack_never_exceeds_20 demo _ Hreach) as (_ & _ & _ & Hpush & _).
  destruct (Hpush (Gray [[100%Z]]) eq_refl) as [_ Hfull].
  destruct (Hfull eq_refl) as (oldest & rest & Hs & Hsave).
  split; [exact Hlen|]. split; [reflexivity|].
  rewrite Hs. cbn [tl]. rewrite <- Hsave. reflexivity.
Defined.

(** C4, on a session: on the HSV-passthrough stand-in, brightness 30 then
    60 is brightness 60, while saturation 150 twice takes the saturation
    sample from 100 to 150 and on to 225. *)
Lemma baselines_on_a_session :
  apply_brightness 60
    (apply_brightness 30
       (_load_image_from_path (Some (Color [[[10; 100; 200]]])) init_window)) =
  apply_brightness 60
    (_load_image_from_path (Some (Color [[[10; 100; 200]]])) init_window) /\
  current_image
    (apply_saturation demo 150
       (_load_image_from_path (Some (Color [[[10; 100; 200]]])) init_window)) =
    Some (Color [[[10; 150; 200]]]) /\
  current_image
    (apply_saturation demo 150
       (apply_saturation demo 150
          (_load_image_from_path (Some (Color [[[10; 100; 200]]])) init_window))) =
    Some (Color [[[10; 225; 200]]]).
Proof.
  destruct (cached_baselines_do_not_compound demo
              (_load_image_from_path (Some (Color [[[10; 100; 200]]])) init_window)
              (Color [[[10; 100; 200]]]) 30 60 eq_refl)
    as (_ & Hb & _).
  destruct (cached_baselines_do_not_compound demo
              (_load_image_from_path (Some (Color [[[10; 100; 200]]])) init_window)
              (Color [[[10; 100; 200]]]) 150 150 eq_refl)
    as (_ & _ & _ & _ & Hs1 & Hs2 & _).
  split; [exact Hb | split; [exact Hs1 | exact Hs2]].
Defined.

(** C5, on utterances: " Grey Scale " is stripped and lower-cased, the
    fuzzy phase picks "grayscale", and the grayscale method runs;
    "   UNDO   " runs undo, although without the stripping no keyword
    would score above 75. *)
Lemma grey_scale_runs_grayscale :
  fuzzy_match indel_ratio (lower (strip " Grey Scale ")) = Some "grayscale"%string /\
  handle_command demo " Grey Scale "
    (_load_image_from_path (Some (Color [[[1; 2; 3]]])) init_window) =
  apply_grayscale demo
    (log_command " Grey Scale "
       (_load_image_from_path (Some (Color [[[1; 2; 3]]])) init_window)) /\
  strip "   UNDO   " = "UNDO"%string /\
  handle_command demo "   UNDO   "
    (_load_image_from_path (Some (Color [[[1; 2; 3]]])) init_window) =
  undo demo
    (log_command "   UNDO   "
       (_load_image_from_path (Some (Color [[[1; 2; 3]]])) init_window)) /\
  fuzzy_match indel_ratio (lower "   UNDO   ") = None.
Proof.
  destruct (fuzzy_phase_runs_first demo " Grey Scale "
              (_load_image_from_path (Some (Color [[[1; 2; 3]]])) init_window))
    as (_ & _ & H & _ & Hstrip & _).
  assert (Hm : fuzzy_match (ext_fuzz_ratio demo) (lower (strip " Grey Scale ")) =
               Some "grayscale"%string) by (vm_compute; reflexivity).
  assert (Hu : fuzzy_match (ext_fuzz_ratio demo) (lower "UNDO") = Some "undo"%string)
    by (vm_compute; reflexivity).
  destruct (Hstrip "   "%string "UNDO"%string "   "%string "undo"%string
              eq_refl eq_refl eq_refl) as (Hs & Hrun).
  split; [exact Hm|]. split; [exact (proj2 (H "grayscale"%string Hm))|].
  split; [exact Hs|]. split; [|vm_compute; reflexivity].
  destruct (fuzzy_phase_runs_first demo "   UNDO   "
              (_load_image_from_path (Some (Color [[[1; 2; 3]]])) init_window))
    as (_ & _ & _ & _ & Hstrip' & _).
  exact (proj2 (Hstrip' "   "%string "UNDO"%string "   "%string "undo"%string
                  eq_refl eq_refl eq_refl) Hu).
Defined.

(** C6, on an utterance: no keyword scores above 75 against
    "set brightness by -50", and the brightness pattern yields -50. *)
Lemma brightness_by_minus_50 :
  interpret indel_ratio "set brightness by -50" = Some (Brightness (-50)).
Proof.
  assert (Hm : fuzzy_match indel_ratio "set brightness by -50" = None)
    by (vm_compute; reflexivity).
  destruct (proj1 (proj2 (parameter_patterns_in_priority_order demo))
              "set brightness by -50"%string Hm) as (H & _).
  apply H. vm_compute. reflexivity.
Defined.

(** C7 (code defect).  [_load_image_from_path] leaves [_brightness_base]
    and [_contrast_base] as they were.  On a session: load [[100]], move
    brightness to 10, load [[7]], move brightness to 20.  The frame shown is [[120]], computed from the first
    image; a baseline taken from the new image would give [[27]]. *)
Theorem stale_baseline_survives_load :
  (forall img s,
     brightness_base (_load_image_from_path img s) = brightness_base s /\
     contrast_base (_load_image_from_path img s) = contrast_base s) /\
  brightness_base
    (brightness_slider_setValue 20
       (_load_image_from_path (Some (Gray [[7]]))
          (brightness_slider_setValue 10
             (_load_image_from_path (Some (Gray [[100]])) init_window)))) =
    Some (Gray [[100]]) /\
  current_image
    (brightness_slider_setValue 20
       (_load_image_from_path (Some (Gray [[7]]))
          (brightness_slider_setValue 10
             (_load_image_from_path (Some (Gray [[100]])) init_window)))) =
    Some (Gray [[120]]) /\
  brightened 20 (Gray [[7]]) = Gray [[27]].
Proof.
  split; [exact load_keeps_baselines|]. repeat split.
Qed.

(** C8 as stated fails: on a base hue of 170, [apply_hue] with +190 hands
    hue 170 back, not 0, because the offset is first bounded to +180. *)
Lemma hue_plus_190_on_170_stays_170 :
  hue_hsv demo 190 (Color [[[170; 255; 255]]]) = Color [[[170; 255; 255]]] /\
  ~ (forall (ext : Collaborators) (img : Frame),
       channel 0 (ext_cvtColor ext COLOR_BGR2HSV img) = [[170]] ->
       channel 0 (hue_hsv ext 190 img) = [[0]]).
Proof.
  split; [reflexivity|].
  intros H. specialize (H demo (Color [[[170; 255; 255]]]) eq_refl).
  vm_compute in H. discriminate H.
Qed.

(** C8, on a frame: +10 on a base hue of 170 wraps to 0. *)
Lemma hue_plus_10_on_170_wraps :
  hue_hsv demo 10 (Color [[[170; 255; 255]]]) = Color [[[0; 255; 255]]].
Proof.
  assert (Hwf : wf_frame (Color [[[170; 255; 255]]])).
  { unfold wf_frame, is_uint8. simpl. repeat constructor; lia. }
  exact (proj1 (hue_offset_is_clamped_then_wraps demo 10
                  (Color [[[170; 255; 255]]]) [[[170; 255; 255]]] eq_refl Hwf)).
Defined.

(** C9 (code defect).  [convertScaleAbs] takes the absolute value of the
    sum, so every output sample is [min(255, |sample + v|)]: darkening by 50 turns the sample 10 into 40 instead of 0 (the
    sample 200 becomes 150, as expected), and the darkest setting makes a
    black sample mid-gray. *)
Theorem brightness_reflects_negative_sums :
  (forall value base,
     brightened value base =
       map_samples (fun x => Z.min 255 (Z.abs (x + clamp value (-100) 100))) base) /\
  current_image
    (apply_brightness (-50)
       (_load_image_from_path (Some (Gray [[10; 200]])) init_window)) =
    Some (Gray [[40; 150]]) /\
  Z.min 255 (Z.max 0 (10 + -50)) = 0 /\
  current_image
    (apply_brightness (-100)
       (_load_image_from_path (Some (Gray [[0]])) init_window)) =
    Some (Gray [[100]]).
Proof.
  split; [exact brightened_samples|]. repeat split.
Qed.

(** C10, on a session: grayscale on a loaded single-channel image keeps
    it and stores one snapshot. *)
Lemma grayscale_on_gray_session :
  current_image
    (apply_grayscale demo
       (_load_image_from_path (Some (Gray [[100; 7]])) init_window)) =
    Some (Gray [[100; 7]]) /\
  undo_stack
    (apply_grayscale demo
       (_load_image_from_path (Some (Gray [[100; 7]])) init_window)) =
    [compress_image demo (Gray [[100; 7]])].
Proof.
  destruct (grayscale_on_gray_consumes_undo_slot demo
              (_load_image_from_path (Some (Gray [[100; 7]])) init_window)
              [[100; 7]] eq_refl) as (H1 & H2 & _).
  split; [exact H1 | exact H2].
Defined.

(* ------------------------------------------------------------------ *)
(** ** Keywords and parameter phrases under the reference scores *)

Lemma isspace_lower_char : forall c, isspace (lower_char c) = isspace c.
Proof. intros [[] [] [] [] [] [] [] []]; vm_compute; reflexivity. Qed.

Lemma last_char_lower : forall t c,
  last_char (lower_char c) (lower t) = lower_char (last_char c t).
Proof. induction t as [|c' t IH]; intros c; simpl; [reflexivity | apply IH]. Qed.

Lemma trimmed_lower : forall body, trimmed (lower body) = trimmed body.
Proof.
  intros [|c t]; simpl; [reflexivity|].
  rewrite last_char_lower, !isspace_lower_char. reflexivity.
Qed.

Lemma keys_separated_spec : forall score,
  keys_separated score = true ->
  forall key,
    In key command_keys ->
    score key key = 100 /\
    (forall k, In k command_keys -> k <> key -> score key k < 100).
Proof.
  intros score H key Hin. unfold keys_separated in H.
  rewrite forallb_forall in H. specialize (H key Hin).
  apply andb_true_iff in H. destruct H as [Hself Hothers].
  split; [apply Z.eqb_eq; exact Hself|].
  intros k Hk Hne. rewrite forallb_forall in Hothers.
  specialize (Hothers k Hk). apply orb_true_iff in Hothers.
  destruct Hothers as [He|Hlt].
  - apply String.eqb_eq in He. contradiction.
  - apply Z.ltb_lt. exact Hlt.
Qed.

(** X17.  An utterance that is exactly a keyword of the dictionary
    resolves to that keyword, for every score that gives 100 to the
    keyword against itself and less than 100 to every other keyword.  Both
    reference scores give 100 to each of the 22 keywords against itself
    and less than 100 against every other keyword.  So with either of
    them, a keyword written in any mix of capitals and small letters, with
    any white space before and after it, is logged as uttered and then
    runs the method of that keyword. *)
Theorem exact_keyword_resolves_to_itself :
  (forall score key,
     In key command_keys ->
     score key key = 100 ->
     (forall k, In k command_keys -> k <> key -> score key k < 100) ->
     fuzzy_match score key = Some key /\
     interpret score key = Some (Keyword key)) /\
  (forall key,
     In key command_keys ->
     (indel_ratio key key = 100 /\
      forall k, In k command_keys -> k <> key -> indel_ratio key k < 100) /\
     (difflib_ratio key key = 100 /\
      forall k, In k command_keys -> k <> key -> difflib_ratio key k < 100) /\
     interpret indel_ratio key = Some (Keyword key) /\
     interpret difflib_ratio key = Some (Keyword key)) /\
  (forall ext ws body ws' key m s,
     ext_fuzz_ratio ext = indel_ratio \/ ext_fuzz_ratio ext = difflib_ratio ->
     all_space ws = true -> all_space ws' = true ->
     In key command_keys ->
     lower body = key ->
     commands_get key commands = Some m ->
     strip (ws ++ body ++ ws') = body /\
     handle_command ext (ws ++ body ++ ws') s =
       call ext m (log_command (ws ++ body ++ ws') s)).
Proof.
  assert (Hgen : forall score key,
     In key command_keys ->
     score key key = 100 ->
     (forall k, In k command_keys -> k <> key -> score key k < 100) ->
     fuzzy_match score key = Some key /\
     interpret score key = Some (Keyword key)).
  { intros score key Hin Hself Hother.
    assert (Hnodup : NoDup command_keys).
    { assert (E : nodup string_dec command_keys = command_keys) by (vm_compute; reflexivity).
      rewrite <- E. apply NoDup_nodup. }
    destruct (in_split _ _ Hin) as (pre & post & Hsplit).
    assert (Hm : fuzzy_match score key = Some key).
    { change score with (ext_fuzz_ratio (scoring_with score)) at 1.
      apply (proj2 (fuzzy_match_some_iff (scoring_with score) key key)).
      cbn [ext_fuzz_ratio scoring_with].
      exists pre, post. rewrite Hself. split; [exact Hsplit|]. split; [lia|].
      rewrite Hsplit in Hnodup.
      pose proof (NoDup_remove_2 _ _ _ Hnodup) as Hnotin.
      split; apply Forall_forall; intros k Hk.
      - apply Hother.
        + rewrite Hsplit. apply in_or_app. left. exact Hk.
        + intros ->. apply Hnotin. apply in_or_app. left. exact Hk.
      - assert (k <> key -> score key k < 100).
        { apply Hother. rewrite Hsplit. apply in_or_app. right. right. exact Hk. }
        assert (Hne : k <> key)
          by (intros ->; apply Hnotin; apply in_or_app; right; exact Hk).
        specialize (H Hne). lia. }
    split; [exact Hm|]. unfold interpret. rewrite Hm. reflexivity. }
  assert (Hkeys : forall key,
     In key command_keys ->
     (indel_ratio key key = 100 /\
      forall k, In k command_keys -> k <> key -> indel_ratio key k < 100) /\
     (difflib_ratio key key = 100 /\
      forall k, In k command_keys -> k <> key -> difflib_ratio key k < 100) /\
     interpret indel_ratio key = Some (Keyword key) /\
     interpret difflib_ratio key = Some (Keyword key)).
  { intros key Hin.
    pose proof (keys_separated_spec indel_ratio ltac:(vm_compute; reflexivity) key Hin)
      as Hi.
    pose proof (keys_separated_spec difflib_ratio ltac:(vm_compute; reflexivity) key Hin)
      as Hd.
    split; [exact Hi|]. split; [exact Hd|].
    split; [apply Hgen | apply Hgen];
      first [exact Hin | apply Hi | apply Hd]. }
  split; [exact Hgen|]. split; [exact Hkeys|].
  intros ext ws body ws' key m s Hscore Hws Hws' Hin Hlow Hget.
  assert (Htrim : trimmed body = true).
  { rewrite <- trimmed_lower, Hlow.
    assert (Hall : forallb trimmed command_keys = true) by (vm_compute; reflexivity).
    rewrite forallb_forall in Hall. apply Hall, Hin. }
  pose proof (strip_spec ws body ws' Hws Hws' Htrim) as Hstrip.
  split; [exact Hstrip|].
  unfold handle_command. rewrite Hstrip, Hlow.
  destruct (Hkeys key Hin) as (_ & _ & Hi & Hd).
  destruct Hscore as [-> | ->]; [rewrite Hi | rewrite Hd];
    unfold perform; rewrite Hget; reflexivity.
Qed.

Lemma zrange_In : forall len lo n,
  lo <= n < lo + Z.of_nat len -> In n (zrange lo len).
Proof.
  induction len as [|len IH]; intros lo n H.
  - simpl in H. lia.
  - simpl. destruct (Z.eq_dec lo n) as [->|Hne]; [left; reflexivity|].
    right. apply IH. lia.
Qed.

Lemma Action_eqb_eq : forall a b, Action_eqb a b = true -> a = b.
Proof.
  intros [x|x|x|x|x] [y|y|y|y|y] H; simpl in H; try discriminate;
    first [apply String.eqb_eq in H | apply Z.eqb_eq in H]; congruence.
Qed.

Lemma phrases_give_spec : forall score word with_by expected lo len,
  phrases_give score word with_by expected lo len = true ->
  forall n, lo <= n < lo + Z.of_nat len ->
  interpret score (lower (strip (spoken word with_by n))) = Some (expected n).
Proof.
  intros score word with_by expected lo len H n Hn.
  unfold phrases_give in H. rewrite forallb_forall in H.
  specialize (H n (zrange_In _ _ _ Hn)).
  destruct (interpret score (lower (strip (spoken word with_by n)))) as [a|];
    [|discriminate].
  f_equal. apply Action_eqb_eq. exact H.
Qed.

Lemma small_fits_c_int : forall n, -1000 <= n <= 1000 -> fits_c_int n = true.
Proof.
  intros n H. unfold fits_c_int. change (2 ^ 31) with 2147483648.
  apply andb_true_intro. split; [apply Z.leb_le | apply Z.ltb_lt]; lia.
Qed.

Lemma clamp_inside : forall val lo hi, lo <= val <= hi -> clamp val lo hi = val.
Proof. intros val lo hi H. unfold clamp. lia. Qed.

(** X18.  With either reference score, the spoken forms [<word> by <n>]
    and [<word> <n>] of the words brightness, brighten, contrast, saturate
    and hue are not taken for a keyword for any [n] of the slider's range:
    they reach the parameter patterns, and afterwards the slider of that
    word shows [n]. *)
Theorem spoken_parameters_reach_their_slider : forall ext with_by n s,
  ext_fuzz_ratio ext = indel_ratio \/ ext_fuzz_ratio ext = difflib_ratio ->
  (-100 <= n <= 100 ->
   forall w, In w brightness_words ->
     interpret (ext_fuzz_ratio ext) (lower (strip (spoken w with_by n))) =
       Some (Brightness n) /\
     brightness_slider (handle_command ext (spoken w with_by n) s) = n) /\
  (0 <= n <= 200 ->
     interpret (ext_fuzz_ratio ext) (lower (strip (spoken "contrast" with_by n))) =
       Some (Contrast n) /\
     contrast_slider (handle_command ext (spoken "contrast" with_by n) s) = n) /\
  (0 <= n <= 200 ->
     interpret (ext_fuzz_ratio ext) (lower (strip (spoken "saturate" with_by n))) =
       Some (Saturation n) /\
     saturation_slider (handle_command ext (spoken "saturate" with_by n) s) = n) /\
  (-180 <= n <= 180 ->
     interpret (ext_fuzz_ratio ext) (lower (strip (spoken "hue" with_by n))) =
       Some (Hue n) /\
     hue_slider (handle_command ext (spoken "hue" with_by n) s) = n).
Proof.
  intros ext with_by n s Hscore.
  assert (Hrun : forall a command,
            interpret (ext_fuzz_ratio ext) (lower (strip command)) = Some a ->
            handle_command ext command s = perform ext a (log_command command s)).
  { intros a command H. unfold handle_command. rewrite H. reflexivity. }
  split; [|split; [|split]].
  - intros Hn w Hw.
    assert (Hi : interpret (ext_fuzz_ratio ext) (lower (strip (spoken w with_by n))) =
                 Some (Brightness n)).
    { apply (phrases_give_spec _ w with_by Brightness (-100) 201); [|simpl; lia].
      unfold brightness_words in Hw. simpl in Hw.
      destruct Hw as [<-|[<-|[]]]; destruct with_by;
        destruct Hscore as [-> | ->]; vm_compute; reflexivity. }
    split; [exact Hi|]. rewrite (Hrun _ _ Hi). cbn [perform].
    destruct (sliders_show_clamped_value ext n (log_command (spoken w with_by n) s))
      as (H & _); [apply small_fits_c_int; lia|].
    rewrite H. apply clamp_inside. lia.
  - intros Hn.
    assert (Hi : interpret (ext_fuzz_ratio ext)
                   (lower (strip (spoken "contrast" with_by n))) = Some (Contrast n)).
    { apply (phrases_give_spec _ "contrast"%string with_by Contrast 0 201); [|simpl; lia].
      destruct with_by; destruct Hscore as [-> | ->]; vm_compute; reflexivity. }
    split; [exact Hi|]. rewrite (Hrun _ _ Hi). cbn [perform].
    destruct (sliders_show_clamped_value ext n
                (log_command (spoken "contrast" with_by n) s))
      as (_ & H & _); [apply small_fits_c_int; lia|].
    rewrite H. apply clamp_inside. lia.
  - intros Hn.
    assert (Hi : interpret (ext_fuzz_ratio ext)
                   (lower (strip (spoken "saturate" with_by n))) = Some (Saturation n)).
    { apply (phrases_give_spec _ "saturate"%string with_by Saturation 0 201); [|simpl; lia].
      destruct with_by; destruct Hscore as [-> | ->]; vm_compute; reflexivity. }
    split; [exact Hi|]. rewrite (Hrun _ _ Hi). cbn [perform].
    destruct (sliders_show_clamped_value ext n
                (log_command (spoken "saturate" with_by n) s))
      as (_ & _ & H & _); [apply small_fits_c_int; lia|].
    rewrite H. apply clamp_inside. lia.
  - intros Hn.
    assert (Hi : interpret (ext_fuzz_ratio ext)
                   (lower (strip (spoken "hue" with_by n))) = Some (Hue n)).
    { apply (phrases_give_spec _ "hue"%string with_by Hue (-180) 361); [|simpl; lia].
      destruct with_by; destruct Hscore as [-> | ->]; vm_compute; reflexivity. }
    split; [exact Hi|]. rewrite (Hrun _ _ Hi). cbn [perform].
    destruct (sliders_show_clamped_value ext n
                (log_command (spoken "hue" with_by n) s))
      as (_ & _ & _ & H); [apply small_fits_c_int; lia|].
    rewrite H. apply clamp_inside. lia.
Qed.

(** X19.  With either reference score, "saturation <n>" is taken for the
    keyword "saturation" for every [n] of the slider's range, and so is
    "saturation by <n>" up to 99: the saturation slider then shows 150,
    not [n].  Only "saturation by <n>" from 100 on reaches the parameter
    pattern. *)
Theorem saturation_phrase_runs_the_keyword : forall ext n s,
  ext_fuzz_ratio ext = indel_ratio \/ ext_fuzz_ratio ext = difflib_ratio ->
  0 <= n <= 200 ->
  handle_command ext (spoken "saturation" false n) s =
    apply_saturation_default ext (log_command (spoken "saturation" false n) s) /\
  saturation_slider (handle_command ext (spoken "saturation" false n) s) = 150 /\
  (n <= 99 ->
   saturation_slider (handle_command ext (spoken "saturation" true n) s) = 150) /\
  (100 <= n ->
   saturation_slider (handle_command ext (spoken "saturation" true n) s) = n).
Proof.
  intros ext n s Hscore Hn.
  assert (Hrun : forall a command,
            interpret (ext_fuzz_ratio ext) (lower (strip command)) = Some a ->
            handle_command ext command s = perform ext a (log_command command s)).
  { intros a command H. unfold handle_command. rewrite H. reflexivity. }
  assert (Hdefault : forall s', saturation_slider (apply_saturation_default ext s') = 150).
  { intros s'. unfold apply_saturation_default.
    destruct (sliders_show_clamped_value ext 150 s') as (_ & _ & H & _);
      [reflexivity|]. rewrite H. reflexivity. }
  assert (Hplain : interpret (ext_fuzz_ratio ext)
                     (lower (strip (spoken "saturation" false n))) =
                   Some (Keyword "saturation")).
  { apply (phrases_give_spec _ "saturation"%string false
             (fun _ => Keyword "saturation") 0 201); [|simpl; lia].
    destruct Hscore as [-> | ->]; vm_compute; reflexivity. }
  assert (Hkey : forall command,
            interpret (ext_fuzz_ratio ext) (lower (strip command)) =
              Some (Keyword "saturation") ->
            handle_command ext command s =
              apply_saturation_default ext (log_command command s)).
  { intros command H. rewrite (Hrun _ _ H). reflexivity. }
  split; [apply Hkey, Hplain|].
  split; [rewrite (Hkey _ Hplain); apply Hdefault|].
  split.
  - intros Hle.
    rewrite Hkey; [apply Hdefault|].
    apply (phrases_give_spec _ "saturation"%string true
             (fun _ => Keyword "saturation") 0 100); [|simpl; lia].
    destruct Hscore as [-> | ->]; vm_compute; reflexivity.
  - intros Hge.
    assert (Hi : interpret (ext_fuzz_ratio ext)
                   (lower (strip (spoken "saturation" true n))) = Some (Saturation n)).
    { apply (phrases_give_spec _ "saturation"%string true Saturation 100 101);
        [|simpl; lia].
      destruct Hscore as [-> | ->]; vm_compute; reflexivity. }
    rewrite (Hrun _ _ Hi). cbn [perform].
    destruct (sliders_show_clamped_value ext n
                (log_command (spoken "saturation" true n) s))
      as (_ & _ & H & _); [apply small_fits_c_int; lia|].
    rewrite H. apply clamp_inside. lia.
Qed.

(* ------------------------------------------------------------------ *)
(** ** Recent files and dropped files *)

Lemma listed_iff : forall path recent_files,
  existsb (String.eqb path) recent_files = true <-> In path recent_files.
Proof.
  intros path recent_files. rewrite existsb_exists. split.
  - intros (x & Hin & Heq). apply String.eqb_eq in Heq. subst x. exact Hin.
  - intros Hin. exists path. split; [exact Hin | apply String.eqb_refl].
Qed.

Lemma NoDup_firstn_of : forall (A : Type) n (l : list A),
  NoDup l -> NoDup (firstn n l).
Proof.
  intros A n l H. rewrite <- (firstn_skipn n l) in H.
  apply NoDup_app_remove_r in H. exact H.
Qed.

Lemma remember_recent_listed : forall recent_files path,
  In path recent_files -> remember_recent recent_files path = recent_files.
Proof.
  intros recent_files path H. unfold remember_recent.
  rewrite (proj2 (listed_iff path recent_files) H). reflexivity.
Qed.

Lemma remember_recent_new : forall recent_files path,
  ~ In path recent_files ->
  remember_recent recent_files path = path :: firstn 9 recent_files.
Proof.
  intros recent_files path H. unfold remember_recent.
  destruct (existsb (String.eqb path) recent_files) eqn:E.
  - apply listed_iff in E. contradiction.
  - reflexivity.
Qed.

Lemma recent_step_invariant : forall recent_files e,
  NoDup recent_files /\ (length recent_files <= 10)%nat ->
  NoDup (recent_step recent_files e) /\
  (length (recent_step recent_files e) <= 10)%nat.
Proof.
  intros recent_files [path|] [Hnd Hlen]; simpl.
  - unfold remember_recent.
    destruct (existsb (String.eqb path) recent_files) eqn:E.
    + split; assumption.
    + split.
      * apply NoDup_firstn_of. constructor; [|exact Hnd].
        intros Hin. apply listed_iff in Hin. congruence.
      * apply firstn_le_length.
  - split; [constructor | lia].
Qed.

Lemma recent_run_invariant : forall events recent_files,
  NoDup recent_files /\ (length recent_files <= 10)%nat ->
  NoDup (recent_run events recent_files) /\
  (length (recent_run events recent_files) <= 10)%nat.
Proof.
  induction events as [|e events IH]; intros recent_files H.
  - exact H.
  - apply IH, recent_step_invariant, H.
Qed.

(** X20.  The list of recent files never holds a path twice and never
    more than 10 paths.  A path is listed right after its load; loading a
    path that is already listed leaves the list as it is (the path is not
    moved to the front), and loading a new one puts it in front and keeps
    only the first 9 of the others. *)
Theorem recent_files_are_distinct_and_at_most_10 : forall events,
  NoDup (recent_run events []) /\
  (length (recent_run events []) <= 10)%nat /\
  (forall path, In path (recent_run (events ++ [Loaded path]) [])) /\
  (forall path,
     In path (recent_run events []) ->
     recent_run (events ++ [Loaded path]) [] = recent_run events []) /\
  (forall path,
     ~ In path (recent_run events []) ->
     recent_run (events ++ [Loaded path]) [] =
       path :: firstn 9 (recent_run events [])).
Proof.
  intros events.
  assert (Hstep : forall path,
            recent_run (events ++ [Loaded path]) [] =
              remember_recent (recent_run events []) path).
  { intros path. unfold recent_run. rewrite fold_left_app. reflexivity. }
  destruct (recent_run_invariant events []) as [Hnd Hlen];
    [split; [constructor | simpl; lia]|].
  split; [exact Hnd|]. split; [exact Hlen|].
  split; [|split].
  - intros path. rewrite Hstep.
    destruct (in_dec string_dec path (recent_run events [])) as [Hin|Hout].
    + rewrite remember_recent_listed; assumption.
    + rewrite remember_recent_new by assumption. left. reflexivity.
  - intros path Hin. rewrite Hstep. apply remember_recent_listed, Hin.
  - intros path Hout. rewrite Hstep. apply remember_recent_new, Hout.
Qed.

Lemma substring_all : forall s, substring 0 (String.length s) s = s.
Proof. induction s as [|c s IH]; simpl; [reflexivity | rewrite IH; reflexivity]. Qed.

Lemma substring_split : forall k s,
  (k <= String.length s)%nat ->
  s = (substring 0 k s ++ substring k (String.length s - k) s)%string.
Proof.
  induction k as [|k IH]; intros s Hk.
  - rewrite Nat.sub_0_r, substring_all.
    destruct s; reflexivity.
  - destruct s as [|c s]; simpl in Hk; [lia|].
    simpl. f_equal. apply IH. lia.
Qed.

Lemma substring_suffix : forall stem suffix,
  substring (String.length stem) (String.length suffix) (stem ++ suffix) = suffix.
Proof.
  induction stem as [|c stem IH]; intros suffix; simpl.
  - apply substring_all.
  - apply IH.
Qed.

Lemma string_length_append : forall a b,
  String.length (a ++ b) = (String.length a + String.length b)%nat.
Proof. induction a as [|c a IH]; intros b; simpl; [reflexivity | rewrite IH; reflexivity]. Qed.

Lemma endswith_iff : forall s suffix,
  endswith s suffix = true <-> exists stem, s = (stem ++ suffix)%string.
Proof.
  intros s suffix. unfold endswith. split.
  - intros H. apply andb_true_iff in H. destruct H as [Hle Heq].
    apply Nat.leb_le in Hle. apply String.eqb_eq in Heq.
    exists (substring 0 (String.length s - String.length suffix) s).
    pose proof (substring_split (String.length s - String.length suffix) s
                  ltac:(lia)) as Hs.
    replace (String.length s - (String.length s - String.length suffix))%nat
      with (String.length suffix) in Hs by lia.
    rewrite Heq in Hs. exact Hs.
  - intros (stem & ->). rewrite string_length_append.
    apply andb_true_iff. split; [apply Nat.leb_le; lia|].
    replace (String.length stem + String.length suffix - String.length suffix)%nat
      with (String.length stem) by lia.
    rewrite substring_suffix. apply String.eqb_refl.
Qed.

Lemma dropEvent_some : forall urls path,
  dropEvent urls = Some path <->
  exists pre url post,
    urls = pre ++ url :: post /\
    Forall (fun u => droppable u = false) pre /\
    droppable url = true /\
    toLocalFile url = path.
Proof.
  induction urls as [|u urls IH]; intros path; simpl.
  - split; [discriminate|]. intros (pre & url & post & H & _). destruct pre; discriminate.
  - destruct (droppable u) eqn:E.
    + split.
      * intros H. inversion H. exists [], u, urls. repeat split; [constructor | exact E].
      * intros (pre & url & post & Hsplit & Hpre & Hurl & Hpath).
        destruct pre as [|p pre]; simpl in Hsplit; inversion Hsplit; subst.
        -- reflexivity.
        -- inversion Hpre; subst. congruence.
    + rewrite IH. split.
      * intros (pre & url & post & Hsplit & Hpre & Hurl & Hpath).
        exists (u :: pre), url, post. subst urls.
        repeat split; [constructor; assumption | assumption | assumption].
      * intros (pre & url & post & Hsplit & Hpre & Hurl & Hpath).
        destruct pre as [|p pre]; simpl in Hsplit; inversion Hsplit; subst.
        -- congruence.
        -- inversion Hpre; subst. exists pre, url, post. repeat split; assumption.
Qed.

(** X21.  Of a drop, only the first local file whose name ends in one of
    the seven image suffixes is loaded, whatever follows it; a drop without
    such a file loads nothing.  The suffix is compared without regard to
    upper and lower case. *)
Theorem drop_loads_first_image_file : forall urls,
  (forall path,
     dropEvent urls = Some path <->
     exists pre url post,
       urls = pre ++ url :: post /\
       Forall (fun u => droppable u = false) pre /\
       droppable url = true /\
       toLocalFile url = path) /\
  (dropEvent urls = None <-> Forall (fun u => droppable u = false) urls) /\
  (forall url,
     droppable url = true <->
     isLocalFile url = true /\
     exists stem suffix,
       In suffix image_suffixes /\
       lower (toLocalFile url) = (stem ++ suffix)%string).
Proof.
  intros urls. split; [intros path; apply dropEvent_some|]. split.
  - induction urls as [|u urls IH]; simpl.
    + split; [constructor | reflexivity].
    + destruct (droppable u) eqn:E.
      * split; [discriminate|]. intros H. inversion H; subst. congruence.
      * rewrite IH. split.
        -- intros H. constructor; assumption.
        -- intros H. inversion H; assumption.
  - intros url. unfold droppable, is_image_path.
    rewrite andb_true_iff, existsb_exists. split.
    + intros (Hl & suffix & Hin & He). split; [exact Hl|].
      apply endswith_iff in He. destruct He as (stem & He).
      exists stem, suffix. split; assumption.
    + intros (Hl & stem & suffix & Hin & He). split; [exact Hl|].
      exists suffix. split; [exact Hin|]. apply endswith_iff. exists stem. exact He.
Qed.

(* ------------------------------------------------------------------ *)
(** ** The further properties on concrete sessions *)

(** X1 at 250 in the contrast range. *)
Lemma clamp_250_in_contrast_range :
  0 <= clamp 250 0 200 <= 200 /\ clamp 250 0 200 = 200.
Proof.
  destruct (clamp_within_bounds 250 0 200 ltac:(lia)) as (H1 & _ & _ & H4 & _).
  split; [exact H1 | apply H4; lia].
Defined.

(** X2, on a session: after a load and one inversion, undo then redo shows
    the inverted frame after the stand-in codec dropped its low bits. *)
Lemma undo_redo_after_one_inversion :
  current_image
    (redo demo (undo demo
       (apply_invert demo
          (_load_image_from_path (Some (Gray [[100; 7]])) init_window)))) =
    Some (Gray [[154; 248]]).
Proof.
  destruct (undo_redo_cancel_up_to_codec demo
              (apply_invert demo
                 (_load_image_from_path (Some (Gray [[100; 7]])) init_window))
              (Gray [[155; 248]]) eq_refl) as [H _].
  destruct (H [] (compress_image demo (Gray [[100; 7]])) eq_refl) as (H1 & _).
  exact H1.
Defined.

(** X3, on a session: after a load and a horizontal flip there is nothing
    to redo, and undo shows the loaded frame after one round trip; after a
    load, an inversion, an undo and the saturation boost, redo still shows
    the inverted frame. *)
Lemma nothing_to_redo_after_a_flip :
  redo demo
    (flip_horizontal demo
       (_load_image_from_path (Some (Gray [[100; 7]])) init_window)) =
    flip_horizontal demo
      (_load_image_from_path (Some (Gray [[100; 7]])) init_window) /\
  current_image
    (undo demo
       (flip_horizontal demo
          (_load_image_from_path (Some (Gray [[100; 7]])) init_window))) =
    Some (Gray [[100; 6]]) /\
  current_image
    (redo demo
       (apply_saturation_default demo
          (undo demo
             (apply_invert demo
                (_load_image_from_path (Some (Gray [[100; 7]])) init_window))))) =
    Some (Gray [[154; 248]]).
Proof.
  destruct (nothing_to_redo_after_an_edit demo M_flip_horizontal
              (_load_image_from_path (Some (Gray [[100; 7]])) init_window)
              (Gray [[100; 7]]) (Gray [[100; 7]]) eq_refl eq_refl)
    as (H & _).
  destruct (H eq_refl) as (H1 & H2 & _).
  destruct (nothing_to_redo_after_an_edit demo M_flip_horizontal
              (undo demo
                 (apply_invert demo
                    (_load_image_from_path (Some (Gray [[100; 7]])) init_window)))
              (Gray [[100; 6]]) (Gray [[100; 7]]) eq_refl eq_refl)
    as (_ & _ & _ & H3).
  split; [exact H1|]. split; [exact H2|].
  exact (H3 [] (compress_image demo (Gray [[155; 248]])) eq_refl).
Defined.

(** X5, on a session: two inversions show the loaded frame again. *)
Lemma two_inversions_on_a_session :
  current_image
    (apply_invert demo
       (apply_invert demo
          (_load_image_from_path (Some (Gray [[100; 7]])) init_window))) =
    Some (Gray [[100; 7]]).
Proof.
  exact (proj1 (invert_and_flips_are_involutions demo
                  (_load_image_from_path (Some (Gray [[100; 7]])) init_window)
                  (Gray [[100; 7]]) eq_refl)).
Defined.

(** X6, on a session: after 20 utterances the history holds at most 15. *)
Lemma history_after_20_utterances :
  (length (command_history (run demo (repeat (Say "undo") 20) init_window)) <= 15)%nat.
Proof.
  exact (proj1 (command_history_keeps_last_15 demo _
                  (ex_intro _ (repeat (Say "undo") 20) eq_refl))).
Defined.

(** X8, on a session: asking for brightness 500 and hue -300 leaves the
    sliders in range. *)
Lemma sliders_after_wild_requests :
  sliders_in_range
    (run demo [Load (Some (Gray [[100]])); MoveBrightness 500; Say "hue by -300"]
       init_window).
Proof.
  exact (proj1 (sliders_stay_in_range demo _
                  (ex_intro _ [Load (Some (Gray [[100]])); MoveBrightness 500;
                               Say "hue by -300"] eq_refl))).
Defined.

(** X11, on a session: after a load, a brightness move and an undo, the
    window closes without a question. *)
Lemma close_after_adjusting :
  closeEvent false
    (run demo [MoveBrightness 40; Invoke M_undo]
       (_load_image_from_path (Some (Gray [[100]])) init_window)) =
    CloseAccepted.
Proof.
  destruct (adjustments_and_undo_bypass_dirty_flag demo
              [MoveBrightness 40; Invoke M_undo] init_window false eq_refl)
    as (_ & _ & H).
  exact (H (Gray [[100]])).
Defined.

(** X12, on a session: brightness 30 on the sample 100, an inversion, then
    brightness 10 shows 110: the inversion is gone. *)
Lemma brightness_after_inversion_shows_baseline :
  current_image
    (apply_brightness 10
       (call demo M_apply_invert
          (apply_brightness 30
             (_load_image_from_path (Some (Gray [[100]])) init_window)))) =
    Some (Gray [[110]]).
Proof.
  destruct (edits_keep_stale_baselines demo M_apply_invert
              (apply_brightness 30
                 (_load_image_from_path (Some (Gray [[100]])) init_window))
              (Gray [[125]]) (Gray [[100]]) 10 eq_refl eq_refl)
    as (_ & _ & H).
  exact H.
Defined.

(** X13, on a session: brightness +100 on the samples 100 and 200 shows
    200 and 255. *)
Lemma brightness_100_on_a_session :
  current_image
    (apply_brightness 100
       (_load_image_from_path (Some (Gray [[100; 200]])) init_window)) =
    Some (Gray [[200; 255]]) /\
  wf_frame (Gray [[200; 255]]).
Proof.
  destruct (adjustments_give_8bit_frames demo 100
              (_load_image_from_path (Some (Gray [[100; 200]])) init_window)
              (Gray [[100; 200]]) eq_refl) as ((shown & Hshown & Hwf) & _).
  split; [reflexivity|].
  assert (E : shown = Gray [[200; 255]])
    by (apply (f_equal (fun o => match o with Some f => f | None => shown end)) in Hshown;
        symmetry; exact Hshown).
  rewrite <- E. exact Hwf.
Defined.

(** X14, on a session: after a load and an undo the session is loaded. *)
Lemma session_after_load_and_undo :
  blank (run demo [Load (Some (Gray [[100]])); Invoke M_undo] init_window) \/
  loaded (run demo [Load (Some (Gray [[100]])); Invoke M_undo] init_window).
Proof.
  exact (proj1 (sessions_are_blank_or_loaded demo _
                  (ex_intro _ [Load (Some (Gray [[100]])); Invoke M_undo] eq_refl))).
Defined.

(** X16, on a session: a right turn and a left turn of a 2 by 3 frame. *)
Lemma right_then_left_turn_on_a_session :
  current_image
    (rotate_left demo
       (rotate_right demo
          (_load_image_from_path (Some (Gray [[1; 2; 3]; [4; 5; 6]])) init_window))) =
    Some (Gray [[1; 2; 3]; [4; 5; 6]]).
Proof.
  assert (Hs : has_shape 2 3 (Gray [[1; 2; 3]; [4; 5; 6]]))
    by (split; [reflexivity | repeat constructor]).
  destruct (quarter_turns_compose demo
              (_load_image_from_path (Some (Gray [[1; 2; 3]; [4; 5; 6]])) init_window)
              (Gray [[1; 2; 3]; [4; 5; 6]]) 2 3 eq_refl Hs ltac:(lia) ltac:(lia))
    as (_ & _ & H & _).
  exact H.
Defined.

(** X18, on an utterance: "brighten by -40" moves the brightness slider
    to -40. *)
Lemma brighten_by_minus_40 :
  brightness_slider (handle_command demo "brighten by -40" init_window) = -40.
Proof.
  destruct (spoken_parameters_reach_their_slider demo true (-40) init_window
              (or_introl eq_refl)) as (H & _).
  destruct (H ltac:(lia) "brighten"%string ltac:(right; left; reflexivity)) as (_ & H').
  exact H'.
Defined.

(** X19, on an utterance: "saturation 50" moves the saturation slider
    to 150. *)
Lemma saturation_50_gives_150 :
  saturation_slider (handle_command demo "saturation 50" init_window) = 150.
Proof.
  destruct (saturation_phrase_runs_the_keyword demo 50 init_window
              (or_introl eq_refl) ltac:(lia)) as (_ & H & _).
  exact H.
Defined.

(** X22, on a session: after a load and an inversion, undoing the
    inversion leaves the session dirty. *)
Lemma dirty_after_undoing_the_only_edit :
  has_unsaved_changes
    (run demo [Invoke M_undo]
       (apply_invert demo
          (_load_image_from_path (Some (Gray [[100]])) init_window))) = true.
Proof.
  exact (proj1 (unsaved_changes_last_until_save_or_load demo [Invoke M_undo]
                  (apply_invert demo
                     (_load_image_from_path (Some (Gray [[100]])) init_window))
                  eq_refl eq_refl)).
Defined.

(** X17, on an utterance: "   Redo   " runs redo, although without the
    stripping no keyword would score above 75. *)
Lemma redo_with_blanks_and_capitals :
  handle_command demo "   Redo   "
    (_load_image_from_path (Some (Gray [[100]])) init_window) =
  redo demo
    (log_command "   Redo   "
       (_load_image_from_path (Some (Gray [[100]])) init_window)) /\
  fuzzy_match indel_ratio (lower "   Redo   ") = None.
Proof.
  destruct exact_keyword_resolves_to_itself as (_ & _ & H).
  destruct (H demo "   "%string "Redo"%string "   "%string "redo"%string M_redo
              (_load_image_from_path (Some (Gray [[100]])) init_window)
              (or_introl eq_refl) eq_refl eq_refl
              ltac:(unfold command_keys; simpl; repeat (first [left; reflexivity | right]))
              eq_refl eq_refl) as (_ & Hrun).
  split; [exact Hrun | vm_compute; reflexivity].
Defined.
